(** * dictionary-attention: vocabulary, batching and decoding

    A shallow embedding of [manager.py] (classes [Vocab], [Batch] and
    [Manager.batch_data]) and of [decoder.py] ([triu_mask],
    [greedy_search], [beam_search]), followed by the properties of the
    design document that were checked against it.

    Conventions of the embedding.
    - Python [int]s are [Z]; lengths and loop indices that the code only
      ever counts upwards from zero are [nat].
    - A Python [str] is a [string]; its characters are the code points
      below 256.
    - A [dict] with string keys is a [gmap string _]; a Python list is a
      [list].
    - A 2-d integer tensor is the list of its rows; a floating-point score
      is the rational it denotes ([Q]) and the rounding of sums and
      quotients is explicit; the mask entries [0.] and [1.] are [0] and
      [1].
    - A call either returns, raises a Python exception, or (for the loops
      modelled with fuel) runs out of fuel: type [result].
    - The vocabulary is the only object mutated behind a property read, so
      code that reads it lives in the state-and-exception monad [M]. *)

From Stdlib Require Import ZArith QArith Ascii String List Lia Bool Arith.
From Stdlib Require Import Sorted.
From stdpp Require Import base option list strings gmap pretty.

Local Open Scope string_scope.
Local Open Scope Z_scope.
Local Open Scope list_scope.
Local Open Scope stdpp_scope.

(* ===================================================================== *)
(** * Part I: definitions                                                  *)
(* ===================================================================== *)

(** ** Exceptions and outcomes *)

Inductive exn : Set :=
  | KeyError | ValueError | IndexError | AttributeError
  | TypeError | RuntimeError | ZeroDivisionError.

Inductive result (A : Type) : Type :=
  | Ok (a : A)
  | Raise (e : exn)
  | OutOfFuel.
Arguments Ok {A} a.
Arguments Raise {A} e.
Arguments OutOfFuel {A}.

Definition exn_eqb (a b : exn) : bool :=
  match a, b with
  | KeyError, KeyError | ValueError, ValueError | IndexError, IndexError
  | AttributeError, AttributeError | TypeError, TypeError
  | RuntimeError, RuntimeError | ZeroDivisionError, ZeroDivisionError => true
  | _, _ => false
  end.

Definition rbind {A B} (r : result A) (k : A -> result B) : result B :=
  match r with
  | Ok a => k a
  | Raise e => Raise e
  | OutOfFuel => OutOfFuel
  end.

(** [try: body  except E: handler]: only the named exception is caught. *)
Definition try_except {A} (body : result A) (E : exn) (handler : result A)
  : result A :=
  match body with
  | Raise e => if exn_eqb e E then handler else Raise e
  | r => r
  end.

Declare Scope res_scope.
Delimit Scope res_scope with res.
Notation "x <- r ;; k" := (rbind r (fun x => k))
  (at level 100, r at next level, k at level 200, right associativity)
  : res_scope.
Local Open Scope res_scope.

(** State-and-exception monad over a mutable object of type [S]. *)
Definition M (S A : Type) : Type := S -> result (A * S).

Definition mret {S A} (a : A) : M S A := fun s => Ok (a, s).
Definition mraise {S A} (e : exn) : M S A := fun _ => Raise e.
Definition mbind {S A B} (m : M S A) (k : A -> M S B) : M S B :=
  fun s => match m s with
           | Ok (a, s') => k a s'
           | Raise e => Raise e
           | OutOfFuel => OutOfFuel
           end.
Definition mlift {S A} (r : result A) : M S A :=
  fun s => match r with
           | Ok a => Ok (a, s)
           | Raise e => Raise e
           | OutOfFuel => OutOfFuel
           end.
(** [try: body  except E: handler] on a mutable object.  The handler runs
    in the state on entry to the body: no body wrapped this way changes the
    object before it raises the exception that is caught (it is a lookup,
    or a control-token read followed by a search in a tuple). *)
Definition mtry {S A} (body : M S A) (E : exn) (handler : M S A) : M S A :=
  fun s => match body s with
           | Raise e => if exn_eqb e E then handler s else Raise e
           | r => r
           end.

Declare Scope m_scope.
Delimit Scope m_scope with m.
Notation "x <~ m ;; k" := (mbind m (fun x => k))
  (at level 100, m at next level, k at level 200, right associativity)
  : m_scope.
Notation "m1 ;;; m2" := (mbind m1 (fun _ => m2))
  (at level 100, m2 at level 200, right associativity) : m_scope.
Local Open Scope m_scope.

Fixpoint mmap {S A B} (f : A -> M S B) (l : list A) : M S (list B) :=
  match l with
  | [] => mret []
  | x :: l' => y <~ f x ;; ys <~ mmap f l' ;; mret (y :: ys)
  end.

(** ** Python built-ins used by the code *)

(** [d[k]] on a dict. *)
Definition dict_getitem {V} (d : gmap string V) (k : string) : result V :=
  match d !! k with
  | Some v => Ok v
  | None => Raise KeyError
  end.

(** [l[i]] on a list, with Python's negative indices. *)
Definition list_getitem {A} (l : list A) (i : Z) : result A :=
  let n := Z.of_nat (length l) in
  let j := if i <? 0 then i + n else i in
  if (j <? 0) || (n <=? j) then Raise IndexError
  else match l !! Z.to_nat j with
       | Some x => Ok x
       | None => Raise IndexError
       end.

(** [l.index(x)]: position of the first occurrence, [ValueError] if none. *)
Fixpoint list_index (x : Z) (l : list Z) : result nat :=
  match l with
  | [] => Raise ValueError
  | y :: l' => if y =? x then Ok 0%nat
               else (n <- list_index x l' ;; Ok (S n))%res
  end.

(** [l[start:end]] for non-negative bounds. *)
Definition slice {A} (l : list A) (start stop : nat) : list A :=
  drop start (take stop l).

(** [l[:n]] for an arbitrary integer bound. *)
Definition slice_to {A} (l : list A) (n : Z) : list A :=
  if n <? 0 then take (Z.to_nat (Z.of_nat (length l) + n)) l
  else take (Z.to_nat n) l.

(** [str.isspace] on one character (code points below 256). *)
Definition is_space (c : ascii) : bool :=
  let n := nat_of_ascii c in
  ((9 <=? n) && (n <=? 13) || (28 <=? n) && (n <=? 32)
   || (n =? 133) || (n =? 160))%nat.

Definition tab : ascii := ascii_of_nat 9.
Definition newline : ascii := ascii_of_nat 10.

(** [s.split(sep)] for a one-character separator, on character lists:
    always at least one field. *)
Fixpoint split_chars (sep : ascii) (s : list ascii) : list (list ascii) :=
  match s with
  | [] => [[]]
  | c :: s' =>
      if Ascii.eqb c sep then [] :: split_chars sep s'
      else match split_chars sep s' with
           | [] => [[c]]
           | w :: ws => (c :: w) :: ws
           end
  end.

Definition split_on (sep : ascii) (s : string) : list string :=
  map string_of_list_ascii (split_chars sep (list_ascii_of_string s)).

(** [s.split()]: fields separated by runs of whitespace, no empty field.
    [cur] is the field being read, in reverse. *)
Fixpoint split_ws_chars (cur : list ascii) (s : list ascii)
  : list (list ascii) :=
  match s with
  | [] => match cur with [] => [] | _ => [rev cur] end
  | c :: s' =>
      if is_space c
      then match cur with
           | [] => split_ws_chars [] s'
           | _ => rev cur :: split_ws_chars [] s'
           end
      else split_ws_chars (c :: cur) s'
  end.

Definition split_ws (s : string) : list string :=
  map string_of_list_ascii (split_ws_chars [] (list_ascii_of_string s)).

Fixpoint lstrip_chars (p : ascii -> bool) (s : list ascii) : list ascii :=
  match s with
  | c :: s' => if p c then lstrip_chars p s' else s
  | [] => []
  end.

(** [s.lstrip(chars)] and [s.rstrip(chars)]: [chars] is a set of
    characters, given here as its membership test. *)
Definition lstrip (p : ascii -> bool) (s : string) : string :=
  string_of_list_ascii (lstrip_chars p (list_ascii_of_string s)).
Definition rstrip (p : ascii -> bool) (s : string) : string :=
  string_of_list_ascii
    (rev (lstrip_chars p (rev (list_ascii_of_string s)))).

Definition is_at (c : ascii) : bool := Ascii.eqb c "@"%char.
Definition is_hash (c : ascii) : bool := Ascii.eqb c "#"%char.

(** [s.endswith(suffix)]. *)
Definition endswith (s suffix : string) : bool :=
  let n := String.length s in
  let k := String.length suffix in
  (k <=? n)%nat && String.eqb (substring (n - k) k s) suffix.

Definition digit_val (c : ascii) : option Z :=
  let n := nat_of_ascii c in
  if ((48 <=? n) && (n <=? 57))%nat then Some (Z.of_nat (n - 48)) else None.

(** Digits of an integer literal; single underscores may separate digits.
    [acc] is the value read so far, [prev_digit] tells whether the previous
    character was a digit. *)
Fixpoint parse_digits (acc : Z) (prev_digit : bool) (s : list ascii)
  : option Z :=
  match s with
  | [] => if prev_digit then Some acc else None
  | c :: s' =>
      match digit_val c with
      | Some d => parse_digits (10 * acc + d) true s'
      | None =>
          if Ascii.eqb c "_"%char && prev_digit
          then match s' with
               | c' :: _ => match digit_val c' with
                            | Some _ => parse_digits acc false s'
                            | None => None
                            end
               | [] => None
               end
          else None
      end
  end.

(** The whitespace that [int] skips around a literal: the six ASCII
    characters of the C locale, and the two code points above 127 that are
    Unicode whitespace.  The separators U+001C..U+001F, which [str.split]
    treats as whitespace, are not among them. *)
Definition is_int_space (c : ascii) : bool :=
  let n := nat_of_ascii c in
  ((9 <=? n) && (n <=? 13) || (n =? 32) || (n =? 133) || (n =? 160))%nat.

(** [int(s)] on a string: surrounding whitespace, an optional sign, decimal
    digits; anything else is a [ValueError], and so is a literal of more
    than 4300 digits (the interpreter's default limit on the conversion). *)
Definition int_of_str (s : string) : result Z :=
  let body := rev (lstrip_chars is_int_space
                (rev (lstrip_chars is_int_space (list_ascii_of_string s)))) in
  let signed :=
    match body with
    | c :: rest =>
        if Ascii.eqb c "-"%char then (true, rest)
        else if Ascii.eqb c "+"%char then (false, rest)
        else (false, body)
    | [] => (false, [])
    end in
  let digits := filter (fun c => is_Some (digit_val c)) (snd signed) in
  match parse_digits 0 false (snd signed) with
  | Some n => if (4300 <? length digits)%nat then Raise ValueError
              else Ok (if fst signed then - n else n)
  | None => Raise ValueError
  end.

(** ** class Vocab *)

Module Vocab.

Record t : Type := mk {
  num_to_word : list string;
  word_to_num : gmap string Z;
  _decoding_size : option Z;
}.

(** [size()] *)
Definition size (v : t) : Z := Z.of_nat (length (num_to_word v)).

(** [size(decoding=True)]: [None] until a file has been loaded. *)
Definition size_decoding (v : t) : option Z := _decoding_size v.

(** [add]: [try: self.word_to_num[word] = self.size()], [except
    ValueError: pass], [else: self.num_to_word.append(word)].  The
    assignment to a dict entry cannot raise, so the [else] branch always
    runs. *)
Definition add (word : string) : M t unit := fun v =>
  match (Ok (<[word := size v]> (word_to_num v))
         : result (gmap string Z)) with
  | Ok w2n =>
      Ok (tt, mk (num_to_word v ++ [word]) w2n (_decoding_size v))
  | Raise e => if exn_eqb e ValueError then Ok (tt, v) else Raise e
  | OutOfFuel => OutOfFuel
  end.

(** The four control-token properties share one body (lines 33-63):
    [try: return self.word_to_num[tok]  except ValueError: self.add(tok)]
    followed by [return self.word_to_num[tok]]. *)
Definition control_token (tok : string) : M t Z := fun v =>
  match dict_getitem (word_to_num v) tok with
  | Ok n => Ok (n, v)
  | Raise e =>
      if exn_eqb e ValueError
      then (_ <~ add tok ;;
            fun v' => n <- dict_getitem (word_to_num v') tok ;; Ok (n, v'))%m v
      else Raise e
  | OutOfFuel => OutOfFuel
  end.

Definition UNK : M t Z := control_token "<UNK>".
Definition BOS : M t Z := control_token "<BOS>".
Definition EOS : M t Z := control_token "<EOS>".
Definition PAD : M t Z := control_token "<PAD>".

(** [list.remove(x)]: drops the first occurrence. *)
Fixpoint list_remove (x : string) (l : list string) : result (list string) :=
  match l with
  | [] => Raise ValueError
  | y :: l' => if String.eqb y x then Ok l'
               else (r <- list_remove x l' ;; Ok (y :: r))%res
  end.

Definition remove (word : string) : M t unit := fun v =>
  match dict_getitem (word_to_num v) word with
  | Ok _ =>
      (l <- list_remove word (num_to_word v) ;;
       Ok (tt, mk l (delete word (word_to_num v)) (_decoding_size v)))%res
  | Raise e => if exn_eqb e KeyError then Ok (tt, v) else Raise e
  | OutOfFuel => OutOfFuel
  end.

(** [numberize]: the words are the positional arguments. *)
Definition numberize_word (word : string) : M t Z :=
  mtry (fun v => n <- dict_getitem (word_to_num v) word ;; Ok (n, v))%res
       KeyError
       UNK.

Definition numberize (words : list string) : M t (list Z) :=
  mmap numberize_word words.

(** [denumberize]: the ids are the positional arguments. *)
Definition denumberize (nums : list Z) (verbatim : bool)
  : M t (list string) :=
  if verbatim then
    fun v => (ws <- mmap (S:=unit)
                      (fun n => mlift (list_getitem (num_to_word v) n)) nums tt ;;
              Ok (fst ws, v))%res
  else
    start <~ mtry (bos <~ BOS ;;
                   mlift (i <- list_index bos nums ;; Ok (i + 1)%nat)%res)
                  ValueError (mret 0%nat) ;;
    stop <~ mtry (eos <~ EOS ;; mlift (list_index eos nums))
                 ValueError (mret (length nums)) ;;
    fun v => (ws <- mmap (S:=unit)
                      (fun n => mlift (list_getitem (num_to_word v) n))
                      (slice nums start stop) tt ;;
              Ok (fst ws, v))%res.

(** [for i in range(n): self.add(f'<PAD {off + i}>')] *)
Fixpoint add_pads (off : nat) (i n : nat) : M t unit :=
  match n with
  | O => mret tt
  | S n' => add ("<PAD " +:+ pretty (off + i)%nat +:+ ">") ;;;
            add_pads off (S i) n'
  end.

(** [_from_file]: the file is the list of its lines. *)
Definition _from_file (vocab_file : list string) : M t unit :=
  let line := match vocab_file with [] => "" | l :: _ => l end in
  match split_on ":"%char (lstrip is_hash line) with
  | [start; stop] =>
      e <~ mlift (int_of_str stop) ;;
      s <~ mlift (int_of_str start) ;;
      let decoding_size := e - s in
      let n := Z.to_nat (8 - decoding_size mod 8) in
      add_pads 0 0 n ;;;
      let i := (n - 1)%nat in
      let decoding_size :=
        decoding_size + (if (i =? 0)%nat then 0 else Z.of_nat i + 1) in
      mmap (fun line : string =>
              w <~ mlift (list_getitem (split_ws line) 0) ;; add w)
           (tail vocab_file) ;;;
      (fun v => add_pads i 0 (Z.to_nat (8 - size v mod 8)) v) ;;;
      fun v => Ok (tt, mk (num_to_word v) (word_to_num v) (Some decoding_size))
  | _ => mraise ValueError
  end.

Definition empty : t := mk [] ∅ None.

(** [Vocab(vocab_file)] *)
Definition init (vocab_file : option (list string)) : result t :=
  match vocab_file with
  | Some f => (r <- _from_file f empty ;; Ok (snd r))%res
  | None => Ok empty
  end.

End Vocab.

(** ** Tensors as lists *)

(** [t.size(-1)] of a 2-d tensor given by its rows. *)
Definition ncols {A} (rows : list (list A)) : nat :=
  match rows with
  | r :: _ => length r
  | [] => 0
  end.

(** Values of a 64-bit integer tensor wrap around. *)
Definition wrap64 (z : Z) : Z := (z + 2 ^ 63) mod 2 ^ 64 - 2 ^ 63.

Definition sum_Z (l : list Z) : Z := foldr Z.add 0 l.

(** [triu_mask(size)]: shape [1, size, size]; entry (r, c) is true when the
    strict upper triangle of the all-ones matrix is zero there, i.e. when
    [c <= r]. *)
Definition triu_mask (size : nat) : list (list (list bool)) :=
  [ map (fun r => map (fun c => (c <=? r)%nat) (seq 0 size)) (seq 0 size) ].

(** [x[:-1]] *)
Definition drop_last {A} (x : list A) : list A := take (length x - 1) x.

(** [x[mask]]: the entries of [x] at which the boolean mask is true. *)
Fixpoint select {A} (mask : list bool) (x : list A) : list A :=
  match mask, x with
  | m :: mask', a :: x' => if m then a :: select mask' x' else select mask' x'
  | _, _ => []
  end.

(** [x[mask] = vals]: the masked entries are replaced in order; the number
    of values must be the number of true entries of the mask. *)
Fixpoint assign_go {A} (mask : list bool) (x : list A) (vals : list A)
  : list A :=
  match mask, x with
  | m :: mask', a :: x' =>
      if m then match vals with
                | v :: vals' => v :: assign_go mask' x' vals'
                | [] => a :: assign_go mask' x' []
                end
      else a :: assign_go mask' x' vals
  | _, _ => x
  end.

Definition count_true (mask : list bool) : nat :=
  length (filter (fun b => b = true) mask).

Definition assign {A} (mask : list bool) (x : list A) (vals : list A)
  : result (list A) :=
  if (length vals =? count_true mask)%nat then Ok (assign_go mask x vals)
  else Raise RuntimeError.

(** ** class Batch *)

Module Batch.

Abbreviation span := (nat * nat)%type.
Abbreviation item := (list (nat * nat) * list (nat * nat))%type.

(** The per-example span data is whatever iterable the constructor was
    given: a sequence can be traversed again, a [zip] object yields each
    item once. *)
Inductive dict_data : Type :=
  | DictList (items : list item)
  | DictZip (rest : list item).

Record t : Type := mk {
  _src_nums : list (list Z);
  _tgt_nums : list (list Z);
  _dict_data : dict_data;
  ignore_index : option Z;
}.

Definition src_nums (b : t) : list (list Z) := _src_nums b.
Definition tgt_nums (b : t) : list (list Z) := _tgt_nums b.

(** [not self.ignore_index]: true for [None] and for [0]. *)
Definition not_ignore_index (b : t) : bool :=
  match ignore_index b with
  | None => true
  | Some n => n =? 0
  end.

Definition ignore_value (b : t) : Z :=
  match ignore_index b with Some n => n | None => 0 end.

(** [src_mask]: [None], or shape [B, 1, Ls]. *)
Definition src_mask (b : t) : option (list (list (list bool))) :=
  if not_ignore_index b then None
  else Some (map (fun row => [map (fun x => negb (x =? ignore_value b)) row])
                 (src_nums b)).

(** [tgt_mask]: the causal mask of shape [1, n, n], or its conjunction with
    the padding mask [B, 1, n], where [n] is the target length minus one. *)
Definition tgt_mask (b : t) : list (list (list bool)) :=
  let tgt := map drop_last (tgt_nums b) in
  if not_ignore_index b then triu_mask (ncols tgt)
  else
    map (fun row =>
           map (fun causal_row =>
                  zip_with andb
                    (map (fun x => negb (x =? ignore_value b)) row) causal_row)
               (match triu_mask (ncols tgt) with m :: _ => m | [] => [] end))
        tgt.

Abbreviation mask4 := (list (list (list (list Z)))).

Definition in_span (k : nat) (s : span) : bool :=
  ((fst s <=? k) && (k <? snd s))%nat.

(** Assignment of [x] to a block [rows, cols] of a matrix; slice bounds
    beyond the matrix are clipped, as Python slices are. *)
Definition fill_block (rows cols : span) (x : Z) (m : list (list Z))
  : list (list Z) :=
  imap (fun r row =>
          if in_span r rows
          then imap (fun c y => if in_span c cols then x else y) row
          else row) m.

(** [dict_mask[layer, i, r0:r1, c0:c1] = x]; the integer index [i] must
    exist. *)
Definition set_block (layer i : nat) (rows cols : span) (x : Z) (m : mask4)
  : result mask4 :=
  match m !! layer with
  | Some lay =>
      match lay !! i with
      | Some mat =>
          Ok (<[layer := <[i := fill_block rows cols x mat]> lay]> m)
      | None => Raise IndexError
      end
  | None => Raise IndexError
  end.

(** Body of the inner loop of [dict_mask] (lines 145-149) for one pair
    [(a, b), (c, d)] of example [i]; [Ls] is the source length. *)
Definition mark_pair (Ls i : nat) (m : mask4) (p : span * span)
  : result mask4 :=
  let '(ab, cd) := p in
  (m <- set_block 0 i (0, Ls)%nat cd 1 m ;;
   m <- set_block 0 i ab cd 0 m ;;
   m <- set_block 1 i cd (0, Ls)%nat 1 m ;;
   set_block 1 i cd cd 0 m)%res.

Fixpoint mark_pairs (Ls i : nat) (m : mask4) (ps : list (span * span))
  : result mask4 :=
  match ps with
  | [] => Ok m
  | p :: ps' => (m' <- mark_pair Ls i m p ;; mark_pairs Ls i m' ps')%res
  end.

(** The outer loop: [for i, (lemmas, senses) in enumerate(...)]. *)
Fixpoint mark_items (Ls i : nat) (m : mask4) (items : list item)
  : result mask4 :=
  match items with
  | [] => Ok m
  | (lemmas, senses) :: items' =>
      (m' <- mark_pairs Ls i m (zip lemmas senses) ;;
       mark_items Ls (S i) m' items')%res
  end.

(** Traversing the span data: a [zip] object is left exhausted. *)
Definition iterate (d : dict_data) : list item * dict_data :=
  match d with
  | DictList l => (l, DictList l)
  | DictZip l => (l, DictZip [])
  end.

Definition zeros (B Ls : nat) : mask4 :=
  replicate 2 (replicate B (replicate Ls (replicate Ls 0))).

(** [dict_mask]: returns the mask and the batch, whose span iterator may
    have been consumed.  [self.src_mask.size()] fails on [None]. *)
Definition dict_mask (b : t) : result (mask4 * t) :=
  match src_mask b with
  | None => Raise AttributeError
  | Some sm =>
      let B := length sm in
      let Ls := match sm with (row :: _) :: _ => length row | _ => 0%nat end in
      let '(items, rest) := iterate (_dict_data b) in
      (m <- mark_items Ls 0 (zeros B Ls) items ;;
       Ok (m, mk (_src_nums b) (_tgt_nums b) rest (ignore_index b)))%res
  end.

(** [num_tokens] *)
Definition num_tokens (b : t) : Z :=
  if not_ignore_index b
  then wrap64 (sum_Z (concat (map (drop 1) (tgt_nums b))))
  else Z.of_nat
         (length (filter (fun x => x ≠ ignore_value b)
                         (concat (map (drop 1) (tgt_nums b))))).

Definition size (b : t) : nat := length (_src_nums b).

End Batch.

(** ** class Manager: [batch_data] *)

(** [l[a:b]] for arbitrary integer bounds (negative bounds count from the
    end, out-of-range bounds are clipped). *)
Definition clip_index (n : nat) (i : Z) : nat :=
  let j := if i <? 0 then i + Z.of_nat n else i in
  Z.to_nat (Z.min (Z.max j 0) (Z.of_nat n)).

Definition py_slice {A} (l : list A) (a b : Z) : list A :=
  slice l (clip_index (length l) a) (clip_index (length l) b).

Definition list_max (l : list nat) : nat := foldr Nat.max 0%nat l.

(** [math.ceil(n / 8) * 8]; the true division by 8 is exact for the
    lengths that occur (far below 2^53). *)
Definition ceil8 (n : nat) : nat := ((n + 7) / 8 * 8)%nat.

(** [nn.functional.pad(x, (0, k), value=v)] on a 1-d tensor: a negative
    [k] crops, and cropping more than the tensor holds is an error. *)
Definition pad_right (x : list Z) (k : Z) (v : Z) : result (list Z) :=
  if 0 <=? k then Ok (x ++ replicate (Z.to_nat k) v)
  else if 0 <=? Z.of_nat (length x) + k
       then Ok (take (Z.to_nat (Z.of_nat (length x) + k)) x)
       else Raise RuntimeError.

(** [torch.stack(rows)]: a non-empty list of tensors of one shape. *)
Definition stack (rows : list (list Z)) : result (list (list Z)) :=
  match rows with
  | [] => Raise RuntimeError
  | r :: _ =>
      if forallb (fun r' => (length r' =? length r)%nat) rows then Ok rows
      else Raise RuntimeError
  end.

(** Lexicographic order on the sort keys [(len(x[0]), len(x[1]))]. *)
Definition key_lt (k1 k2 : nat * nat) : bool :=
  ((fst k1 <? fst k2) || ((fst k1 =? fst k2) && (snd k1 <? snd k2)))%nat.

(** [list.sort(key=..., reverse=True)]: descending and stable.  Insertion
    from the right puts an element in front of the later elements that do
    not have a greater key. *)
Fixpoint insert_desc {A} (key : A -> nat * nat) (x : A) (l : list A)
  : list A :=
  match l with
  | [] => [x]
  | y :: l' => if key_lt (key x) (key y) then y :: insert_desc key x l'
               else x :: l
  end.

Definition sort_desc {A} (key : A -> nat * nat) (l : list A) : list A :=
  foldr (insert_desc key) [] l.

Module Manager.

Record t : Type := mk {
  vocab : Vocab.t;
  dict : gmap string (list string);
  freq : gmap string Z;
  max_length : Z;
  batch_size : Z;
  freq_limit : Z;
  max_senses : Z;
}.

Definition set_vocab (self : t) (v : Vocab.t) : t :=
  mk v (dict self) (freq self) (max_length self) (batch_size self)
     (freq_limit self) (max_senses self).

(** A method of [self.vocab] run on the manager. *)
Definition on_vocab {A} (m : M Vocab.t A) : M t A := fun self =>
  (r <- m (vocab self) ;; Ok (fst r, set_vocab self (snd r)))%res.

(** One accepted line: [(src_words, tgt_words, lemmas, senses)]. *)
Record example : Type := mk_example {
  src_words : list string;
  tgt_words : list string;
  lemmas : list Batch.span;
  senses : list Batch.span;
}.

Definition sort_key (x : example) : nat * nat :=
  (length (src_words x), length (tgt_words x)).

(** Lines 261-262: [while (i := i + 1) < src_len and
    src_words[i].endswith('@@'): lemma += src_words[i].rstrip('@@')].
    Returns the final [i] and [lemma]. *)
Fixpoint join_lemma (fuel : nat) (src_words : list string) (src_len i : nat)
    (lemma : string) : result (nat * string) :=
  match fuel with
  | O => OutOfFuel
  | S fuel' =>
      let i := S i in
      if (i <? src_len)%nat then
        (w <- list_getitem src_words (Z.of_nat i) ;;
         if endswith w "@@"
         then join_lemma fuel' src_words src_len i (lemma +:+ rstrip is_at w)
         else Ok (i, lemma))%res
      else Ok (i, lemma)
  end.

(** Lines 257-281: the scan for lemmas.  [i] is the value of the loop
    variable after the increment in the loop test. *)
Fixpoint scan (fuel : nat) (self : t) (src_len i : nat)
    (src_words : list string) (lemmas senses : list Batch.span)
  : result (list string * list Batch.span * list Batch.span) :=
  match fuel with
  | O => OutOfFuel
  | S fuel' =>
      if negb (i <? src_len)%nat then Ok (src_words, lemmas, senses)
      else
        let lemma_start := i in
        (w <- list_getitem src_words (Z.of_nat i) ;;
         r <- (if endswith w "@@"
               then
                 r <- join_lemma (S src_len) src_words src_len i
                        (rstrip is_at w) ;;
                 w' <- list_getitem src_words (Z.of_nat (fst r)) ;;
                 Ok (fst r, snd r +:+ w')
               else Ok (i, w)) ;;
         let i := fst r in
         let lemma := snd r in
         let lemma_end := S i in
         if bool_decide (is_Some (freq self !! lemma))
            && bool_decide (is_Some (dict self !! lemma))
         then
           f <- dict_getitem (freq self) lemma ;;
           if f <=? freq_limit self then
             let sense_start := length src_words in
             d <- dict_getitem (dict self) lemma ;;
             let sense := slice_to d (max_senses self) in
             let sense_end := (sense_start + length sense)%nat in
             let lemmas := lemmas ++ [(lemma_start, lemma_end)] in
             let senses := senses ++ [(sense_start, sense_end)] in
             if Z.of_nat (length src_words + length sense) >? max_length self
             then Ok (src_words, drop_last lemmas, drop_last senses)
             else scan fuel' self src_len (S i) (src_words ++ sense)
                       lemmas senses
           else scan fuel' self src_len (S i) src_words lemmas senses
         else scan fuel' self src_len (S i) src_words lemmas senses)%res
  end.

(** Lines 245-283 for one line: [None] when the line is skipped. *)
Definition read_line (self : t) (line : string) : result (option example) :=
  match split_on tab line with
  | [src_line; tgt_line] =>
      if String.eqb src_line "" || String.eqb tgt_line "" then Ok None
      else
        let src_words := ["<BOS>"] ++ split_ws src_line ++ ["<EOS>"] in
        let tgt_words := ["<BOS>"] ++ split_ws tgt_line ++ ["<EOS>"] in
        if Z.of_nat (length src_words) >? max_length self then Ok None
        else if Z.of_nat (length tgt_words) >? max_length self then Ok None
        else
          (r <- scan (S (length src_words)) self (length src_words) 0
                     src_words [] [] ;;
           Ok (Some (mk_example (fst (fst r)) tgt_words
                                (snd (fst r)) (snd r))))%res
  | _ => Raise ValueError
  end.

(** The loop over the lines of the data file (line 244). *)
Fixpoint read_lines (self : t) (data_file : list string)
    (unbatched : list example) : result (list example) :=
  match data_file with
  | [] => Ok unbatched
  | line :: rest =>
      (r <- read_line self line ;;
       read_lines self rest
         (match r with Some e => unbatched ++ [e] | None => unbatched end))%res
  end.

(** Lines 292-300: [while True] sizing one bucket.  Returns [batch_size],
    the slice and its maximal lengths.  Unpacking [zip] of an empty slice
    into four names is a [ValueError]. *)
Fixpoint measure (fuel : nat) (self : t) (unbatched : list example)
    (i : Z) (src_len tgt_len : nat)
  : result (Z * list example * nat * nat) :=
  match fuel with
  | O => OutOfFuel
  | S fuel' =>
      let d := Z.of_nat (Nat.max src_len tgt_len) * 8 in
      if d =? 0 then Raise ZeroDivisionError
      else
        let batch_size := batch_size self / d * 8 in
        let chunk := py_slice unbatched i (i + batch_size) in
        match chunk with
        | [] => Raise ValueError
        | _ =>
            let max_src_len :=
              list_max (map (fun x => length (src_words x)) chunk) in
            let max_tgt_len :=
              list_max (map (fun x => length (tgt_words x)) chunk) in
            if (max_src_len <=? src_len)%nat && (max_tgt_len <=? tgt_len)%nat
            then Ok (batch_size, chunk, max_src_len, max_tgt_len)
            else measure fuel' self unbatched i max_src_len max_tgt_len
        end
  end.

(** One padded row: [pad(numberize(words), (0, width - len(words)),
    value=PAD)]. *)
Definition padded_row (width : nat) (words : list string) : M t (list Z) :=
  nums <~ on_vocab (Vocab.numberize words) ;;
  pad <~ on_vocab Vocab.PAD ;;
  mlift (pad_right nums (Z.of_nat width - Z.of_nat (length words)) pad).

(** Lines 302-313: the batch made of one bucket. *)
Definition make_batch (chunk : list example) (max_src_len max_tgt_len : nat)
  : M t Batch.t :=
  let max_src_len := ceil8 max_src_len in
  let max_tgt_len := ceil8 max_tgt_len in
  src_rows <~ mmap (fun x => padded_row max_src_len (src_words x)) chunk ;;
  src_nums <~ mlift (stack src_rows) ;;
  tgt_rows <~ mmap (fun x => padded_row max_tgt_len (tgt_words x)) chunk ;;
  tgt_nums <~ mlift (stack tgt_rows) ;;
  limit <~ (fun self =>
              match Vocab.size_decoding (vocab self) with
              | Some n => Ok (n, self)
              | None => Raise TypeError
              end) ;;
  unk <~ on_vocab Vocab.UNK ;;
  let tgt_nums :=
    map (map (fun x => if limit <=? x then unk else x)) tgt_nums in
  pad <~ on_vocab Vocab.PAD ;;
  mret (Batch.mk src_nums tgt_nums
          (Batch.DictZip (map (fun x => (lemmas x, senses x)) chunk))
          (Some pad)).

(** Lines 287-313: the loop over buckets.  [i] and [batch_size] are the
    values before the increment in the loop test. *)
Fixpoint buckets (fuel : nat) (unbatched : list example) (i batch_size : Z)
    (batched : list Batch.t) : M t (list Batch.t) :=
  match fuel with
  | O => fun _ => OutOfFuel
  | S fuel' =>
      let i := i + batch_size in
      if negb (i <? Z.of_nat (length unbatched)) then mret batched
      else
        first <~ mlift (list_getitem unbatched i) ;;
        r <~ (fun self =>
                mlift (measure (S (length unbatched)) self unbatched i
                         (length (src_words first))
                         (length (tgt_words first))) self) ;;
        let '(batch_size, chunk, max_src_len, max_tgt_len) := r in
        b <~ make_batch chunk max_src_len max_tgt_len ;;
        buckets fuel' unbatched i batch_size (batched ++ [b])
  end.

Definition batch_data (data_file : list string) : M t (list Batch.t) :=
  unbatched <~ (fun self => mlift (read_lines self data_file []) self) ;;
  let unbatched := sort_desc sort_key unbatched in
  buckets (S (length unbatched)) unbatched 0 0 [].

End Manager.

(** ** decoder.py *)

Definition Qlt_bool (x y : Q) : bool := negb (Qle_bool y x).

(** [x.argmax()]: index of the first maximum; [IndexError] on an empty
    tensor. *)
Fixpoint argmax_from (best : Q) (best_i i : nat) (x : list Q) : nat :=
  match x with
  | [] => best_i
  | y :: x' => if Qlt_bool best y then argmax_from y i (S i) x'
               else argmax_from best best_i (S i) x'
  end.

Definition argmax (x : list Q) : result nat :=
  match x with
  | [] => Raise IndexError
  | y :: x' => Ok (argmax_from y 0 1 x')
  end.

(** [x.max()] *)
Definition max_Q (x : list Q) : result Q :=
  match x with
  | [] => Raise RuntimeError
  | y :: x' => Ok (foldl (fun m z => if Qlt_bool m z then z else m) y x')
  end.

(** *** Scores in float32

    The scores of [beam_search] are float32 tensors: [torch.zeros] creates
    float32, and sums and quotients with it stay float32.  A finite
    float32 is a rational; an operation returns the exact result rounded
    to the nearest float32, ties to the even significand.  The embedding
    has no infinities and no NaN: [f32_round] is the float32 result
    whenever that is finite. *)

(** [n / d / 2 ^ u] as a fraction of integers. *)
Definition f32_scaled (n d u : Z) : Z * Z :=
  if 0 <=? u then (n, d * 2 ^ u) else (n * 2 ^ (- u), d).

(** Rounding to a significand of 24 bits; below [2 ^ -126] the spacing
    stays [2 ^ -149] (subnormal numbers). *)
Definition f32_round (q : Q) : Q :=
  let n := Z.abs (Qnum q) in
  let d := Z.pos (Qden q) in
  if n =? 0 then 0%Q
  else
    let e0 := Z.log2 n - Z.log2 d in
    let e := if snd (f32_scaled n d e0) <=? fst (f32_scaled n d e0)
             then e0 else e0 - 1 in
    let u := Z.max (e - 23) (-149) in
    let N := fst (f32_scaled n d u) in
    let D := snd (f32_scaled n d u) in
    let fl := N / D in
    let r := N mod D in
    let m := if 2 * r <? D then fl
             else if D <? 2 * r then fl + 1
             else if Z.even fl then fl else fl + 1 in
    let s := if Qnum q <? 0 then - m else m in
    Qred (if 0 <=? u then inject_Z (s * 2 ^ u)
          else Qmake s (Z.to_pos (2 ^ (- u)))).

(** [x + y] and [x / i] on float32 operands, the quotient as the CPU
    kernels compute it; [i] is a step number, never zero. *)
Definition f32_add (x y : Q) : Q := f32_round (x + y).
Definition f32_div (x : Q) (i : nat) : Q :=
  f32_round (x / inject_Z (Z.of_nat i)).

(** Descending stable insertion on (value, index) pairs. *)
Fixpoint insert_score (p : Q * nat) (l : list (Q * nat)) : list (Q * nat) :=
  match l with
  | [] => [p]
  | q :: l' => if Qlt_bool (fst p) (fst q) then q :: insert_score p l'
               else p :: l
  end.

(** [torch.topk(x, k)] returns the [k] largest values in descending order
    with their indices and raises when [k] exceeds the number of elements.
    Which of several equal values it selects, and in which order it
    returns them, is not fixed by the library, so the searches below take
    the function as given; [topk_admissible] is what it guarantees: the
    result is the first [k] entries of some descending arrangement of the
    (value, index) pairs. *)
Definition topk_admissible
    (topk : list Q -> nat -> result (list Q * list nat)) : Prop :=
  forall x k,
    if (length x <? k)%nat then topk x k = Raise RuntimeError
    else exists sorted,
        sorted ≡ₚ imap (fun i v => (v, i)) x /\
        StronglySorted (fun p q : Q * nat => (fst q <= fst p)%Q) sorted /\
        topk x k = Ok (map fst (take k sorted), map snd (take k sorted)).

(** The admissible choice that returns equal values in index order. *)
Definition topk_by_index (x : list Q) (k : nat)
  : result (list Q * list nat) :=
  if (length x <? k)%nat then Raise RuntimeError
  else
    let sorted := foldr insert_score [] (imap (fun i v => (v, i)) x) in
    Ok (map fst (take k sorted), map snd (take k sorted)).

(** [rows[idx]] for a list of row indices. *)
Fixpoint gather {A} (rows : list A) (idx : list nat) : result (list A) :=
  match idx with
  | [] => Ok []
  | j :: idx' =>
      match rows !! j with
      | Some r => (rs <- gather rows idx' ;; Ok (r :: rs))%res
      | None => Raise IndexError
      end
  end.

Section Decoder.

(** The scoring interface for the source sentence of the call:
    [model.decode] on the target prefixes, [model.out_embed(..,
    inverse=True)] on the last position and [log_softmax]; one row of
    log-probabilities per prefix. *)
Variable log_probs : list (list Z) -> list (list Q).

(** The arithmetic of the score tensors: [fadd x y] for [x + y] and
    [fdiv x i] for [x / i].  Both round, and the quotient by a Python
    number need not round the same way on every device, so the searches
    take the two operations as given; [f32_add] and [f32_div] are the
    float32 operations.  [topk] is [torch.topk]. *)
Variable fadd : Q -> Q -> Q.
Variable fdiv : Q -> nat -> Q.
Variable topk : list Q -> nat -> result (list Q * list nat).

(** Lines 17-22: the loop body for the steps [i] still to do. *)
Fixpoint greedy_steps (steps : list nat) (path : list Z)
  : M Vocab.t (list Z) :=
  match steps with
  | [] => mret path
  | i :: steps' =>
      tok <~ mlift (match log_probs [take i path] with
                    | [row] => argmax row
                    | _ => Raise RuntimeError
                    end) ;;
      let path := <[i := Z.of_nat tok]> path in
      eos <~ Vocab.EOS ;;
      if Z.of_nat tok =? eos then mret path
      else greedy_steps steps' path
  end.

Definition greedy_search (max_length : nat) : M Vocab.t (list Z) :=
  bos <~ Vocab.BOS ;;
  greedy_steps (seq 1 (max_length - 1)) (replicate max_length bos).

(** [p.unsqueeze(1) + rows]: the accumulated score of each path is added
    to its row; a single score or a single row is broadcast. *)
Definition add_scores (p : list Q) (rows : list (list Q))
  : result (list (list Q)) :=
  if (length p =? length rows)%nat
  then Ok (zip_with (fun s row => map (fadd s) row) p rows)
  else match p, rows with
       | [s], _ => Ok (map (map (fadd s)) rows)
       | _, [row] => Ok (map (fun s => map (fadd s) row) p)
       | _, _ => Raise RuntimeError
       end.

Record beam : Type := mk_beam {
  active : list bool;
  paths : list (list Z);
  probs : list Q;
  beam_size : nat;
}.

(** Line 43: [active[~active] |= probs[~active] < threshold]. *)
Definition reactivate (threshold : Q) (active : list bool) (probs : list Q)
  : list bool :=
  zip_with (fun a p => if negb a then a || Qlt_bool p threshold else a)
           active probs.

(** Lines 41-47: top-k selection and dynamic widening at step [i]. *)
Definition widen (init_size i : nat) (flat : list Q) (st : beam)
  : result (beam * list Q * list nat) :=
  (top <- topk flat (beam_size st) ;;
   if (beam_size st <? init_size)%nat then
     m <- max_Q (fst top) ;;
     let active' :=
       reactivate (fdiv m i) (active st) (probs st) in
     let active_count := count_true active' in
     let st' := mk_beam active' (paths st) (probs st) (beam_size st) in
     if (beam_size st <? active_count)%nat then
       top' <- topk flat active_count ;;
       Ok (mk_beam active' (paths st) (probs st) active_count,
           fst top', snd top')
     else Ok (st', fst top, snd top)
   else Ok (st, fst top, snd top))%res.

(** Lines 35-39: the candidate scores of step [i], flattened over
    (active path, token); at the first step only the first row is kept. *)
Definition candidate_scores (i : nat) (st : beam) : result (list Q) :=
  let rows := log_probs (map (take i) (select (active st) (paths st))) in
  (scores <- add_scores (select (active st) (probs st)) rows ;;
   if (i =? 1)%nat
   then match scores with
        | row :: _ => Ok row
        | [] => Raise IndexError
        end
   else Ok (concat scores))%res.

(** Lines 35-55: one iteration of the beam-search loop. *)
Definition beam_step (init_size i : nat) (st : beam) : M Vocab.t beam :=
  flat <~ mlift (candidate_scores i st) ;;
  w <~ mlift (widen init_size i flat st) ;;
  let '(st, topv, topi) := w in
  V <~ (fun v => Ok (Z.to_nat (Vocab.size v), v)) ;;
  parents <~ mlift (if (V =? 0)%nat then Raise RuntimeError
                    else gather (select (active st) (paths st))
                                (map (fun k => k / V)%nat topi)) ;;
  paths1 <~ mlift (assign (active st) (paths st) parents) ;;
  toks <~ mlift (if (V =? 0)%nat then Raise RuntimeError
                 else Ok (map (fun k => Z.of_nat (k mod V)) topi)) ;;
  paths2 <~ mlift (if (length toks =? count_true (active st))%nat
                   then assign (active st) paths1
                          (zip_with (fun row tok => <[i := tok]> row)
                             (select (active st) paths1) toks)
                   else Raise RuntimeError) ;;
  probs1 <~ mlift (assign (active st) (probs st) topv) ;;
  eos <~ Vocab.EOS ;;
  let terminated :=
    map (fun row => match row !! i with
                    | Some tok => tok =? eos
                    | None => false
                    end) paths2 in
  let probs2 :=
    zip_with (fun (t : bool) p =>
                if t then fdiv p i else p)
             terminated probs1 in
  let active2 := zip_with (fun a (t : bool) => a && negb t)
                          (active st) terminated in
  mret (mk_beam active2 paths2 probs2 (count_true active2)).

(** Line 34: [while (i := i + 1) < max_length and beam_size > 0];
    [steps] is the number of values of [i] left below [max_length]. *)
Fixpoint beam_loop (init_size steps i : nat) (st : beam) : M Vocab.t beam :=
  match steps with
  | O => mret st
  | S steps' =>
      if (beam_size st =? 0)%nat then mret st
      else st' <~ beam_step init_size i st ;;
           beam_loop init_size steps' (S i) st'
  end.

(** Lines 29-31: all slots active, every path filled with [<BOS>], all
    scores zero. *)
Definition init_beam (bos : Z) (beam_size max_length : nat) : beam :=
  mk_beam (replicate beam_size true)
          (replicate beam_size (replicate max_length bos))
          (replicate beam_size 0%Q) beam_size.

Definition beam_search (beam_size max_length : nat) : M Vocab.t (list Z) :=
  bos <~ Vocab.BOS ;;
  let st := init_beam bos beam_size max_length in
  st' <~ beam_loop beam_size (max_length - 1) 1 st ;;
  best <~ mlift (argmax (probs st')) ;;
  mlift (match paths st' !! best with
         | Some p => Ok p
         | None => Raise IndexError
         end).

End Decoder.

(** ** Vocabularies and inputs used in the examples *)

Definition nl : string := String newline "".
Definition tb : string := String tab "".

(** The vocabulary [{<PAD>:0, <BOS>:1, <EOS>:2, a:3, b:4}], built by
    [add]. *)
Definition vocab5 : Vocab.t :=
  Vocab.mk ["<PAD>"; "<BOS>"; "<EOS>"; "a"; "b"]
           (<["<PAD>" := 0]> (<["<BOS>" := 1]> (<["<EOS>" := 2]>
             (<["a" := 3]> (<["b" := 4]> ∅)))))
           None.

(** The two maps of a vocabulary agree: every id of the token map is a
    position of the token list holding that token. *)
Definition consistent (v : Vocab.t) : Prop :=
  forall w n, Vocab.word_to_num v !! w = Some n ->
    0 <= n /\ Vocab.num_to_word v !! Z.to_nat n = Some w.

(** The word has an id. *)
Definition known (v : Vocab.t) (w : string) : Prop :=
  is_Some (Vocab.word_to_num v !! w).

(** A scoring function whose row depends on the length of the prefix only:
    [first] at step 1, [second] at step 2, [later] from then on. *)
Definition stepwise_scores (first second later : list Q)
    (prefixes : list (list Z)) : list (list Q) :=
  map (fun p => match length p with
                | 1%nat => first
                | 2%nat => second
                | _ => later
                end) prefixes.

(** Log-probability row over the five tokens of [vocab5] that puts all
    the weight on token [k]. *)
Definition favour (k : nat) : list Q :=
  map (fun j => if (j =? k)%nat then 0%Q else (-8)%Q) (seq 0 5).

(** "Always predicts [a], then [b], then [<EOS>]". *)
Definition a_b_eos : list (list Z) -> list (list Q) :=
  stepwise_scores (favour 3) (favour 4) (favour 2).

(** Two scoring functions for a beam of two.  With [eos_second] the first
    step selects [a] (score -1) and [<EOS>] (score -4), with [eos_first] it
    selects [<EOS>] (score -1) and [a] (score -2); the second step favours
    [b] at -1. *)
Definition eos_second : list (list Z) -> list (list Q) :=
  stepwise_scores [-8; -8; -4; -1; -8]%Q [-8; -8; -8; -8; -1]%Q (favour 2).
Definition eos_first : list (list Z) -> list (list Q) :=
  stepwise_scores [-8; -8; -1; -2; -8]%Q [-8; -8; -8; -8; -1]%Q (favour 2).

(** The beam after the first step under [eos_second]: slot 1 has emitted
    [<EOS>] and is inactive with stored score -4. *)
Definition beam_eos_second : beam :=
  mk_beam [true; false]
          [[1; 3; 1; 1; 1; 1]; [1; 2; 1; 1; 1; 1]]
          [-1; -4]%Q 1.

(** The beam after the first step under [eos_first]: slot 0 has emitted
    [<EOS>] and is inactive with stored score -1. *)
Definition beam_eos_first : beam :=
  mk_beam [false; true]
          [[1; 2; 1; 1; 1; 1]; [1; 3; 1; 1; 1; 1]]
          [-1; -2]%Q 1.

(** A scoring function whose row depends on the step: row [i - 1] of
    [rows] for a prefix of length [i], [later] beyond the listed steps. *)
Definition scores_by_step (rows : list (list Q)) (later : list Q)
    (prefixes : list (list Z)) : list (list Q) :=
  map (fun p => default later (rows !! (length p - 1)%nat)) prefixes.

(** With [eos_third] both slots of a beam of two continue the first path
    at step 3, slot 0 with [<EOS>] at total score -1 and slot 1 with [a] at
    -3/2; slot 1 then goes on with [a], reaching -3/2, -7/4 and -2. *)
Definition eos_third : list (list Z) -> list (list Q) :=
  scores_by_step
    [[-8; -8; -8; -1 # 2; -3];
     [-8; -8; -8; -1 # 4; -8];
     [-8; -8; -1 # 4; -3 # 4; -8];
     [-8; -8; -8; 0; -8]]%Q
    [-8; -8; -8; -1 # 4; -8]%Q.

(** The beam after five steps under [eos_third] in float32: slot 0 ended
    at step 3 and stores the float32 nearest to -1/3. *)
Definition beam_eos_third : beam :=
  mk_beam [false; true]
          [[1; 3; 3; 2; 1; 1; 1; 1]; [1; 3; 3; 3; 3; 3; 1; 1]]
          [-11184811 # 33554432; -7 # 4]%Q 1.

(** The scoring function predicts token [tok] after [prefix]. *)
Definition predicts (log_probs : list (list Z) -> list (list Q))
    (prefix : list Z) (tok : nat) : Prop :=
  exists row, log_probs [prefix] = [row] /\ argmax row = Ok tok.

(** [denumberize] of [numberize] of the words, with the given [verbatim]
    flag; both calls take their sequence unpacked into positional
    arguments, as every call in the repository does. *)
Definition roundtrip (verbatim : bool) (words : list string)
  : M Vocab.t (list string) :=
  nums <~ Vocab.numberize words ;; Vocab.denumberize nums verbatim.

(** A vocabulary file whose id range [#0:7] has 7 entries. *)
Definition vocab_file_7 : list string :=
  ["#0:7" +:+ nl; "a 3" +:+ nl; "b 1" +:+ nl].

(** Entry [layer, i, r, c] of a dictionary mask. *)
Definition entry (m : Batch.mask4) (layer i r c : nat) : option Z :=
  lay ← m !! layer; mat ← lay !! i; row ← mat !! r; row !! c.

(** The integer fits a 64-bit tensor element. *)
Definition in_int64 (z : Z) : Prop := - 2 ^ 63 <= z < 2 ^ 63.

(** A small manager: a vocabulary loaded from a file, a dictionary with
    senses for [cat], frequencies that make [cat] rare and [the] common. *)
Definition demo_vocab_file : list string :=
  ["#0:12" +:+ nl; "<UNK> 1" +:+ nl; "<BOS> 1" +:+ nl; "<EOS> 1" +:+ nl;
   "<PAD> 1" +:+ nl; "the 5" +:+ nl; "cat 3" +:+ nl; "ca@@ 2" +:+ nl;
   "t 2" +:+ nl; "feline 1" +:+ nl; "animal 1" +:+ nl].

Definition demo_vocab : Vocab.t :=
  match Vocab.init (Some demo_vocab_file) with
  | Ok v => v
  | _ => Vocab.empty
  end.

Definition demo_manager : Manager.t :=
  Manager.mk demo_vocab
    (<["cat" := ["feline"; "animal"; "pet"]]> ∅)
    (<["cat" := 3]> (<["the" := 100]> ∅))
    20 4096 10 2.

Definition demo_data : list string :=
  ["the ca@@ t" +:+ tb +:+ "the cat" +:+ nl;
   "the cat cat the" +:+ tb +:+ "cat" +:+ nl;
   tb +:+ "x" +:+ nl].

(** The first batch built from the demo data. *)
Definition demo_batch : Batch.t :=
  match Manager.batch_data demo_data demo_manager with
  | Ok (b :: _, _) => b
  | _ => Batch.mk [] [] (Batch.DictZip []) None
  end.

(** The accepted examples of the demo data, longest first: the single
    bucket the demo batch is built from. *)
Definition demo_chunk : list Manager.example :=
  match Manager.read_lines demo_manager demo_data [] with
  | Ok unbatched => sort_desc Manager.sort_key unbatched
  | _ => []
  end.

(** The line contains a tab character. *)
Definition has_tab (line : string) : bool :=
  existsb (Ascii.eqb tab) (list_ascii_of_string line).

(** The first [src_len] words are in place and the last of them does not
    carry the continuation marker (it is [<EOS>]). *)
Definition closed (words : list string) (src_len : nat) : Prop :=
  (0 < src_len <= length words)%nat /\
  exists w, words !! (src_len - 1)%nat = Some w /\ endswith w "@@" = false.

(** Spans that follow one another from position [a] to position [b]. *)
Fixpoint chain (a : nat) (spans : list (nat * nat)) (b : nat) : Prop :=
  match spans with
  | [] => a = b
  | s :: spans' => fst s = a /\ (a <= snd s)%nat /\ chain (snd s) spans' b
  end.

(** ** Auxiliary notions for the proofs *)

(** The spans recorded for an example: as many lemma spans as sense
    spans, and the sense spans follow one another from the end of the
    sentence to the end of the extended source sequence. *)
Definition example_ok (e : Manager.example) : Prop :=
  length (Manager.lemmas e) = length (Manager.senses e) /\
  exists n0, (1 <= n0)%nat /\
             chain n0 (Manager.senses e) (length (Manager.src_words e)).

(** The effect of the assignments for a list of pairs, in order, on one
    entry. *)
Definition fold_pairs (f : Batch.span * Batch.span -> nat -> nat -> Z -> Z)
    (ps : list (Batch.span * Batch.span)) (r c : nat) (y : Z) : Z :=
  foldl (fun y p => f p r c y) y ps.

(** The span data a batch still holds. *)
Definition recorded (b : Batch.t) : list Batch.item :=
  fst (Batch.iterate (Batch._dict_data b)).

(** The call returned or raised: the fuel of the model was enough. *)
Definition finished {A} (r : result A) : Prop := r <> OutOfFuel.

(** The spans of one example fit a source length [Ls]. *)
Definition item_ok (Ls : nat) (it : Batch.item) : Prop :=
  length (fst it) = length (snd it) /\
  exists n0 n1, (1 <= n0)%nat /\ chain n0 (snd it) n1 /\ (n1 <= Ls)%nat.

(** What [batch_data] guarantees about a batch it builds: rows of one
    length, one span item per row held in a [zip] object, spans that fit,
    and a non-zero [ignore_index]. *)
Definition batch_ok (b : Batch.t) : Prop :=
  Forall (fun row => length row = ncols (Batch.src_nums b))
         (Batch.src_nums b) /\
  (exists items,
     Batch._dict_data b = Batch.DictZip items /\
     length items = length (Batch.src_nums b) /\
     Forall (item_ok (ncols (Batch.src_nums b))) items) /\
  exists pad, Batch.ignore_index b = Some pad /\ pad <> 0.

(** A batch after its spans have been read. *)
Definition exhausted (b : Batch.t) : Batch.t :=
  Batch.mk (Batch._src_nums b) (Batch._tgt_nums b) (Batch.DictZip [])
           (Batch.ignore_index b).

(** Id 0 of a vocabulary, if taken, belongs to the first synthetic token
    of the file loader. *)
Definition zero_is_pad0 (v : Vocab.t) : Prop :=
  0 < Vocab.size v /\
  forall w, Vocab.word_to_num v !! w = Some 0 -> w = "<PAD 0>".

(** The ids of known words. *)
Definition ids_of (v : Vocab.t) (words : list string) : list Z :=
  map (fun w => default 0 (Vocab.word_to_num v !! w)) words.

(** The mask has a matrix for example [i] in layer [layer]. *)
Definition has_mat (m : Batch.mask4) (layer i : nat) : Prop :=
  is_Some (lay ← m !! layer; lay !! i).

(** What the four assignments for one pair do to an entry of layer 0 and
    of layer 1 of the example they address. *)
Definition pair0 (Ls : nat) (p : Batch.span * Batch.span) (r c : nat) (y : Z)
  : Z :=
  if Batch.in_span r (fst p) && Batch.in_span c (snd p) then 0
  else if Batch.in_span r (0, Ls)%nat && Batch.in_span c (snd p) then 1
       else y.

Definition pair1 (Ls : nat) (p : Batch.span * Batch.span) (r c : nat) (y : Z)
  : Z :=
  if Batch.in_span r (snd p) && Batch.in_span c (snd p) then 0
  else if Batch.in_span r (snd p) && Batch.in_span c (0, Ls)%nat then 1
       else y.

(** ** Notions for the further properties *)

(** The words at a sense span are the senses of some lemma that the
    dictionary and the frequency table hold and that is rare enough, cut
    to [max_senses]. *)
Definition sense_from_dict (self : Manager.t) (words : list string)
    (cd : nat * nat) : Prop :=
  exists lemma d f,
    Manager.dict self !! lemma = Some d /\
    Manager.freq self !! lemma = Some f /\
    f <= Manager.freq_limit self /\
    slice words (fst cd) (snd cd) = slice_to d (Manager.max_senses self).

(** What the scan for lemmas maintains: the sentence [orig] stays in front,
    the sequence stays within [max_length], lemma spans lie in the
    sentence, sense spans follow one another behind it and hold dictionary
    senses. *)
Definition scan_state_ok (self : Manager.t) (orig : list string)
    (words : list string) (lemmas senses : list (nat * nat)) : Prop :=
  take (length orig) words = orig /\
  Z.of_nat (length words) <= Manager.max_length self /\
  Forall (fun ab => (fst ab < snd ab <= length orig)%nat) lemmas /\
  chain (length orig) senses (length words) /\
  Forall (sense_from_dict self words) senses.

(** The batch [make_batch] builds from a run of examples, sized by the
    longest source and the longest target of the run. *)
Definition built_from (self : Manager.t) (chunk : list Manager.example)
    (b : Batch.t) : Prop :=
  Manager.make_batch chunk
    (list_max (map (fun x => length (Manager.src_words x)) chunk))
    (list_max (map (fun x => length (Manager.tgt_words x)) chunk))
    self = Ok (b, self).

(** The token budget of a run: its number of examples times the length of
    any of its (unpadded) sequences stays within [batch_size]. *)
Definition within_budget (self : Manager.t) (chunk : list Manager.example)
  : Prop :=
  forall e, e ∈ chunk ->
    Z.of_nat (length chunk) *
    Z.of_nat (Nat.max (length (Manager.src_words e))
                      (length (Manager.tgt_words e)))
    <= Manager.batch_size self.

(* ===================================================================== *)
(** * Part II: properties                                                  *)
(* ===================================================================== *)

(** ** The monad *)

Lemma mbind_ok {S A B} (m : M S A) (k : A -> M S B) s a s' :
  m s = Ok (a, s') -> mbind m k s = k a s'.
Proof. intros H. unfold mbind. rewrite H. reflexivity. Qed.

Lemma mbind_raise {S A B} (m : M S A) (k : A -> M S B) s e :
  m s = Raise e -> mbind m k s = Raise e.
Proof. intros H. unfold mbind. rewrite H. reflexivity. Qed.

Lemma mbind_inv {S A B} (m : M S A) (k : A -> M S B) s r :
  mbind m k s = Ok r -> exists a s', m s = Ok (a, s') /\ k a s' = Ok r.
Proof.
  unfold mbind. destruct (m s) as [[a s']| |]; [|discriminate..].
  intros H. eauto.
Qed.

Lemma mlift_inv {S A} (r : result A) (s : S) x :
  mlift r s = Ok x -> r = Ok (fst x) /\ snd x = s.
Proof.
  unfold mlift. destruct r; [|discriminate..]. intros [= <-]. auto.
Qed.

Lemma rbind_inv {A B} (r : result A) (k : A -> result B) b :
  rbind r k = Ok b -> exists a, r = Ok a /\ k a = Ok b.
Proof. destruct r; [|discriminate..]. simpl. eauto. Qed.

Lemma mmap_cons {S A B} (f : A -> M S B) x l :
  mmap f (x :: l) = mbind (f x) (fun y => mbind (mmap f l)
                                  (fun ys => mret (y :: ys))).
Proof. reflexivity. Qed.

(** ** Vocab *)

Lemma control_token_spec tok v :
  Vocab.control_token tok v =
  match Vocab.word_to_num v !! tok with
  | Some n => Ok (n, v)
  | None => Raise KeyError
  end.
Proof.
  unfold Vocab.control_token, dict_getitem.
  destruct (Vocab.word_to_num v !! tok); reflexivity.
Qed.

(** Once a control token has an id, reading its property returns that id
    and leaves the vocabulary as it is. *)
Lemma control_token_present tok v n :
  Vocab.word_to_num v !! tok = Some n ->
  Vocab.control_token tok v = Ok (n, v).
Proof. intros H. rewrite control_token_spec, H. reflexivity. Qed.

Lemma control_token_absent tok v :
  Vocab.word_to_num v !! tok = None ->
  Vocab.control_token tok v = Raise KeyError.
Proof. intros H. rewrite control_token_spec, H. reflexivity. Qed.

(** C4: reading [UNK], [BOS], [EOS] or [PAD] on a vocabulary that lacks the
    token does not insert it: the lookup raises [KeyError], which the
    handler for [ValueError] does not catch.  Shown on the empty
    vocabulary [Vocab()]. *)
Theorem C4_control_token_read_raises :
  Vocab.UNK Vocab.empty = Raise KeyError /\
  Vocab.BOS Vocab.empty = Raise KeyError /\
  Vocab.EOS Vocab.empty = Raise KeyError /\
  Vocab.PAD Vocab.empty = Raise KeyError.
Proof. repeat split; apply control_token_absent; apply lookup_empty. Qed.

Lemma add_spec word v :
  Vocab.add word v =
  Ok (tt, Vocab.mk (Vocab.num_to_word v ++ [word])
                   (<[word := Vocab.size v]> (Vocab.word_to_num v))
                   (Vocab._decoding_size v)).
Proof. reflexivity. Qed.

Lemma add_consistent word v u v' :
  consistent v -> Vocab.add word v = Ok (u, v') -> consistent v'.
Proof.
  intros Hc Hadd. rewrite add_spec in Hadd. injection Hadd as _ <-.
  intros w n; simpl. unfold Vocab.size.
  destruct (decide (word = w)) as [->|Hne].
  - rewrite lookup_insert_eq. intros [= <-]. split; [lia|].
    rewrite Nat2Z.id. rewrite lookup_app_r by lia.
    rewrite Nat.sub_diag. reflexivity.
  - rewrite lookup_insert_ne by done. intros Hw.
    destruct (Hc w n Hw) as [Hn Hl]. split; [done|].
    rewrite lookup_app_l; [done|]. eapply lookup_lt_Some; eauto.
Qed.

Lemma empty_consistent : consistent Vocab.empty.
Proof. intros w n; simpl. rewrite lookup_empty. discriminate. Qed.

Lemma vocab5_consistent : consistent vocab5.
Proof.
  intros w n; unfold vocab5; simpl.
  repeat (rewrite lookup_insert; case_decide; [intros [= <-]; subst; split; [lia|reflexivity]|]).
  rewrite lookup_empty. discriminate.
Qed.

(** A consistent vocabulary gives distinct ids to distinct tokens. *)
Lemma consistent_inj v w1 w2 n :
  consistent v ->
  Vocab.word_to_num v !! w1 = Some n -> Vocab.word_to_num v !! w2 = Some n ->
  w1 = w2.
Proof.
  intros Hc H1 H2. destruct (Hc _ _ H1) as [_ E1].
  destruct (Hc _ _ H2) as [_ E2]. congruence.
Qed.

Lemma numberize_known v words :
  Forall (known v) words ->
  Vocab.numberize words v = Ok (ids_of v words, v).
Proof.
  induction 1 as [|w ws [n Hn] _ IH]; [reflexivity|].
  unfold Vocab.numberize in *. rewrite mmap_cons.
  erewrite mbind_ok;
    [|unfold Vocab.numberize_word, mtry, dict_getitem; rewrite Hn; reflexivity].
  erewrite mbind_ok by exact IH.
  unfold mret, ids_of. simpl. rewrite Hn. reflexivity.
Qed.

Lemma list_getitem_nat {A} (l : list A) (n : nat) x :
  l !! n = Some x -> list_getitem l (Z.of_nat n) = Ok x.
Proof.
  intros H. unfold list_getitem. pose proof (lookup_lt_Some _ _ _ H).
  destruct (Z.ltb_spec (Z.of_nat n) 0); [lia|].
  destruct (Z.ltb_spec (Z.of_nat n) 0); [lia|].
  destruct (Z.leb_spec (Z.of_nat (length l)) (Z.of_nat n)); [lia|].
  simpl. rewrite Nat2Z.id, H. reflexivity.
Qed.

Lemma denumber_ids v words :
  consistent v -> Forall (known v) words ->
  mmap (S:=unit)
    (fun n => mlift (list_getitem (Vocab.num_to_word v) n))
    (ids_of v words) tt = Ok (words, tt).
Proof.
  intros Hc. induction 1 as [|w ws [n Hn] _ IH]; [reflexivity|].
  unfold ids_of. rewrite map_cons, mmap_cons. fold (ids_of v ws).
  destruct (Hc _ _ Hn) as [Hpos Hl].
  erewrite mbind_ok.
  2:{ rewrite Hn. simpl. rewrite <- (Z2Nat.id n) by done.
      rewrite (list_getitem_nat _ _ _ Hl). reflexivity. }
  erewrite mbind_ok by exact IH. reflexivity.
Qed.

Lemma list_index_absent x l : x ∉ l -> list_index x l = Raise ValueError.
Proof.
  induction l as [|y l IH]; [reflexivity|].
  intros Hx. simpl. destruct (Z.eqb_spec y x) as [->|_].
  - exfalso. apply Hx. left.
  - rewrite IH; [reflexivity|]. intros ?. apply Hx. by right.
Qed.

Lemma id_not_in v words tok n :
  consistent v -> Forall (known v) words ->
  Vocab.word_to_num v !! tok = Some n -> tok ∉ words ->
  n ∉ ids_of v words.
Proof.
  intros Hc Hk Hn Hnot Hin. unfold ids_of in Hin.
  apply list_elem_of_fmap in Hin as (w & Heq & Hw).
  rewrite Forall_forall in Hk. destruct (Hk w) as [k Hk'].
  { done. }
  rewrite Hk' in Heq; simpl in Heq; subst k.
  assert (tok = w) by (eapply consistent_inj; eauto). subst. done.
Qed.

Lemma slice_all {A} (l : list A) : slice l 0 (length l) = l.
Proof. unfold slice. rewrite firstn_all. reflexivity. Qed.

Lemma denumberize_default v nums :
  known v "<BOS>" -> known v "<EOS>" ->
  (forall n, Vocab.word_to_num v !! "<BOS>" = Some n -> n ∉ nums) ->
  (forall n, Vocab.word_to_num v !! "<EOS>" = Some n -> n ∉ nums) ->
  Vocab.denumberize nums false v =
  (ws <- mmap (S:=unit)
           (fun n => mlift (list_getitem (Vocab.num_to_word v) n)) nums tt ;;
   Ok (fst ws, v))%res.
Proof.
  intros [b Hb] [e He] Hnb Hne. unfold Vocab.denumberize.
  erewrite mbind_ok.
  2:{ unfold mtry. erewrite mbind_ok by (apply control_token_present, Hb).
      rewrite (list_index_absent b nums) by auto. reflexivity. }
  erewrite mbind_ok.
  2:{ unfold mtry. erewrite mbind_ok by (apply control_token_present, He).
      rewrite (list_index_absent e nums) by auto. reflexivity. }
  rewrite slice_all. reflexivity.
Qed.

(** C8 (as amended): on a vocabulary whose two maps agree (as they do after
    any sequence of [add] calls) and that holds [<BOS>] and [<EOS>], a
    sequence of known words that contains neither [<BOS>] nor [<EOS>]
    survives [denumberize(numberize(words))] unchanged, and the vocabulary
    is left as it was. *)
Theorem C8_roundtrip_known_words v words :
  consistent v -> Forall (known v) words ->
  known v "<BOS>" -> known v "<EOS>" ->
  "<BOS>" ∉ words -> "<EOS>" ∉ words ->
  roundtrip false words v = Ok (words, v).
Proof.
  intros Hc Hk Hb He Hnb Hne. unfold roundtrip.
  erewrite mbind_ok by (apply numberize_known, Hk).
  rewrite denumberize_default; try done.
  - rewrite denumber_ids by done. reflexivity.
  - intros n Hn. eapply id_not_in; eauto.
  - intros n Hn. eapply id_not_in; eauto.
Qed.

Lemma C8_roundtrip_known_words_witness :
  roundtrip false ["a"; "b"; "a"] vocab5 = Ok (["a"; "b"; "a"], vocab5).
Proof.
  apply (C8_roundtrip_known_words vocab5 ["a"; "b"; "a"]).
  - exact vocab5_consistent.
  - repeat constructor; eexists; vm_compute; reflexivity.
  - eexists; vm_compute; reflexivity.
  - eexists; vm_compute; reflexivity.
  - intros H. apply list_elem_of_In in H. simpl in H.
    repeat (destruct H as [H|H]; [discriminate|]). done.
  - intros H. apply list_elem_of_In in H. simpl in H.
    repeat (destruct H as [H|H]; [discriminate|]). done.
Defined.

(** With [verbatim=True] nothing is trimmed: every sequence of known words
    survives the round trip. *)
Lemma roundtrip_verbatim v words :
  consistent v -> Forall (known v) words ->
  roundtrip true words v = Ok (words, v).
Proof.
  intros Hc Hk. unfold roundtrip.
  erewrite mbind_ok by (apply numberize_known, Hk).
  unfold Vocab.denumberize. rewrite denumber_ids by done. reflexivity.
Qed.

(** C8 (as stated) fails: [<BOS>] is a known word, and the default
    [denumberize] trims everything up to and including the first [<BOS>]. *)
Lemma C8_roundtrip_counterexample :
  Forall (known vocab5) ["<BOS>"; "a"] /\
  roundtrip false ["<BOS>"; "a"] vocab5 = Ok (["a"], vocab5) /\
  ["a"] <> ["<BOS>"; "a"].
Proof.
  split; [|split].
  - repeat constructor; eexists; vm_compute; reflexivity.
  - vm_compute. reflexivity.
  - discriminate.
Qed.

Lemma add_pads_decoding_size n off i v u v' :
  Vocab.add_pads off i n v = Ok (u, v') ->
  Vocab._decoding_size v' = Vocab._decoding_size v.
Proof.
  revert i v. induction n as [|n IH]; intros i v H; simpl in H.
  - injection H as _ <-. reflexivity.
  - apply mbind_inv in H as (a & s' & Ha & H).
    rewrite add_spec in Ha. injection Ha as _ <-.
    apply IH in H. exact H.
Qed.

(** The decoding size a vocabulary file yields when it loads: the range of
    its first line, rounded up to a multiple of 8 unless the range is 7
    modulo 8, in which case the one [<PAD 0>] token added is not counted. *)
Lemma from_file_decoding_size header rest start stop s e v u v' :
  split_on ":"%char (lstrip is_hash header) = [start; stop] ->
  int_of_str stop = Ok e -> int_of_str start = Ok s ->
  Vocab._from_file (header :: rest) v = Ok (u, v') ->
  Vocab.size_decoding v' =
  Some (if (e - s) mod 8 =? 7 then e - s else e - s + 8 - (e - s) mod 8).
Proof.
  intros Hsplit He Hs H. unfold Vocab._from_file in H. rewrite Hsplit in H.
  rewrite He, Hs in H.
  apply mbind_inv in H as (? & ? & [= <- <-] & H).
  apply mbind_inv in H as (? & ? & [= <- <-] & H).
  apply mbind_inv in H as (? & v1 & _ & H).
  apply mbind_inv in H as (? & v2 & _ & H).
  apply mbind_inv in H as (? & v3 & _ & H).
  injection H as _ <-. unfold Vocab.size_decoding; simpl. f_equal.
  pose proof (Z.mod_pos_bound (e - s) 8 ltac:(lia)) as Hm.
  destruct (Z.eqb_spec ((e - s) mod 8) 7) as [E|E].
  - rewrite E. change (Z.to_nat (8 - 7) - 1 =? 0)%nat with true.
    cbv iota. lia.
  - destruct (Nat.eqb_spec (Z.to_nat (8 - (e - s) mod 8) - 1) 0); lia.
Qed.

(** C5: the decoding size is not always a multiple of 8.  For a first line
    [#0:7] the range is 7, one [<PAD 0>] token is added, the loop variable
    ends at 0, and [decoding_size += i + 1 if i else 0] adds nothing. *)
Theorem C5_decoding_size_not_multiple_of_8 :
  exists v, Vocab.init (Some vocab_file_7) = Ok v /\
            Vocab.size_decoding v = Some 7 /\ 7 mod 8 <> 0.
Proof.
  eexists. split; [vm_compute; reflexivity|]. split; [reflexivity|].
  discriminate.
Qed.

(** ** Batch *)

Lemma wrap64_small z : in_int64 z -> wrap64 z = z.
Proof.
  unfold in_int64, wrap64. intros H. rewrite Z.mod_small; lia.
Qed.

Lemma ncols_drop_last {A} (rows : list (list A)) :
  ncols (map drop_last rows) = (ncols rows - 1)%nat.
Proof.
  destruct rows as [|r rows]; [reflexivity|].
  simpl. unfold drop_last. rewrite length_take. lia.
Qed.

(** C10: a batch whose [ignore_index] is 0 has its padding logic switched
    off: no source mask, the bare causal target mask, and a token count
    that is the sum of the target ids from position 1 on (in 64-bit
    arithmetic, hence the sum itself whenever it fits). *)
Theorem C10_ignore_index_zero src tgt dd :
  let b := Batch.mk src tgt dd (Some 0) in
  let total := sum_Z (concat (map (drop 1) tgt)) in
  Batch.src_mask b = None /\
  Batch.tgt_mask b = triu_mask (ncols tgt - 1) /\
  Batch.num_tokens b = wrap64 total /\
  (in_int64 total -> Batch.num_tokens b = total).
Proof.
  intros b total. repeat split.
  - unfold Batch.tgt_mask, Batch.not_ignore_index; simpl.
    rewrite ncols_drop_last. reflexivity.
  - intros H. unfold Batch.num_tokens, Batch.not_ignore_index; simpl.
    apply wrap64_small, H.
Qed.

Lemma C10_ignore_index_zero_witness :
  Batch.num_tokens
    (Batch.mk [[1; 5; 2; 0]] [[1; 5; 6; 2; 0; 0; 0; 0]]
              (Batch.DictList []) (Some 0)) = 13.
Proof.
  apply (C10_ignore_index_zero [[1; 5; 2; 0]] [[1; 5; 6; 2; 0; 0; 0; 0]]
           (Batch.DictList [])).
  unfold in_int64. simpl. lia.
Defined.

(** *** Entries of the dictionary mask *)

Lemma entry_zeros B Ls l i r c :
  (l < 2)%nat -> (i < B)%nat -> (r < Ls)%nat -> (c < Ls)%nat ->
  entry (Batch.zeros B Ls) l i r c = Some 0.
Proof.
  intros. unfold entry, Batch.zeros.
  rewrite lookup_replicate_2 by done. simpl.
  rewrite lookup_replicate_2 by done. simpl.
  rewrite lookup_replicate_2 by done. simpl.
  by rewrite lookup_replicate_2.
Qed.

Lemma has_mat_zeros B Ls l i :
  (l < 2)%nat -> (i < B)%nat -> has_mat (Batch.zeros B Ls) l i.
Proof.
  intros. unfold has_mat, Batch.zeros.
  rewrite lookup_replicate_2 by done. simpl.
  rewrite lookup_replicate_2 by done. eauto.
Qed.

Lemma fill_block_lookup rows cols x mat r c :
  (row ← Batch.fill_block rows cols x mat !! r; row !! c) =
  (y ← (row ← mat !! r; row !! c);
   Some (if Batch.in_span r rows && Batch.in_span c cols then x else y)).
Proof.
  unfold Batch.fill_block. rewrite list_lookup_imap.
  destruct (mat !! r) as [row|]; [simpl|reflexivity].
  destruct (Batch.in_span r rows); simpl.
  - rewrite list_lookup_imap. destruct (row !! c); reflexivity.
  - destruct (row !! c); reflexivity.
Qed.

Lemma set_block_ok L I rows cols x m :
  has_mat m L I -> exists m', Batch.set_block L I rows cols x m = Ok m'.
Proof.
  unfold has_mat, Batch.set_block. destruct (m !! L) as [lay|]; simpl.
  - destruct (lay !! I); [eauto|]. intros [? ?]; discriminate.
  - intros [? ?]; discriminate.
Qed.

Lemma set_block_has_mat L I rows cols x m m' l i :
  Batch.set_block L I rows cols x m = Ok m' ->
  has_mat m' l i <-> has_mat m l i.
Proof.
  unfold Batch.set_block, has_mat.
  destruct (m !! L) as [lay|] eqn:EL; [|discriminate].
  destruct (lay !! I) as [mat|] eqn:EI; [|discriminate].
  intros [= <-].
  destruct (decide (l = L)) as [->|Hl].
  - rewrite list_lookup_insert_eq by (eapply lookup_lt_Some; eauto).
    rewrite EL. simpl.
    destruct (decide (i = I)) as [->|Hi].
    + rewrite list_lookup_insert_eq by (eapply lookup_lt_Some; eauto).
      rewrite EI. split; eauto.
    + rewrite list_lookup_insert_ne by done. reflexivity.
  - rewrite list_lookup_insert_ne by done. reflexivity.
Qed.

Lemma entry_set_block L I rows cols x m m' l i r c :
  Batch.set_block L I rows cols x m = Ok m' ->
  entry m' l i r c =
  if bool_decide (l = L /\ i = I)
  then y ← entry m l i r c;
       Some (if Batch.in_span r rows && Batch.in_span c cols then x else y)
  else entry m l i r c.
Proof.
  unfold Batch.set_block, entry.
  destruct (m !! L) as [lay|] eqn:EL; [|discriminate].
  destruct (lay !! I) as [mat|] eqn:EI; [|discriminate].
  intros [= <-].
  destruct (decide (l = L)) as [->|Hl].
  - rewrite list_lookup_insert_eq by (eapply lookup_lt_Some; eauto).
    rewrite EL. simpl.
    destruct (decide (i = I)) as [->|Hi].
    + rewrite list_lookup_insert_eq by (eapply lookup_lt_Some; eauto).
      rewrite EI. simpl. rewrite bool_decide_eq_true_2 by done.
      apply fill_block_lookup.
    + rewrite list_lookup_insert_ne by done.
      rewrite bool_decide_eq_false_2 by (intros [_ ?]; done). reflexivity.
  - rewrite list_lookup_insert_ne by done.
    rewrite bool_decide_eq_false_2 by (intros [? _]; done). reflexivity.
Qed.

Lemma mark_pair_ok Ls I m p :
  has_mat m 0 I -> has_mat m 1 I ->
  exists m', Batch.mark_pair Ls I m p = Ok m'.
Proof.
  intros H0 H1. destruct p as [ab cd]. unfold Batch.mark_pair.
  destruct (set_block_ok 0 I (0, Ls)%nat cd 1 m H0) as [m1 E1].
  rewrite E1; simpl.
  destruct (set_block_ok 0 I ab cd 0 m1) as [m2 E2].
  { by apply (set_block_has_mat _ _ _ _ _ _ _ 0%nat I E1). }
  rewrite E2; simpl.
  destruct (set_block_ok 1 I cd (0, Ls)%nat 1 m2) as [m3 E3].
  { apply (set_block_has_mat _ _ _ _ _ _ _ 1%nat I E2).
    by apply (set_block_has_mat _ _ _ _ _ _ _ 1%nat I E1). }
  rewrite E3; simpl.
  apply set_block_ok.
  by apply (set_block_has_mat _ _ _ _ _ _ _ 1%nat I E3),
           (set_block_has_mat _ _ _ _ _ _ _ 1%nat I E2),
           (set_block_has_mat _ _ _ _ _ _ _ 1%nat I E1).
Qed.

Lemma mark_pair_has_mat Ls I m p m' l i :
  Batch.mark_pair Ls I m p = Ok m' -> has_mat m' l i <-> has_mat m l i.
Proof.
  destruct p as [ab cd]. unfold Batch.mark_pair. intros H.
  apply rbind_inv in H as (m1 & E1 & H).
  apply rbind_inv in H as (m2 & E2 & H).
  apply rbind_inv in H as (m3 & E3 & E4).
  rewrite (set_block_has_mat _ _ _ _ _ _ _ l i E4),
          (set_block_has_mat _ _ _ _ _ _ _ l i E3),
          (set_block_has_mat _ _ _ _ _ _ _ l i E2),
          (set_block_has_mat _ _ _ _ _ _ _ l i E1). reflexivity.
Qed.

Lemma mark_pair_entry Ls I m p m' l i r c :
  Batch.mark_pair Ls I m p = Ok m' ->
  entry m' l i r c =
  if bool_decide (i = I)
  then match l with
       | 0%nat => pair0 Ls p r c <$> entry m l i r c
       | 1%nat => pair1 Ls p r c <$> entry m l i r c
       | _ => entry m l i r c
       end
  else entry m l i r c.
Proof.
  destruct p as [ab cd]. unfold Batch.mark_pair. intros H.
  apply rbind_inv in H as (m1 & E1 & H).
  apply rbind_inv in H as (m2 & E2 & H).
  apply rbind_inv in H as (m3 & E3 & E4).
  rewrite (entry_set_block _ _ _ _ _ _ _ l i r c E4),
          (entry_set_block _ _ _ _ _ _ _ l i r c E3),
          (entry_set_block _ _ _ _ _ _ _ l i r c E2),
          (entry_set_block _ _ _ _ _ _ _ l i r c E1).
  unfold pair0, pair1; simpl.
  destruct (decide (i = I)) as [->|Hi].
  - rewrite (bool_decide_eq_true_2 (I = I)) by done.
    destruct l as [|[|l]].
    + rewrite (bool_decide_eq_false_2 (0%nat = 1%nat /\ _)) by (intros [? _]; done).
      rewrite (bool_decide_eq_true_2 (0%nat = 0%nat /\ _)) by done.
      destruct (entry m 0 I r c); simpl; [|reflexivity].
      destruct (Batch.in_span r ab), (Batch.in_span c cd),
               (Batch.in_span r (0, Ls)%nat); reflexivity.
    + rewrite (bool_decide_eq_true_2 (1%nat = 1%nat /\ _)) by done.
      rewrite (bool_decide_eq_false_2 (1%nat = 0%nat /\ _)) by (intros [? _]; done).
      destruct (entry m 1 I r c); simpl; [|reflexivity].
      destruct (Batch.in_span r cd), (Batch.in_span c cd),
               (Batch.in_span c (0, Ls)%nat); reflexivity.
    + rewrite (bool_decide_eq_false_2 (S (S l) = 1%nat /\ _)) by (intros [? _]; done).
      rewrite (bool_decide_eq_false_2 (S (S l) = 0%nat /\ _)) by (intros [? _]; done).
      reflexivity.
  - rewrite (bool_decide_eq_false_2 (i = I)) by done.
    rewrite !(bool_decide_eq_false_2 (_ /\ i = I)) by (intros [_ ?]; done).
    reflexivity.
Qed.

Lemma dict_mask_unfold b :
  Batch.not_ignore_index b = false ->
  Batch.dict_mask b =
  (m <- Batch.mark_items (ncols (Batch.src_nums b)) 0
          (Batch.zeros (length (Batch.src_nums b)) (ncols (Batch.src_nums b)))
          (fst (Batch.iterate (Batch._dict_data b))) ;;
   Ok (m, Batch.mk (Batch._src_nums b) (Batch._tgt_nums b)
                   (snd (Batch.iterate (Batch._dict_data b)))
                   (Batch.ignore_index b)))%res.
Proof.
  intros H. unfold Batch.dict_mask, Batch.src_mask. rewrite H.
  rewrite length_map.
  replace (match map _ (Batch.src_nums b) with
           | (row :: _) :: _ => length row
           | _ => 0%nat
           end) with (ncols (Batch.src_nums b)).
  - destruct (Batch.iterate (Batch._dict_data b)); reflexivity.
  - destruct (Batch.src_nums b) as [|row rows]; [reflexivity|].
    simpl. rewrite length_map. reflexivity.
Qed.

Lemma dict_mask_none b :
  Batch.not_ignore_index b = true -> Batch.dict_mask b = Raise AttributeError.
Proof.
  intros H. unfold Batch.dict_mask, Batch.src_mask. rewrite H. reflexivity.
Qed.

Lemma in_span_full r Ls : (r < Ls)%nat -> Batch.in_span r (0, Ls)%nat = true.
Proof.
  intros H. unfold Batch.in_span; simpl. by apply Nat.ltb_lt.
Qed.

Lemma mark_items_one Ls i m ab cd :
  Batch.mark_items Ls i m [([ab], [cd])] = Batch.mark_pair Ls i m (ab, cd).
Proof.
  change (Batch.mark_items Ls i m [([ab], [cd])])
    with (m1 <- (m2 <- Batch.mark_pair Ls i m (ab, cd) ;; Ok m2) ;; Ok m1)%res.
  destruct (Batch.mark_pair Ls i m (ab, cd)); reflexivity.
Qed.

(** C6: one example, one lemma span [2,4) with sense span [10,14).  On the
    first read the mask has, in layer 0, 0 at rows [2,4) x columns [10,14),
    1 at the other rows of those columns and 0 elsewhere; in layer 1, 1 at
    rows [10,14) except 0 at columns [10,14), and 0 at the other rows.  The
    read returns a mask whenever [ignore_index] is a non-zero id. *)
Theorem C6_dict_mask_single_pair row tgt dd ign :
  fst (Batch.iterate dd) = [([(2, 4)], [(10, 14)])]%nat ->
  let b := Batch.mk [row] tgt dd ign in
  (Batch.not_ignore_index b = false ->
   exists m b', Batch.dict_mask b = Ok (m, b')) /\
  (forall m b', Batch.dict_mask b = Ok (m, b') ->
   forall r c, (r < length row)%nat -> (c < length row)%nat ->
     entry m 0 0 r c =
       Some (if Batch.in_span c (10, 14)%nat
             then if Batch.in_span r (2, 4)%nat then 0 else 1
             else 0) /\
     entry m 1 0 r c =
       Some (if Batch.in_span r (10, 14)%nat
             then if Batch.in_span c (10, 14)%nat then 0 else 1
             else 0)).
Proof.
  intros Hdd b.
  destruct (Batch.not_ignore_index b) eqn:Hign.
  { split; [discriminate|]. intros m b' H.
    rewrite dict_mask_none in H by done. discriminate. }
  pose proof (dict_mask_unfold b Hign) as Hun.
  change (Batch.src_nums b) with [row] in Hun.
  change (Batch._dict_data b) with dd in Hun.
  rewrite Hdd, mark_items_one in Hun.
  change (ncols [row]) with (length row) in Hun.
  change (length [row]) with 1%nat in Hun.
  destruct (mark_pair_ok (length row) 0 (Batch.zeros 1 (length row))
              ((2, 4), (10, 14))%nat) as [m1 Hm1];
    [apply has_mat_zeros; lia..|].
  rewrite Hm1 in Hun. simpl in Hun.
  split; [eauto|].
  intros m b' H r c Hr Hc. rewrite Hun in H. injection H as <- _.
  rewrite !(mark_pair_entry _ _ _ _ _ _ _ _ _ Hm1).
  rewrite (bool_decide_eq_true_2 (0%nat = 0%nat)) by done.
  rewrite !entry_zeros by lia. simpl. unfold pair0, pair1. simpl fst; simpl snd.
  rewrite (in_span_full r) by done. rewrite (in_span_full c) by done.
  destruct (Batch.in_span r (2, 4)%nat), (Batch.in_span c (10, 14)%nat),
           (Batch.in_span r (10, 14)%nat); split; reflexivity.
Qed.

Lemma C6_dict_mask_single_pair_witness :
  exists m b',
    Batch.dict_mask
      (Batch.mk [replicate 16 5] [replicate 8 5]
                (Batch.DictZip [([(2, 4)], [(10, 14)])]%nat) (Some 7))
    = Ok (m, b').
Proof.
  apply (C6_dict_mask_single_pair (replicate 16 5) [replicate 8 5]
           (Batch.DictZip [([(2, 4)], [(10, 14)])]%nat) (Some 7));
    reflexivity.
Defined.

(** ** decoder *)

Lemma greedy_steps_cons log_probs i steps path tok v eos :
  predicts log_probs (take i path) tok ->
  Vocab.EOS v = Ok (eos, v) ->
  greedy_steps log_probs (i :: steps) path v =
  if Z.of_nat tok =? eos then Ok (<[i := Z.of_nat tok]> path, v)
  else greedy_steps log_probs steps (<[i := Z.of_nat tok]> path) v.
Proof.
  intros (row & E & A) Heos. cbn [greedy_steps].
  erewrite mbind_ok by (rewrite E, A; reflexivity).
  erewrite mbind_ok by exact Heos.
  destruct (Z.of_nat tok =? eos); reflexivity.
Qed.

(** C2 (as amended): with the vocabulary [{<PAD>:0, <BOS>:1, <EOS>:2, a:3,
    b:4}] and a scoring function that predicts [a], then [b], then
    [<EOS>], greedy search with [max_length >= 4] returns
    [<BOS>, a, b, <EOS>] followed by [<BOS>] in every remaining position:
    the path is allocated filled with [<BOS>] and the loop stops at
    [<EOS>]. *)
Theorem C2_greedy_a_b_eos log_probs max_length :
  predicts log_probs [1] 3 ->
  predicts log_probs [1; 3] 4 ->
  predicts log_probs [1; 3; 4] 2 ->
  (4 <= max_length)%nat ->
  greedy_search log_probs max_length vocab5 =
  Ok ([1; 3; 4; 2] ++ replicate (max_length - 4) 1, vocab5).
Proof.
  intros P1 P2 P3 Hlen.
  do 4 (destruct max_length as [|max_length]; [lia|]).
  unfold greedy_search.
  erewrite mbind_ok by (apply control_token_present; reflexivity).
  change (seq 1 (S (S (S (S max_length))) - 1))
    with (1 :: 2 :: 3 :: seq 4 max_length)%nat.
  change (replicate (S (S (S (S max_length)))) 1)
    with (1 :: 1 :: 1 :: 1 :: replicate max_length 1).
  rewrite (greedy_steps_cons _ _ _ _ 3%nat _ 2) by (done || reflexivity).
  change (Z.of_nat 3 =? 2) with false. cbv iota.
  change (<[1%nat:=Z.of_nat 3]> (1 :: 1 :: 1 :: 1 :: replicate max_length 1))
    with (1 :: 3 :: 1 :: 1 :: replicate max_length 1).
  rewrite (greedy_steps_cons _ _ _ _ 4%nat _ 2) by (done || reflexivity).
  change (Z.of_nat 4 =? 2) with false. cbv iota.
  change (<[2%nat:=Z.of_nat 4]> (1 :: 3 :: 1 :: 1 :: replicate max_length 1))
    with (1 :: 3 :: 4 :: 1 :: replicate max_length 1).
  rewrite (greedy_steps_cons _ _ _ _ 2%nat _ 2) by (done || reflexivity).
  change (Z.of_nat 2 =? 2) with true. cbv iota.
  replace (S (S (S (S max_length))) - 4)%nat with max_length by lia.
  reflexivity.
Qed.


Lemma a_b_eos_predicts :
  predicts a_b_eos [1] 3 /\ predicts a_b_eos [1; 3] 4 /\
  predicts a_b_eos [1; 3; 4] 2.
Proof. repeat split; eexists; split; reflexivity. Qed.

Lemma C2_greedy_a_b_eos_witness :
  greedy_search a_b_eos 6 vocab5 = Ok ([1; 3; 4; 2; 1; 1], vocab5).
Proof.
  apply (C2_greedy_a_b_eos a_b_eos 6);
    [apply a_b_eos_predicts..|lia].
Defined.

(** C2 (as stated) fails: the scoring function [a_b_eos] predicts [a], [b]
    and [<EOS>], yet with [max_length = 6] the positions after [<EOS>] hold
    [<BOS>] (id 1), not [<PAD>] (id 0). *)
Lemma C2_greedy_counterexample :
  predicts a_b_eos [1] 3 /\ predicts a_b_eos [1; 3] 4 /\
  predicts a_b_eos [1; 3; 4] 2 /\
  Vocab.word_to_num vocab5 !! "<PAD>" = Some 0 /\
  exists path, greedy_search a_b_eos 6 vocab5 = Ok (path, vocab5) /\
               path <> [1; 3; 4; 2; 0; 0] /\ path !! 4%nat = Some 1.
Proof.
  split; [|split; [|split; [|split]]]; try apply a_b_eos_predicts.
  - reflexivity.
  - exists [1; 3; 4; 2; 1; 1]. split; [vm_compute; reflexivity|].
    split; [discriminate|reflexivity].
Qed.

Lemma Qlt_bool_iff x y : Qlt_bool x y = true <-> (x < y)%Q.
Proof.
  unfold Qlt_bool. rewrite negb_true_iff, <- not_true_iff_false.
  rewrite Qle_bool_iff. split.
  - apply Qnot_le_lt.
  - apply Qlt_not_le.
Qed.

Lemma reactivate_inactive thr act pr k p :
  act !! k = Some false -> pr !! k = Some p ->
  reactivate thr act pr !! k = Some (Qlt_bool p thr).
Proof.
  intros Ha Hp. unfold reactivate. rewrite lookup_zip_with, Ha, Hp.
  reflexivity.
Qed.

Lemma reactivate_active thr act pr k p :
  act !! k = Some true -> pr !! k = Some p ->
  reactivate thr act pr !! k = Some true.
Proof.
  intros Ha Hp. unfold reactivate. rewrite lookup_zip_with, Ha, Hp.
  reflexivity.
Qed.

(** The activation flags after lines 41-47 when the beam has shrunk. *)
Lemma widen_active fdiv topk init_size i flat st st' topv topi top m :
  widen fdiv topk init_size i flat st = Ok (st', topv, topi) ->
  (beam_size st < init_size)%nat ->
  topk flat (beam_size st) = Ok top -> max_Q (fst top) = Ok m ->
  active st' = reactivate (fdiv m i) (active st) (probs st).
Proof.
  intros H Hlt Htop Hm. unfold widen in H. rewrite Htop in H. simpl in H.
  apply Nat.ltb_lt in Hlt. rewrite Hlt, Hm in H. simpl in H.
  destruct (_ <? _)%nat in H.
  - apply rbind_inv in H as (top' & _ & H). injection H as <- _ _.
    reflexivity.
  - injection H as <- _ _. reflexivity.
Qed.

(** Float32 rounding on the values met below: the float32 nearest to
    -1/3, which is also the float32 quotient of -2 by 6 and lies below
    -1/3; a sum that is rounded to an even significand; sums and quotients
    of small dyadic numbers, which are exact. *)
Lemma f32_rounding_examples :
  f32_div (-1) 3 = (-11184811 # 33554432)%Q /\
  f32_div (-2) 6 = (-11184811 # 33554432)%Q /\
  (-11184811 # 33554432 < -1 # 3)%Q /\
  f32_add (-16777216) (-3) = (-16777220)%Q /\
  f32_round (-11184811 # 33554432) = (-11184811 # 33554432)%Q /\
  f32_add (-7 # 4) (-1 # 4) = (-2)%Q /\
  f32_div (-3) 2 = (-3 # 2)%Q.
Proof. repeat split. Qed.

Lemma insert_score_Permutation p l : insert_score p l ≡ₚ p :: l.
Proof.
  induction l as [|q l IH]; [done|].
  simpl. destruct (Qlt_bool _ _); [|done].
  rewrite IH. apply Permutation_swap.
Qed.

Lemma insert_score_sorted p l :
  StronglySorted (fun p q : Q * nat => (fst q <= fst p)%Q) l ->
  StronglySorted (fun p q : Q * nat => (fst q <= fst p)%Q)
                 (insert_score p l).
Proof.
  induction 1 as [|q l Hl IH Hq]; simpl.
  - repeat constructor.
  - destruct (Qlt_bool (fst p) (fst q)) eqn:E.
    + constructor; [exact IH|].
      rewrite insert_score_Permutation. constructor; [|exact Hq].
      apply Qlt_bool_iff in E. by apply Qlt_le_weak.
    + assert (fst q <= fst p)%Q as Hle.
      { unfold Qlt_bool in E. apply negb_false_iff in E.
        by apply Qle_bool_iff in E. }
      constructor; [by constructor|].
      constructor; [exact Hle|].
      eapply Forall_impl; [exact Hq|].
      intros y Hy. simpl in Hy. by apply Qle_trans with (fst q).
Qed.

(** Returning equal values in index order is one of the behaviours that
    [torch.topk] may show. *)
Lemma topk_by_index_admissible : topk_admissible topk_by_index.
Proof.
  intros x k. unfold topk_by_index.
  destruct (length x <? k)%nat; [reflexivity|].
  eexists. split; [|split; [|reflexivity]].
  - generalize (imap (fun i v => (v, i)) x). intros l.
    induction l as [|p l IH]; [done|].
    simpl. rewrite insert_score_Permutation. by rewrite IH.
  - generalize (imap (fun i v => (v, i)) x). intros l.
    induction l as [|p l IH]; [constructor|].
    simpl. by apply insert_score_sorted.
Qed.

(** C1 (as amended): at a step [i] at which the beam has shrunk below its
    initial size, an inactive slot is re-activated exactly when its stored
    score is strictly below (max selected candidate score) / i, the
    quotient being the one the tensor division returns; an inactive slot
    whose stored score is not below that threshold stays inactive.  This
    holds whatever the rounding of the division [fdiv] and whatever
    [topk] selects among equal scores. *)
Theorem C1_reactivation_below_threshold
    fdiv topk init_size i flat st st' topv topi top m k p :
  widen fdiv topk init_size i flat st = Ok (st', topv, topi) ->
  (beam_size st < init_size)%nat ->
  topk flat (beam_size st) = Ok top -> max_Q (fst top) = Ok m ->
  active st !! k = Some false -> probs st !! k = Some p ->
  ((p < fdiv m i)%Q -> active st' !! k = Some true) /\
  (~ (p < fdiv m i)%Q -> active st' !! k = Some false).
Proof.
  intros H Hlt Htop Hm Ha Hp.
  rewrite (widen_active _ _ _ _ _ _ _ _ _ _ _ H Hlt Htop Hm).
  rewrite (reactivate_inactive _ _ _ _ _ Ha Hp).
  split; intros Hcmp; f_equal.
  - by apply Qlt_bool_iff.
  - apply not_true_iff_false. by rewrite Qlt_bool_iff.
Qed.

(** Two instances in float32.  After one step under [eos_second] the
    stored score -4 is below the threshold -2 / 2 and the slot is given
    back.  After five steps under [eos_third] the stored score is the
    float32 nearest to -1/3 and the threshold at step 6 is the float32
    quotient of -2 by 6, the same number: the slot stays inactive, although
    the stored score is below the exact quotient. *)
Lemma C1_reactivation_below_threshold_witness :
  (((-4 < f32_div (-2) 2)%Q -> [true; true] !! 1%nat = Some true) /\
   (~ (-4 < f32_div (-2) 2)%Q -> [true; true] !! 1%nat = Some false)) /\
  (beam_loop eos_third f32_add f32_div topk_by_index 2 5 1
     (init_beam 1 2 8) vocab5 = Ok (beam_eos_third, vocab5) /\
   candidate_scores eos_third f32_add 6 beam_eos_third
     = Ok [-39 # 4; -39 # 4; -39 # 4; -2; -39 # 4]%Q /\
   (-11184811 # 33554432 < -2 / inject_Z (Z.of_nat 6))%Q /\
   ((-11184811 # 33554432 < f32_div (-2) 6)%Q ->
    [false; true] !! 0%nat = Some true) /\
   (~ (-11184811 # 33554432 < f32_div (-2) 6)%Q ->
    [false; true] !! 0%nat = Some false)).
Proof.
  split.
  - apply (C1_reactivation_below_threshold f32_div topk_by_index 2 2
             [-9; -9; -9; -9; -2]%Q beam_eos_second
             (mk_beam [true; true] (paths beam_eos_second)
                      (probs beam_eos_second) 2)
             [-2; -9]%Q [4; 0]%nat ([-2]%Q, [4]%nat) (-2)%Q 1 (-4)%Q).
    + vm_compute. reflexivity.
    + simpl. lia.
    + vm_compute. reflexivity.
    + vm_compute. reflexivity.
    + reflexivity.
    + reflexivity.
  - split; [vm_compute; reflexivity|].
    split; [vm_compute; reflexivity|].
    split; [reflexivity|].
    apply (C1_reactivation_below_threshold f32_div topk_by_index 2 6
             [-39 # 4; -39 # 4; -39 # 4; -2; -39 # 4]%Q beam_eos_third
             beam_eos_third
             [-2]%Q [3]%nat ([-2]%Q, [3]%nat) (-2)%Q 0
             (-11184811 # 33554432)%Q).
    + vm_compute. reflexivity.
    + simpl. lia.
    + vm_compute. reflexivity.
    + vm_compute. reflexivity.
    + reflexivity.
    + reflexivity.
Defined.

(** C1 (as stated) fails in both directions on beams reached after one
    step of [beam_search] with a beam of two, in float32; the scores
    involved are small dyadic numbers, on which the float32 sums and
    quotients are exact.  Under [eos_second] the threshold at step 2 is
    -2 / 2 = -1: the stored score -4 of the inactive slot does not exceed
    it, yet the slot is re-activated.  Under [eos_first] the threshold is
    -3 / 2: the stored score -1 exceeds it, yet the slot stays inactive. *)
Lemma C1_reactivation_counterexample :
  (beam_loop eos_second f32_add f32_div topk_by_index 2 1 1
     (init_beam 1 2 6) vocab5
     = Ok (beam_eos_second, vocab5) /\
   candidate_scores eos_second f32_add 2 beam_eos_second
     = Ok [-9; -9; -9; -9; -2]%Q /\
   topk_by_index [-9; -9; -9; -9; -2]%Q (beam_size beam_eos_second)
     = Ok ([-2]%Q, [4]%nat) /\
   max_Q [-2]%Q = Ok (-2)%Q /\
   probs beam_eos_second !! 1%nat = Some (-4)%Q /\
   active beam_eos_second !! 1%nat = Some false /\
   f32_div (-2) 2 = (-1)%Q /\
   ~ (f32_div (-2) 2 < -4)%Q /\
   exists st' topv topi,
     widen f32_div topk_by_index 2 2 [-9; -9; -9; -9; -2]%Q beam_eos_second
       = Ok (st', topv, topi) /\
     active st' !! 1%nat = Some true) /\
  (beam_loop eos_first f32_add f32_div topk_by_index 2 1 1
     (init_beam 1 2 6) vocab5
     = Ok (beam_eos_first, vocab5) /\
   candidate_scores eos_first f32_add 2 beam_eos_first
     = Ok [-10; -10; -10; -10; -3]%Q /\
   topk_by_index [-10; -10; -10; -10; -3]%Q (beam_size beam_eos_first)
     = Ok ([-3]%Q, [4]%nat) /\
   max_Q [-3]%Q = Ok (-3)%Q /\
   probs beam_eos_first !! 0%nat = Some (-1)%Q /\
   active beam_eos_first !! 0%nat = Some false /\
   f32_div (-3) 2 = (-3 # 2)%Q /\
   (f32_div (-3) 2 < -1)%Q /\
   exists st' topv topi,
     widen f32_div topk_by_index 2 2 [-10; -10; -10; -10; -3]%Q
           beam_eos_first
       = Ok (st', topv, topi) /\
     active st' !! 0%nat = Some false).
Proof.
  split.
  - do 7 (split; [vm_compute; reflexivity|]).
    split.
    + intros H. apply Qlt_bool_iff in H. vm_compute in H. discriminate.
    + do 3 eexists. split; vm_compute; reflexivity.
  - do 7 (split; [vm_compute; reflexivity|]).
    split.
    + apply Qlt_bool_iff. vm_compute. reflexivity.
    + do 3 eexists. split; vm_compute; reflexivity.
Qed.

(** ** Manager.batch_data: reading the lines *)

Lemma split_chars_no_sep sep s :
  existsb (Ascii.eqb sep) s = false -> split_chars sep s = [s].
Proof.
  induction s as [|c s IH]; [reflexivity|].
  simpl. intros H. apply orb_false_elim in H as [Hc Hs].
  rewrite Ascii.eqb_sym in Hc. rewrite Hc, (IH Hs). reflexivity.
Qed.

Lemma split_on_no_tab line :
  has_tab line = false -> split_on tab line = [line].
Proof.
  intros H. unfold split_on. rewrite split_chars_no_sep by exact H.
  simpl. rewrite string_of_list_ascii_of_string. reflexivity.
Qed.

Lemma read_line_no_tab self line :
  has_tab line = false -> Manager.read_line self line = Raise ValueError.
Proof.
  intros H. unfold Manager.read_line. rewrite split_on_no_tab by exact H.
  reflexivity.
Qed.

Lemma read_line_empty_field self line src tgt :
  split_on tab line = [src; tgt] -> src = "" \/ tgt = "" ->
  Manager.read_line self line = Ok None.
Proof.
  intros Hs Hempty. unfold Manager.read_line. rewrite Hs.
  destruct Hempty as [-> | ->]; simpl.
  - reflexivity.
  - rewrite orb_true_r. reflexivity.
Qed.

Lemma list_getitem_lt {A} (l : list A) (n : nat) :
  (n < length l)%nat -> exists x, l !! n = Some x /\
                                  list_getitem l (Z.of_nat n) = Ok x.
Proof.
  intros H. destruct (lookup_lt_is_Some_2 l n H) as [x Hx].
  exists x. split; [done|]. by apply list_getitem_nat.
Qed.

Lemma join_lemma_ok fuel words src_len i lemma w :
  closed words src_len -> (i < src_len)%nat ->
  words !! i = Some w -> endswith w "@@" = true ->
  (src_len - i <= fuel)%nat ->
  exists i' lemma',
    Manager.join_lemma fuel words src_len i lemma = Ok (i', lemma') /\
    (i < i' < src_len)%nat.
Proof.
  intros Hcl. revert i lemma w.
  induction fuel as [|fuel IH]; intros i lemma w Hi Hw Hend Hfuel; [lia|].
  destruct Hcl as [Hlen (wl & Hwl & Hlast)].
  assert (S i < src_len)%nat as Hlt.
  { destruct (decide (S i = src_len)) as [E|]; [|lia].
    replace (src_len - 1)%nat with i in Hwl by lia. congruence. }
  cbn [Manager.join_lemma].
  destruct (Nat.ltb_spec (S i) src_len) as [_|]; [|lia].
  destruct (list_getitem_lt words (S i)) as (w' & Hw' & ->); [lia|].
  simpl. destruct (endswith w' "@@") eqn:Hend'.
  - destruct (IH (S i) (lemma +:+ rstrip is_at w') w')
      as (i' & lemma' & -> & Hi'); try done; try lia.
    exists i', lemma'. split; [done|lia].
  - exists (S i), lemma. split; [done|lia].
Qed.

Lemma closed_app words src_len extra :
  closed words src_len -> closed (words ++ extra) src_len.
Proof.
  intros [Hlen (w & Hw & Hlast)]. split.
  - rewrite length_app. lia.
  - exists w. split; [|done]. rewrite lookup_app_l by lia. done.
Qed.

(** The scan always returns: it neither raises nor runs out of fuel. *)
Lemma scan_ok fuel self src_len i words lemmas senses :
  closed words src_len -> (src_len - i < fuel)%nat ->
  exists r, Manager.scan fuel self src_len i words lemmas senses = Ok r.
Proof.
  revert i words lemmas senses.
  induction fuel as [|fuel IH]; intros i words lemmas senses Hcl Hfuel; [lia|].
  cbn [Manager.scan].
  destruct (Nat.ltb_spec i src_len) as [Hi|]; cbn [negb]; [|eauto].
  pose proof Hcl as [Hlen _].
  destruct (list_getitem_lt words i) as (w & Hw & ->); [lia|]. cbn [rbind].
  assert (exists i' lemma,
             (if endswith w "@@"
              then
                r <- Manager.join_lemma (S src_len) words src_len i
                       (rstrip is_at w) ;;
                w' <- list_getitem words (Z.of_nat r.1) ;;
                Ok (r.1, r.2 +:+ w')
              else Ok (i, w))%res = Ok (i', lemma) /\
             (i <= i' < src_len)%nat) as (i' & lemma & -> & Hi').
  { destruct (endswith w "@@") eqn:Hend.
    - destruct (join_lemma_ok (S src_len) words src_len i (rstrip is_at w) w)
        as (i' & lemma' & -> & Hi'); try done; try lia.
      cbn [rbind fst snd].
      destruct (list_getitem_lt words i') as (w' & Hw' & ->); [lia|].
      cbn [rbind]. exists i', (lemma' +:+ w'). split; [done|lia].
    - exists i, w. split; [done|lia]. }
  cbn [rbind fst snd].
  destruct (bool_decide (is_Some (Manager.freq self !! lemma))) eqn:Hf;
    cbn [andb]; [|apply IH; [done|lia]].
  destruct (bool_decide (is_Some (Manager.dict self !! lemma))) eqn:Hd;
    cbn [andb]; [|apply IH; [done|lia]].
  apply bool_decide_eq_true_1 in Hf as [f Hf].
  apply bool_decide_eq_true_1 in Hd as [d Hd].
  unfold dict_getitem. rewrite Hf, Hd. cbn [rbind].
  destruct (f <=? Manager.freq_limit self); [|apply IH; [done|lia]].
  destruct (_ >? _); [eauto|].
  apply IH; [by apply closed_app|lia].
Qed.

Lemma read_line_total self line :
  Manager.read_line self line = Raise ValueError \/
  exists r, Manager.read_line self line = Ok r.
Proof.
  unfold Manager.read_line.
  destruct (split_on tab line) as [|src [|tgt [|? ?]]]; auto.
  destruct (_ || _); [eauto|].
  destruct (_ >? _); [eauto|].
  destruct (_ >? _); [eauto|].
  right.
  set (words := ["<BOS>"] ++ split_ws src ++ ["<EOS>"]).
  destruct (scan_ok (S (length words)) self (length words) 0 words [] [])
    as [r ->]; [|lia|simpl; eauto].
  split.
  - subst words. simpl. lia.
  - exists "<EOS>". split; [|reflexivity]. subst words.
    simpl. rewrite length_app. simpl.
    replace (length (split_ws src) + 1 - 0)%nat
      with (S (length (split_ws src) + 0))%nat by lia.
    rewrite lookup_cons_ne_0 by lia. simpl.
    rewrite lookup_app_r by lia.
    replace (length (split_ws src) + 0 - length (split_ws src))%nat
      with 0%nat by lia. reflexivity.
Qed.

Lemma read_lines_raise self pre line post acc :
  Manager.read_line self line = Raise ValueError ->
  Manager.read_lines self (pre ++ line :: post) acc = Raise ValueError.
Proof.
  intros Hline. revert acc.
  induction pre as [|l pre IH]; intros acc; simpl.
  - rewrite Hline. reflexivity.
  - destruct (read_line_total self l) as [-> | [r ->]]; [reflexivity|].
    simpl. apply IH.
Qed.

Lemma read_lines_skip self pre line post acc :
  Manager.read_line self line = Ok None ->
  Manager.read_lines self (pre ++ line :: post) acc =
  Manager.read_lines self (pre ++ post) acc.
Proof.
  intros Hline. revert acc.
  induction pre as [|l pre IH]; intros acc; simpl.
  - rewrite Hline. reflexivity.
  - destruct (Manager.read_line self l); simpl; [apply IH|reflexivity..].
Qed.

(** C3 (as amended): a line without a tab is not skipped: unpacking
    [line.split('\t')] into two names raises [ValueError] and [batch_data]
    produces no batch.  What is skipped silently is a line with exactly one
    tab whose source or target field is empty: batching goes on as if the
    line were not there. *)
Theorem C3_line_without_tab_raises self pre line post :
  (has_tab line = false ->
   Manager.batch_data (pre ++ line :: post) self = Raise ValueError) /\
  (forall src tgt,
     split_on tab line = [src; tgt] -> src = "" \/ tgt = "" ->
     Manager.batch_data (pre ++ line :: post) self =
     Manager.batch_data (pre ++ post) self).
Proof.
  split.
  - intros H. unfold Manager.batch_data. apply mbind_raise.
    rewrite read_lines_raise; [reflexivity|].
    by apply read_line_no_tab.
  - intros src tgt Hs He. unfold Manager.batch_data, mbind.
    rewrite (read_lines_skip self pre line post []); [reflexivity|].
    eapply read_line_empty_field; eauto.
Qed.

Lemma C3_line_without_tab_raises_witness :
  Manager.batch_data (demo_data ++ "no tab here" :: demo_data) demo_manager
  = Raise ValueError.
Proof.
  apply (C3_line_without_tab_raises demo_manager demo_data "no tab here"
           demo_data).
  reflexivity.
Defined.

(** C3 (as stated) fails: the second line has no tab, and [batch_data]
    raises instead of batching the other lines, which on their own yield a
    batch. *)
Lemma C3_line_without_tab_counterexample :
  has_tab "no tab here" = false /\
  Manager.batch_data [demo_data !!! 0%nat; "no tab here"; demo_data !!! 1%nat]
                     demo_manager = Raise ValueError /\
  exists batches self',
    Manager.batch_data [demo_data !!! 0%nat; demo_data !!! 1%nat]
                       demo_manager = Ok (batches, self') /\
    length batches = 1%nat.
Proof.
  split; [reflexivity|]. split; [vm_compute; reflexivity|].
  do 2 eexists. split; [vm_compute; reflexivity|reflexivity].
Qed.

(** ** Manager.batch_data: building the batches *)

Lemma numberize_word_spec w v n v' :
  Vocab.numberize_word w v = Ok (n, v') -> v' = v.
Proof.
  unfold Vocab.numberize_word, mtry, dict_getitem.
  destruct (Vocab.word_to_num v !! w); simpl.
  - by intros [= _ <-].
  - unfold Vocab.UNK. rewrite control_token_spec.
    destruct (Vocab.word_to_num v !! "<UNK>"); [|discriminate].
    by intros [= _ <-].
Qed.

Lemma numberize_spec words v nums v' :
  Vocab.numberize words v = Ok (nums, v') ->
  v' = v /\ length nums = length words.
Proof.
  unfold Vocab.numberize. revert nums v'.
  induction words as [|w ws IH]; intros nums v' H.
  - injection H as <- <-. done.
  - rewrite mmap_cons in H.
    apply mbind_inv in H as (n & v1 & Hn & H).
    apply numberize_word_spec in Hn as ->.
    apply mbind_inv in H as (ns & v2 & Hns & H).
    apply IH in Hns as [-> Hlen]. injection H as <- <-.
    split; [done|]. simpl. by rewrite Hlen.
Qed.

Lemma set_vocab_same self : Manager.set_vocab self (Manager.vocab self) = self.
Proof. destruct self; reflexivity. Qed.

Lemma on_vocab_inv {A} (m : M Vocab.t A) self a self' :
  Manager.on_vocab m self = Ok (a, self') ->
  exists v', m (Manager.vocab self) = Ok (a, v') /\
             self' = Manager.set_vocab self v'.
Proof.
  unfold Manager.on_vocab. intros H.
  apply rbind_inv in H as ([a' v'] & Hm & H). injection H as <- <-. eauto.
Qed.

Lemma on_vocab_token tok self n self' :
  Manager.on_vocab (Vocab.control_token tok) self = Ok (n, self') ->
  self' = self /\ Vocab.word_to_num (Manager.vocab self) !! tok = Some n.
Proof.
  intros H. apply on_vocab_inv in H as (v' & Hm & ->).
  rewrite control_token_spec in Hm.
  destruct (Vocab.word_to_num (Manager.vocab self) !! tok); [|discriminate].
  injection Hm as <- <-. split; [apply set_vocab_same|done].
Qed.

Lemma pad_right_length x k v row :
  pad_right x k v = Ok row -> Z.of_nat (length row) = Z.of_nat (length x) + k.
Proof.
  unfold pad_right. destruct (Z.leb_spec 0 k).
  - intros [= <-]. rewrite length_app, length_replicate. lia.
  - destruct (Z.leb_spec 0 (Z.of_nat (length x) + k)); [|discriminate].
    intros [= <-]. rewrite length_take. lia.
Qed.

Lemma padded_row_spec width words self row self' :
  Manager.padded_row width words self = Ok (row, self') ->
  self' = self /\ length row = width.
Proof.
  unfold Manager.padded_row. intros H.
  apply mbind_inv in H as (nums & s1 & Hn & H).
  apply on_vocab_inv in Hn as (v' & Hn & ->).
  apply numberize_spec in Hn as [-> Hlen]. rewrite set_vocab_same in H.
  apply mbind_inv in H as (pad & s2 & Hp & H).
  apply on_vocab_token in Hp as [-> _].
  apply mlift_inv in H as [H <-]. simpl in H. split; [done|].
  apply pad_right_length in H. lia.
Qed.

Lemma mmap_state_Forall {S A B} (f : A -> M S B) (P : B -> Prop) l s ys s' :
  (forall x y s1, f x s = Ok (y, s1) -> s1 = s /\ P y) ->
  mmap f l s = Ok (ys, s') ->
  s' = s /\ Forall P ys /\ length ys = length l.
Proof.
  intros Hf. revert ys s'.
  induction l as [|x l IH]; intros ys s' H.
  - injection H as <- <-. auto.
  - rewrite mmap_cons in H.
    apply mbind_inv in H as (y & s1 & Hy & H).
    apply Hf in Hy as [-> Py].
    apply mbind_inv in H as (ys' & s2 & Hys & H).
    apply IH in Hys as (-> & Pys & Hlen). injection H as <- <-.
    split; [done|]. split; [by constructor|]. simpl. by rewrite Hlen.
Qed.

Lemma stack_inv rows rows' : stack rows = Ok rows' -> rows' = rows.
Proof.
  unfold stack. destruct rows; [discriminate|].
  destruct (forallb _ _); [|discriminate]. by intros [= <-].
Qed.

(** What [make_batch] yields when it returns. *)
Lemma make_batch_spec chunk ms mt self b self' :
  Manager.make_batch chunk ms mt self = Ok (b, self') ->
  self' = self /\
  Forall (fun r => length r = ceil8 ms) (Batch.src_nums b) /\
  length (Batch.src_nums b) = length chunk /\
  Forall (fun r => length r = ceil8 mt) (Batch.tgt_nums b) /\
  Batch._dict_data b =
    Batch.DictZip (map (fun x => (Manager.lemmas x, Manager.senses x)) chunk) /\
  exists pad,
    Vocab.word_to_num (Manager.vocab self) !! "<PAD>" = Some pad /\
    Batch.ignore_index b = Some pad.
Proof.
  unfold Manager.make_batch. intros H.
  apply mbind_inv in H as (src_rows & s1 & Hsrc & H).
  apply (mmap_state_Forall _ (fun r => length r = ceil8 ms)) in Hsrc
    as (E & Fsrc & Lsrc);
    [subst s1|intros x y s1' Hx; by apply padded_row_spec in Hx].
  apply mbind_inv in H as (src_nums & s2 & Hst & H).
  apply mlift_inv in Hst as [Hst E]. simpl in Hst, E. subst s2.
  apply stack_inv in Hst. subst src_nums.
  apply mbind_inv in H as (tgt_rows & s3 & Htgt & H).
  apply (mmap_state_Forall _ (fun r => length r = ceil8 mt)) in Htgt
    as (E & Ftgt & Ltgt);
    [subst s3|intros x y s1' Hx; by apply padded_row_spec in Hx].
  apply mbind_inv in H as (tgt_nums & s4 & Hst & H).
  apply mlift_inv in Hst as [Hst E]. simpl in Hst, E. subst s4.
  apply stack_inv in Hst. subst tgt_nums.
  apply mbind_inv in H as (limit & s5 & Hlim & H).
  destruct (Vocab.size_decoding (Manager.vocab self)); [|discriminate].
  injection Hlim as E1 E2. subst limit s5.
  apply mbind_inv in H as (unk & s6 & Hunk & H).
  apply on_vocab_token in Hunk as [E _]. subst s6.
  apply mbind_inv in H as (pad & s7 & Hpad & H).
  apply on_vocab_token in Hpad as [E Hpad]. subst s7.
  injection H as E1 E2. subst b self'. simpl.
  repeat split; try done.
  - apply Forall_fmap. eapply Forall_impl; [exact Ftgt|].
    intros r Hr. simpl. by rewrite length_map.
  - eauto.
Qed.

Lemma measure_spec fuel self unbatched i s t bs chunk ms mt :
  Manager.measure fuel self unbatched i s t = Ok (bs, chunk, ms, mt) ->
  chunk <> [] /\
  chunk = py_slice unbatched i (i + bs) /\
  ms = list_max (map (fun x => length (Manager.src_words x)) chunk) /\
  mt = list_max (map (fun x => length (Manager.tgt_words x)) chunk).
Proof.
  revert s t. induction fuel as [|fuel IH]; intros s t H; [discriminate|].
  cbn [Manager.measure] in H.
  destruct (_ =? 0) in H; [discriminate|].
  set (bs' := Manager.batch_size self / (Z.of_nat (Nat.max s t) * 8) * 8) in *.
  destruct (py_slice unbatched i (i + bs')) as [|e chunk'] eqn:Hchunk;
    [discriminate|].
  destruct (_ && _) in H.
  - injection H as <- <- <- <-. rewrite Hchunk. done.
  - by apply IH in H.
Qed.

Lemma py_slice_subseteq {A} (l : list A) a b : py_slice l a b ⊆ l.
Proof.
  unfold py_slice, slice. etrans; [apply subseteq_drop|apply subseteq_take].
Qed.

Lemma buckets_Forall (P : Batch.t -> Prop) self fuel unbatched :
  (forall chunk b s',
     chunk <> [] -> chunk ⊆ unbatched ->
     Manager.make_batch chunk
       (list_max (map (fun x => length (Manager.src_words x)) chunk))
       (list_max (map (fun x => length (Manager.tgt_words x)) chunk))
       self = Ok (b, s') ->
     P b) ->
  forall i bs batched res self',
    Forall P batched ->
    Manager.buckets fuel unbatched i bs batched self = Ok (res, self') ->
    self' = self /\ Forall P res.
Proof.
  intros HP. induction fuel as [|fuel IH];
    intros i bs batched res self' Hacc H; [discriminate|].
  cbn [Manager.buckets] in H.
  destruct (negb _) in H.
  { injection H as <- <-. done. }
  apply mbind_inv in H as (first & s1 & Hfirst & H).
  apply mlift_inv in Hfirst as [_ E]. simpl in E. subst s1.
  apply mbind_inv in H as ([[[bs' chunk] ms] mt] & s2 & Hm & H).
  apply mlift_inv in Hm as [Hm E]. cbn [fst snd] in Hm, E. subst s2.
  apply measure_spec in Hm as (Hne & Hchunk & -> & ->).
  apply mbind_inv in H as (b & s3 & Hb & H).
  pose proof (make_batch_spec _ _ _ _ _ _ Hb) as [E _]. subst s3.
  apply IH in H; [done|].
  apply Forall_app. split; [done|]. constructor; [|constructor].
  eapply HP; [exact Hne| |exact Hb].
  rewrite Hchunk. apply py_slice_subseteq.
Qed.

Lemma batch_data_Forall (P : Batch.t -> Prop) self data unbatched :
  Manager.read_lines self data [] = Ok unbatched ->
  (forall chunk b s',
     chunk <> [] -> chunk ⊆ sort_desc Manager.sort_key unbatched ->
     Manager.make_batch chunk
       (list_max (map (fun x => length (Manager.src_words x)) chunk))
       (list_max (map (fun x => length (Manager.tgt_words x)) chunk))
       self = Ok (b, s') ->
     P b) ->
  forall batches self',
    Manager.batch_data data self = Ok (batches, self') ->
    self' = self /\ Forall P batches.
Proof.
  intros Hread HP batches self' H. unfold Manager.batch_data in H.
  apply mbind_inv in H as (u & s1 & Hu & H).
  rewrite Hread in Hu. injection Hu as <- <-.
  eapply buckets_Forall in H; [exact H|exact HP|constructor].
Qed.

Lemma batch_data_read self data batches self' :
  Manager.batch_data data self = Ok (batches, self') ->
  exists unbatched, Manager.read_lines self data [] = Ok unbatched.
Proof.
  unfold Manager.batch_data. intros H.
  apply mbind_inv in H as (u & s1 & Hu & _).
  apply mlift_inv in Hu as [Hu _]. eauto.
Qed.

Lemma ceil8_mod n : (ceil8 n mod 8 = 0)%nat.
Proof. unfold ceil8. apply Nat.Div0.mod_mul. Qed.

Lemma ceil8_ge n : (n <= ceil8 n)%nat.
Proof.
  unfold ceil8. pose proof (Nat.div_mod_eq (n + 7) 8).
  pose proof (Nat.mod_upper_bound (n + 7) 8). lia.
Qed.

Lemma list_max_ge (l : list nat) x : x ∈ l -> (x <= list_max l)%nat.
Proof.
  induction l as [|y l IH]; intros H.
  - by apply elem_of_nil in H.
  - unfold list_max in *. simpl.
    apply elem_of_cons in H as [->|H]; [lia|].
    apply IH in H. lia.
Qed.

Lemma mmap_state_Forall2 {S A B} (f : A -> M S B) (P : A -> Prop)
    (R : A -> B -> Prop) l s ys s' :
  (forall x y s1, P x -> f x s = Ok (y, s1) -> s1 = s /\ R x y) ->
  Forall P l ->
  mmap f l s = Ok (ys, s') ->
  s' = s /\ Forall2 R l ys.
Proof.
  intros Hf HP. revert ys s'.
  induction HP as [|x l Px _ IH]; intros ys s' H.
  - injection H as <- <-. split; [done|constructor].
  - rewrite mmap_cons in H.
    apply mbind_inv in H as (y & s1 & Hy & H).
    apply Hf in Hy as [-> Ry]; [|done].
    apply mbind_inv in H as (ys' & s2 & Hys & H).
    apply IH in Hys as (-> & Rys). injection H as <- <-.
    split; [done|]. by constructor.
Qed.

Lemma padded_row_content width words self row self' :
  Manager.padded_row width words self = Ok (row, self') ->
  (length words <= width)%nat ->
  exists nums pad,
    Vocab.numberize words (Manager.vocab self) = Ok (nums, Manager.vocab self) /\
    Vocab.word_to_num (Manager.vocab self) !! "<PAD>" = Some pad /\
    row = nums ++ replicate (width - length words) pad.
Proof.
  unfold Manager.padded_row. intros H Hle.
  apply mbind_inv in H as (nums & s1 & Hn & H).
  apply on_vocab_inv in Hn as (v' & Hn & ->).
  pose proof (numberize_spec _ _ _ _ Hn) as [-> Hlen].
  rewrite set_vocab_same in H.
  apply mbind_inv in H as (pad & s2 & Hp & H).
  apply on_vocab_token in Hp as [-> Hp].
  apply mlift_inv in H as [H _]. simpl in H.
  exists nums, pad. split; [done|]. split; [done|].
  unfold pad_right in H.
  destruct (Z.leb_spec 0 (Z.of_nat width - Z.of_nat (length words))); [|lia].
  injection H as <-. f_equal. f_equal. lia.
Qed.

Lemma ceil8_lt n : (ceil8 n < n + 8)%nat.
Proof.
  unfold ceil8. pose proof (Nat.div_mod_eq (n + 7) 8).
  pose proof (Nat.mod_upper_bound (n + 7) 8). lia.
Qed.

(** The rows of a batch: the ids of each example followed by [<PAD>] up
    to the width; in the target rows every id from the decoding size on is
    then replaced by [<UNK>]. *)
Lemma make_batch_rows chunk ms mt self b self' :
  Manager.make_batch chunk ms mt self = Ok (b, self') ->
  Forall (fun e => (length (Manager.src_words e) <= ms)%nat /\
                   (length (Manager.tgt_words e) <= mt)%nat) chunk ->
  exists pad limit unk,
    Vocab.word_to_num (Manager.vocab self) !! "<PAD>" = Some pad /\
    Vocab.size_decoding (Manager.vocab self) = Some limit /\
    Vocab.word_to_num (Manager.vocab self) !! "<UNK>" = Some unk /\
    Forall2 (fun e row =>
               exists ids,
                 Vocab.numberize (Manager.src_words e) (Manager.vocab self)
                   = Ok (ids, Manager.vocab self) /\
                 row = ids ++ replicate
                         (ceil8 ms - length (Manager.src_words e)) pad)
            chunk (Batch.src_nums b) /\
    Forall2 (fun e row =>
               exists ids,
                 Vocab.numberize (Manager.tgt_words e) (Manager.vocab self)
                   = Ok (ids, Manager.vocab self) /\
                 row = map (fun x => if limit <=? x then unk else x)
                           (ids ++ replicate
                              (ceil8 mt - length (Manager.tgt_words e)) pad))
            chunk (Batch.tgt_nums b).
Proof.
  unfold Manager.make_batch. intros H Hlen.
  apply mbind_inv in H as (src_rows & s1 & Hsrc & H).
  apply (mmap_state_Forall2 _
           (fun e => (length (Manager.src_words e) <= ms)%nat /\
                     (length (Manager.tgt_words e) <= mt)%nat)
           (fun e row =>
              exists ids pad,
                Vocab.numberize (Manager.src_words e) (Manager.vocab self)
                  = Ok (ids, Manager.vocab self) /\
                Vocab.word_to_num (Manager.vocab self) !! "<PAD>" = Some pad /\
                row = ids ++ replicate
                        (ceil8 ms - length (Manager.src_words e)) pad)
           _ _ _ _) in Hsrc as [E Hsrows]; [subst s1| |exact Hlen].
  2:{ intros x y s1' [Hx _] Hrow.
      split; [by apply padded_row_spec in Hrow as [-> _]|].
      apply padded_row_content in Hrow; [done|].
      etrans; [exact Hx|apply ceil8_ge]. }
  apply mbind_inv in H as (src_nums & s2 & Hst & H).
  apply mlift_inv in Hst as [Hst E]. simpl in Hst, E. subst s2.
  apply stack_inv in Hst. subst src_nums.
  apply mbind_inv in H as (tgt_rows & s3 & Htgt & H).
  apply (mmap_state_Forall2 _
           (fun e => (length (Manager.src_words e) <= ms)%nat /\
                     (length (Manager.tgt_words e) <= mt)%nat)
           (fun e row =>
              exists ids pad,
                Vocab.numberize (Manager.tgt_words e) (Manager.vocab self)
                  = Ok (ids, Manager.vocab self) /\
                Vocab.word_to_num (Manager.vocab self) !! "<PAD>" = Some pad /\
                row = ids ++ replicate
                        (ceil8 mt - length (Manager.tgt_words e)) pad)
           _ _ _ _) in Htgt as [E Htrows]; [subst s3| |exact Hlen].
  2:{ intros x y s1' [_ Hx] Hrow.
      split; [by apply padded_row_spec in Hrow as [-> _]|].
      apply padded_row_content in Hrow; [done|].
      etrans; [exact Hx|apply ceil8_ge]. }
  apply mbind_inv in H as (tgt_nums & s4 & Hst & H).
  apply mlift_inv in Hst as [Hst E]. simpl in Hst, E. subst s4.
  apply stack_inv in Hst. subst tgt_nums.
  apply mbind_inv in H as (limit & s5 & Hlim & H).
  destruct (Vocab.size_decoding (Manager.vocab self)) as [lim|] eqn:El;
    [|discriminate].
  injection Hlim as E1 E2. subst limit s5.
  apply mbind_inv in H as (unk & s6 & Hunk & H).
  apply on_vocab_token in Hunk as [E Hunk]. subst s6.
  apply mbind_inv in H as (pad & s7 & Hpad & H).
  apply on_vocab_token in Hpad as [E Hpad]. subst s7.
  injection H as E1 E2. subst b self'. simpl.
  exists pad, lim, unk. do 3 (split; [done|]). split.
  - eapply Forall2_impl; [exact Hsrows|].
    intros e row (ids & pad0 & Hn & Hp & ->).
    rewrite Hpad in Hp. injection Hp as <-. by exists ids.
  - apply Forall2_fmap_r.
    eapply Forall2_impl; [exact Htrows|].
    intros e row (ids & pad0 & Hn & Hp & ->).
    rewrite Hpad in Hp. injection Hp as <-. by exists ids.
Qed.

(** C9: every batch that [batch_data] produces is built from a non-empty
    run [chunk] of accepted examples.  Its source rows share one length
    [Ls] and its target rows share one length [Lt]; [Ls] is the multiple
    of 8 next to the longest source sequence of the run (the least one not
    below it), [Lt] likewise for the targets.  Row by row, a source row is
    the ids of the example's source sequence followed by [<PAD>] up to
    [Ls], and a target row is the ids of its target sequence followed by
    [<PAD>] up to [Lt], with every id from the decoding size on replaced by
    [<UNK>]. *)
Theorem C9_padded_lengths_multiple_of_8 self data batches self' :
  Manager.batch_data data self = Ok (batches, self') ->
  exists unbatched,
    Manager.read_lines self data [] = Ok unbatched /\
    Forall (fun b =>
      exists (chunk : list Manager.example) (Ls Lt : nat)
             (pad limit unk : Z),
        chunk <> [] /\
        chunk ⊆ sort_desc Manager.sort_key unbatched /\
        (Ls mod 8 = 0)%nat /\ (Lt mod 8 = 0)%nat /\
        (list_max (map (fun e => length (Manager.src_words e)) chunk) <= Ls
         < list_max (map (fun e => length (Manager.src_words e)) chunk) + 8)%nat
        /\
        (list_max (map (fun e => length (Manager.tgt_words e)) chunk) <= Lt
         < list_max (map (fun e => length (Manager.tgt_words e)) chunk) + 8)%nat
        /\
        Forall (fun row => length row = Ls) (Batch.src_nums b) /\
        Forall (fun row => length row = Lt) (Batch.tgt_nums b) /\
        Vocab.word_to_num (Manager.vocab self) !! "<PAD>" = Some pad /\
        Vocab.size_decoding (Manager.vocab self) = Some limit /\
        Vocab.word_to_num (Manager.vocab self) !! "<UNK>" = Some unk /\
        Forall2 (fun e row =>
                   exists ids,
                     Vocab.numberize (Manager.src_words e)
                       (Manager.vocab self) = Ok (ids, Manager.vocab self) /\
                     row = ids ++ replicate
                             (Ls - length (Manager.src_words e)) pad)
                chunk (Batch.src_nums b) /\
        Forall2 (fun e row =>
                   exists ids,
                     Vocab.numberize (Manager.tgt_words e)
                       (Manager.vocab self) = Ok (ids, Manager.vocab self) /\
                     row = map (fun x => if limit <=? x then unk else x)
                               (ids ++ replicate
                                  (Lt - length (Manager.tgt_words e)) pad))
                chunk (Batch.tgt_nums b))
      batches.
Proof.
  intros H. destruct (batch_data_read _ _ _ _ H) as [unbatched Hread].
  exists unbatched. split; [exact Hread|].
  eapply batch_data_Forall in H as [_ H]; [exact H|exact Hread|].
  intros chunk b s' Hne Hsub Hb.
  pose proof (make_batch_spec _ _ _ _ _ _ Hb) as (_ & Fsrc & _ & Ftgt & _).
  apply make_batch_rows in Hb
    as (pad & limit & unk & Hpad & Hlim & Hunk & Hsrows & Htrows).
  2:{ apply Forall_forall. intros e He.
      split; apply list_max_ge, list_elem_of_fmap; eauto. }
  exists chunk,
    (ceil8 (list_max (map (fun e => length (Manager.src_words e)) chunk))),
    (ceil8 (list_max (map (fun e => length (Manager.tgt_words e)) chunk))),
    pad, limit, unk.
  do 2 (split; [done|]).
  do 2 (split; [apply ceil8_mod|]).
  do 2 (split; [split; [apply ceil8_ge|apply ceil8_lt]|]).
  do 5 (split; [done|]). done.
Qed.

Lemma C9_padded_lengths_multiple_of_8_witness :
  exists batches unbatched,
    Manager.batch_data demo_data demo_manager = Ok (batches, demo_manager) /\
    Manager.read_lines demo_manager demo_data [] = Ok unbatched /\
    Forall (fun b =>
      exists (chunk : list Manager.example) (Ls Lt : nat)
             (pad limit unk : Z),
        chunk <> [] /\
        chunk ⊆ sort_desc Manager.sort_key unbatched /\
        (Ls mod 8 = 0)%nat /\ (Lt mod 8 = 0)%nat /\
        (list_max (map (fun e => length (Manager.src_words e)) chunk) <= Ls
         < list_max (map (fun e => length (Manager.src_words e)) chunk) + 8)%nat
        /\
        (list_max (map (fun e => length (Manager.tgt_words e)) chunk) <= Lt
         < list_max (map (fun e => length (Manager.tgt_words e)) chunk) + 8)%nat
        /\
        Forall (fun row => length row = Ls) (Batch.src_nums b) /\
        Forall (fun row => length row = Lt) (Batch.tgt_nums b) /\
        Vocab.word_to_num (Manager.vocab demo_manager) !! "<PAD>" = Some pad /\
        Vocab.size_decoding (Manager.vocab demo_manager) = Some limit /\
        Vocab.word_to_num (Manager.vocab demo_manager) !! "<UNK>" = Some unk /\
        Forall2 (fun e row =>
                   exists ids,
                     Vocab.numberize (Manager.src_words e)
                       (Manager.vocab demo_manager)
                     = Ok (ids, Manager.vocab demo_manager) /\
                     row = ids ++ replicate
                             (Ls - length (Manager.src_words e)) pad)
                chunk (Batch.src_nums b) /\
        Forall2 (fun e row =>
                   exists ids,
                     Vocab.numberize (Manager.tgt_words e)
                       (Manager.vocab demo_manager)
                     = Ok (ids, Manager.vocab demo_manager) /\
                     row = map (fun x => if limit <=? x then unk else x)
                               (ids ++ replicate
                                  (Lt - length (Manager.tgt_words e)) pad))
                chunk (Batch.tgt_nums b))
      batches.
Proof.
  assert (Manager.batch_data demo_data demo_manager
          = Ok ([demo_batch], demo_manager)) as H by (vm_compute; reflexivity).
  destruct (C9_padded_lengths_multiple_of_8 demo_manager demo_data
              [demo_batch] demo_manager H) as (unbatched & Hread & HF).
  exists [demo_batch], unbatched. split; [exact H|]. split; [exact Hread|].
  exact HF.
Defined.

(** *** The recorded spans *)

Lemma drop_last_snoc {A} (l : list A) x : drop_last (l ++ [x]) = l.
Proof.
  unfold drop_last. rewrite length_app. simpl.
  replace (length l + 1 - 1)%nat with (length l) by lia.
  by rewrite take_app_length.
Qed.

Lemma chain_snoc a spans b c :
  chain a spans b -> (b <= c)%nat -> chain a (spans ++ [(b, c)]) c.
Proof.
  revert a. induction spans as [|s spans IH]; intros a H Hle; simpl in *.
  - subst. auto.
  - destruct H as (H1 & H2 & H3). auto.
Qed.

Lemma scan_inv fuel self src_len i words lemmas senses r :
  Manager.scan fuel self src_len i words lemmas senses = Ok r ->
  length lemmas = length senses ->
  chain src_len senses (length words) ->
  length (snd (fst r)) = length (snd r) /\
  chain src_len (snd r) (length (fst (fst r))).
Proof.
  revert i words lemmas senses.
  induction fuel as [|fuel IH]; intros i words lemmas senses H Hlen Hch;
    [discriminate|].
  cbn [Manager.scan] in H.
  destruct (negb _) in H.
  { injection H as <-. done. }
  apply rbind_inv in H as (w & _ & H).
  apply rbind_inv in H as ([i' lemma] & _ & H). cbn [fst snd] in H.
  destruct (_ && _) in H; [|by eapply IH].
  apply rbind_inv in H as (f & _ & H).
  destruct (f <=? _) in H; [|by eapply IH].
  apply rbind_inv in H as (d & _ & H).
  destruct (_ >? _) in H.
  - injection H as <-. cbn [fst snd]. rewrite !drop_last_snoc. done.
  - eapply IH; [exact H| |].
    + rewrite !length_app. simpl. lia.
    + rewrite length_app. apply chain_snoc; [done|lia].
Qed.

Lemma read_line_ok self line e :
  Manager.read_line self line = Ok (Some e) -> example_ok e.
Proof.
  unfold Manager.read_line.
  destruct (split_on tab line) as [|src [|tgt [|? ?]]]; try discriminate.
  destruct (_ || _); [discriminate|].
  destruct (_ >? _); [discriminate|].
  destruct (_ >? _); [discriminate|].
  intros H. apply rbind_inv in H as (r & Hscan & H). injection H as <-.
  apply scan_inv in Hscan as [Hlen Hch]; [| reflexivity | reflexivity].
  split; [exact Hlen|]. eexists. split; [|exact Hch]. simpl. lia.
Qed.

Lemma read_lines_ok self data acc unbatched :
  Forall example_ok acc ->
  Manager.read_lines self data acc = Ok unbatched ->
  Forall example_ok unbatched.
Proof.
  revert acc. induction data as [|line data IH]; intros acc Hacc H.
  - injection H as <-. done.
  - simpl in H. apply rbind_inv in H as (r & Hr & H).
    eapply IH; [|exact H]. destruct r as [e|]; [|done].
    apply Forall_app. split; [done|]. constructor; [|constructor].
    by eapply read_line_ok.
Qed.

Lemma insert_desc_subseteq {A} (key : A -> nat * nat) x l :
  insert_desc key x l ⊆ x :: l.
Proof.
  induction l as [|y l IH]; simpl; [done|].
  destruct (key_lt _ _); [|done].
  intros z Hz. apply elem_of_cons in Hz as [->|Hz].
  - right. left.
  - apply IH in Hz. apply elem_of_cons in Hz as [->|Hz].
    + left.
    + right. by right.
Qed.

Lemma sort_desc_subseteq {A} (key : A -> nat * nat) l :
  sort_desc key l ⊆ l.
Proof.
  induction l as [|x l IH]; simpl; [done|].
  etrans; [apply insert_desc_subseteq|].
  intros z Hz. apply elem_of_cons in Hz as [->|Hz]; [left|right; by apply IH].
Qed.

(** *** Id 0 after loading a vocabulary file *)

Lemma add_zero_is_pad0 word v u v' :
  zero_is_pad0 v -> Vocab.add word v = Ok (u, v') -> zero_is_pad0 v'.
Proof.
  intros [Hsz Hz] H. rewrite add_spec in H. injection H as _ <-.
  unfold zero_is_pad0, Vocab.size in *; simpl. split.
  - rewrite length_app. lia.
  - intros w. destruct (decide (word = w)) as [->|Hne].
    + rewrite lookup_insert_eq. intros [= E]. lia.
    + rewrite lookup_insert_ne by done. apply Hz.
Qed.

Lemma add_pads_zero_is_pad0 n off i v u v' :
  zero_is_pad0 v -> Vocab.add_pads off i n v = Ok (u, v') -> zero_is_pad0 v'.
Proof.
  revert i v. induction n as [|n IH]; intros i v Hv H; simpl in H.
  - by injection H as _ <-.
  - apply mbind_inv in H as (a & s' & Ha & H).
    eapply IH; [|exact H]. by eapply add_zero_is_pad0.
Qed.

Lemma add_first_zero_is_pad0 u v' :
  Vocab.add "<PAD 0>" Vocab.empty = Ok (u, v') -> zero_is_pad0 v'.
Proof.
  rewrite add_spec. intros [= _ <-]. split; [reflexivity|].
  intros w; simpl. destruct (decide ("<PAD 0>" = w)) as [<-|Hne]; [done|].
  rewrite lookup_insert_ne by done. rewrite lookup_empty. discriminate.
Qed.

Lemma from_file_zero_is_pad0 vocab_file u v' :
  Vocab._from_file vocab_file Vocab.empty = Ok (u, v') -> zero_is_pad0 v'.
Proof.
  unfold Vocab._from_file.
  destruct (split_on _ _) as [|start [|stop [|? ?]]]; try discriminate.
  intros H.
  apply mbind_inv in H as (e & s0 & He & H).
  apply mlift_inv in He as [_ E]; simpl in E; subst s0.
  apply mbind_inv in H as (s & s0 & Hs & H).
  apply mlift_inv in Hs as [_ E]; simpl in E; subst s0.
  apply mbind_inv in H as (? & v1 & H1 & H).
  assert (zero_is_pad0 v1) as Hv1.
  { pose proof (Z.mod_pos_bound (e - s) 8 ltac:(lia)) as Hm8.
    destruct (Z.to_nat (8 - (e - s) mod 8)) as [|n] eqn:En; [lia|].
    simpl in H1. apply mbind_inv in H1 as (? & v0 & Hadd0 & H1).
    eapply add_pads_zero_is_pad0; [|exact H1].
    eapply add_first_zero_is_pad0. exact Hadd0. }
  apply mbind_inv in H as (? & v2 & H2 & H).
  assert (zero_is_pad0 v2) as Hv2.
  { clear H H1. revert x0 v1 v2 Hv1 H2.
    induction (tail vocab_file) as [|l ls IH]; intros ys v1 v2 Hv1 H2.
    - by injection H2 as _ <-.
    - rewrite mmap_cons in H2.
      apply mbind_inv in H2 as (? & v3 & H3 & H2).
      apply mbind_inv in H3 as (w & v4 & Hw & H3).
      apply mlift_inv in Hw as [_ E]; simpl in E; subst v4.
      apply mbind_inv in H2 as (? & v5 & H5 & H2).
      injection H2 as _ <-.
      eapply IH; [|exact H5]. by eapply add_zero_is_pad0. }
  apply mbind_inv in H as (? & v3 & H3 & H).
  injection H as _ <-.
  apply add_pads_zero_is_pad0 in H3; [|done].
  destruct H3 as [Hsz Hz]. split; [exact Hsz|exact Hz].
Qed.

Lemma init_pad_nonzero vocab_file v pad :
  Vocab.init (Some vocab_file) = Ok v ->
  Vocab.word_to_num v !! "<PAD>" = Some pad -> pad <> 0.
Proof.
  unfold Vocab.init. intros H Hpad ->.
  apply rbind_inv in H as ([u v'] & H & E). injection E as <-.
  apply from_file_zero_is_pad0 in H as [_ Hz].
  apply Hz in Hpad. discriminate.
Qed.

(** *** The mask of several pairs and several examples *)

Lemma mark_pairs_ok Ls I ps m :
  has_mat m 0 I -> has_mat m 1 I ->
  exists m', Batch.mark_pairs Ls I m ps = Ok m'.
Proof.
  revert m. induction ps as [|p ps IH]; intros m H0 H1; simpl; [eauto|].
  destruct (mark_pair_ok Ls I m p H0 H1) as [m1 E]. rewrite E. simpl.
  apply IH; by apply (mark_pair_has_mat _ _ _ _ _ _ _ E).
Qed.

Lemma mark_pairs_has_mat Ls I ps m m' l i :
  Batch.mark_pairs Ls I m ps = Ok m' -> has_mat m' l i <-> has_mat m l i.
Proof.
  revert m. induction ps as [|p ps IH]; intros m H; simpl in H.
  - by injection H as <-.
  - apply rbind_inv in H as (m1 & E & H).
    rewrite (IH _ H). by apply (mark_pair_has_mat _ _ _ _ _ _ _ E).
Qed.

Lemma mark_pairs_entry Ls I ps m m' l i r c :
  Batch.mark_pairs Ls I m ps = Ok m' ->
  entry m' l i r c =
  if bool_decide (i = I)
  then match l with
       | 0%nat => fold_pairs (pair0 Ls) ps r c <$> entry m l i r c
       | 1%nat => fold_pairs (pair1 Ls) ps r c <$> entry m l i r c
       | _ => entry m l i r c
       end
  else entry m l i r c.
Proof.
  revert m. induction ps as [|p ps IH]; intros m H; simpl in H.
  - injection H as <-. case_bool_decide; [|done].
    destruct l as [|[|l]]; [| |done];
      unfold fold_pairs; simpl; by destruct (entry m _ i r c).
  - apply rbind_inv in H as (m1 & E & H).
    rewrite (IH _ H), (mark_pair_entry _ _ _ _ _ l i r c E).
    case_bool_decide; [|done].
    destruct l as [|[|l]]; [| |done];
      unfold fold_pairs; simpl; by destruct (entry m _ i r c).
Qed.

Lemma mark_items_ok Ls items i0 m :
  (forall k, (k < length items)%nat ->
             has_mat m 0 (i0 + k) /\ has_mat m 1 (i0 + k)) ->
  exists m', Batch.mark_items Ls i0 m items = Ok m'.
Proof.
  revert i0 m. induction items as [|[lem sen] items IH]; intros i0 m Hm;
    simpl; [eauto|].
  destruct (Hm 0%nat) as [H0 H1]; [simpl; lia|].
  rewrite Nat.add_0_r in H0, H1.
  destruct (mark_pairs_ok Ls i0 (zip lem sen) m H0 H1) as [m1 E].
  rewrite E. simpl. apply IH. intros k Hk.
  rewrite !(mark_pairs_has_mat _ _ _ _ _ _ _ E).
  replace (S i0 + k)%nat with (i0 + S k)%nat by lia.
  apply Hm. simpl. lia.
Qed.

Lemma mark_items_entry_lt Ls items i0 m m' l e r c :
  Batch.mark_items Ls i0 m items = Ok m' -> (e < i0)%nat ->
  entry m' l e r c = entry m l e r c.
Proof.
  revert i0 m. induction items as [|[lem sen] items IH]; intros i0 m H He;
    simpl in H.
  - by injection H as <-.
  - apply rbind_inv in H as (m1 & E & H).
    rewrite (IH _ _ H) by lia.
    rewrite (mark_pairs_entry _ _ _ _ _ l e r c E).
    rewrite bool_decide_eq_false_2 by lia. done.
Qed.

Lemma mark_items_entry_at Ls items i0 m m' k lem sen l r c :
  Batch.mark_items Ls i0 m items = Ok m' ->
  items !! k = Some (lem, sen) ->
  entry m' l (i0 + k) r c =
  match l with
  | 0%nat => fold_pairs (pair0 Ls) (zip lem sen) r c <$> entry m l (i0 + k) r c
  | 1%nat => fold_pairs (pair1 Ls) (zip lem sen) r c <$> entry m l (i0 + k) r c
  | _ => entry m l (i0 + k) r c
  end.
Proof.
  revert i0 m k. induction items as [|[lem' sen'] items IH];
    intros i0 m k H Hk; [done|].
  simpl in H. apply rbind_inv in H as (m1 & E & H).
  destruct k as [|k]; simpl in Hk.
  - injection Hk as -> ->. rewrite Nat.add_0_r.
    rewrite (mark_items_entry_lt _ _ _ _ _ _ _ _ _ H) by lia.
    rewrite (mark_pairs_entry _ _ _ _ _ l i0 r c E).
    rewrite bool_decide_eq_true_2 by done. done.
  - replace (i0 + S k)%nat with (S i0 + k)%nat by lia.
    rewrite (IH _ _ _ H Hk).
    rewrite (mark_pairs_entry _ _ _ _ _ l (S i0 + k)%nat r c E).
    rewrite bool_decide_eq_false_2 by lia. done.
Qed.

(** *** The pattern of a chain of sense spans *)

Lemma chain_bounds a spans b s :
  chain a spans b -> s ∈ spans ->
  (a <= fst s)%nat /\ (fst s <= snd s)%nat /\ (snd s <= b)%nat.
Proof.
  revert a. induction spans as [|s' spans IH]; intros a H Hs.
  - by apply elem_of_nil in Hs.
  - simpl in H. destruct H as (H1 & H2 & H3).
    assert (snd s' <= b)%nat as Hb.
    { clear -H3. revert H3. generalize (snd s'). clear.
      induction spans as [|t spans IH]; intros a H; simpl in H.
      - lia.
      - destruct H as (_ & ? & H). apply IH in H. lia. }
    apply elem_of_cons in Hs as [->|Hs].
    + lia.
    + apply (IH _ H3) in Hs. lia.
Qed.

Lemma fold_pairs0_out Ls ps r c y :
  (forall p, p ∈ ps -> Batch.in_span c (snd p) = false) ->
  fold_pairs (pair0 Ls) ps r c y = y.
Proof.
  revert y. induction ps as [|q ps IH]; intros y H; [done|].
  unfold fold_pairs in *. simpl. rewrite IH.
  - unfold pair0. rewrite (H q) by left. by rewrite !andb_false_r.
  - intros p Hp. apply H. by right.
Qed.

Lemma fold_pairs1_out Ls ps r c y :
  (forall p, p ∈ ps -> Batch.in_span r (snd p) = false) ->
  fold_pairs (pair1 Ls) ps r c y = y.
Proof.
  revert y. induction ps as [|q ps IH]; intros y H; [done|].
  unfold fold_pairs in *. simpl. rewrite IH.
  - unfold pair1. rewrite (H q) by left. done.
  - intros p Hp. apply H. by right.
Qed.

Lemma in_span_true k s :
  Batch.in_span k s = true <-> (fst s <= k < snd s)%nat.
Proof.
  unfold Batch.in_span. rewrite andb_true_iff, Nat.leb_le, Nat.ltb_lt. done.
Qed.

Lemma in_span_false k s :
  Batch.in_span k s = false <-> ~ (fst s <= k < snd s)%nat.
Proof. rewrite <- in_span_true. symmetry. apply not_true_iff_false. Qed.

(** No span of a chain that starts after [k] contains [k]. *)
Lemma chain_after a ps b k :
  chain a (map snd ps) b -> (k < a)%nat ->
  forall p : Batch.span * Batch.span,
    p ∈ ps -> Batch.in_span k (snd p) = false.
Proof.
  intros Hch Hk p Hp. apply in_span_false.
  destruct (chain_bounds a (map snd ps) b (snd p) Hch) as (? & ? & ?).
  { apply list_elem_of_fmap. eauto. }
  lia.
Qed.

(** In a chain of sense spans, the columns of one pair's sense span carry
    that pair's pattern in layer 0 ... *)
Lemma fold_pairs0_in Ls a ps b p r c y :
  chain a (map snd ps) b -> p ∈ ps ->
  Batch.in_span c (snd p) = true -> (r < Ls)%nat ->
  fold_pairs (pair0 Ls) ps r c y =
  if Batch.in_span r (fst p) then 0 else 1.
Proof.
  revert a y. induction ps as [|q ps IH]; intros a y Hch Hp Hc Hr.
  - by apply elem_of_nil in Hp.
  - simpl in Hch. destruct Hch as (Hq1 & Hq2 & Hch).
    change (fold_pairs (pair0 Ls) (q :: ps) r c y)
      with (fold_pairs (pair0 Ls) ps r c (pair0 Ls q r c y)).
    destruct (Batch.in_span c (snd q)) eqn:Hcq.
    + apply in_span_true in Hcq.
      rewrite fold_pairs0_out
        by (eapply chain_after; [exact Hch|lia]).
      apply elem_of_cons in Hp as [->|Hp].
      * unfold pair0. rewrite (in_span_full r) by done.
        rewrite (proj2 (in_span_true c (snd q))) by done.
        rewrite !andb_true_r. by destruct (Batch.in_span r (fst q)).
      * pose proof (chain_after _ _ _ c Hch ltac:(lia) p Hp). congruence.
    + apply elem_of_cons in Hp as [->|Hp]; [congruence|].
      by eapply IH.
Qed.

(** ... and the rows of its sense span carry its pattern in layer 1. *)
Lemma fold_pairs1_in Ls a ps b p r c y :
  chain a (map snd ps) b -> p ∈ ps ->
  Batch.in_span r (snd p) = true -> (c < Ls)%nat ->
  fold_pairs (pair1 Ls) ps r c y =
  if Batch.in_span c (snd p) then 0 else 1.
Proof.
  revert a y. induction ps as [|q ps IH]; intros a y Hch Hp Hrp Hc.
  - by apply elem_of_nil in Hp.
  - simpl in Hch. destruct Hch as (Hq1 & Hq2 & Hch).
    change (fold_pairs (pair1 Ls) (q :: ps) r c y)
      with (fold_pairs (pair1 Ls) ps r c (pair1 Ls q r c y)).
    destruct (Batch.in_span r (snd q)) eqn:Hrq.
    + apply in_span_true in Hrq.
      rewrite fold_pairs1_out
        by (eapply chain_after; [exact Hch|lia]).
      apply elem_of_cons in Hp as [->|Hp].
      * unfold pair1. rewrite (in_span_full c) by done.
        rewrite (proj2 (in_span_true r (snd q))) by done.
        simpl. by destruct (Batch.in_span c (snd q)).
      * pose proof (chain_after _ _ _ r Hch ltac:(lia) p Hp). congruence.
    + apply elem_of_cons in Hp as [->|Hp]; [congruence|].
      by eapply IH.
Qed.

(** *** Batches built by [batch_data] *)

Lemma batch_data_batch_ok self vocab_file data batches self' :
  Vocab.init (Some vocab_file) = Ok (Manager.vocab self) ->
  Manager.batch_data data self = Ok (batches, self') ->
  Forall batch_ok batches.
Proof.
  intros Hv H. destruct (batch_data_read _ _ _ _ H) as [unbatched Hread].
  eapply batch_data_Forall in H as [_ H]; [exact H|exact Hread|].
  intros chunk b s' Hne Hsub Hb.
  apply make_batch_spec in Hb
    as (_ & Fsrc & Lsrc & _ & Hdd & pad & Hpad & Hign).
  assert (ncols (Batch.src_nums b) =
          ceil8 (list_max (map (fun x => length (Manager.src_words x)) chunk)))
    as Hcols.
  { destruct (Batch.src_nums b) as [|row rows].
    - destruct chunk; [done|discriminate].
    - simpl. by inversion Fsrc. }
  split; [by rewrite Hcols|]. split.
  - eexists. split; [exact Hdd|]. split; [by rewrite length_map|].
    apply Forall_fmap, Forall_forall. intros x Hx. simpl.
    assert (example_ok x) as [Hlen (n0 & Hn0 & Hch)].
    { apply read_lines_ok in Hread; [|constructor].
      rewrite Forall_forall in Hread. apply Hread.
      apply (sort_desc_subseteq Manager.sort_key). by apply Hsub. }
    split; [exact Hlen|]. exists n0, (length (Manager.src_words x)).
    split; [done|]. split; [done|]. rewrite Hcols.
    etrans; [|apply ceil8_ge]. apply list_max_ge.
    apply list_elem_of_fmap. eauto.
  - exists pad. split; [done|]. by eapply init_pad_nonzero.
Qed.

Lemma dict_mask_exhausted b pad :
  Batch.ignore_index b = Some pad -> pad <> 0 ->
  Batch.dict_mask (exhausted b) =
  Ok (Batch.zeros (Batch.size b) (ncols (Batch.src_nums b)), exhausted b).
Proof.
  intros Hign Hpad. rewrite dict_mask_unfold.
  - reflexivity.
  - unfold Batch.not_ignore_index, exhausted. simpl. rewrite Hign.
    by apply Z.eqb_neq.
Qed.

(** The first read of the mask of a batch built by [batch_data]. *)
Lemma dict_mask_first_read b :
  batch_ok b ->
  exists m1,
    Batch.dict_mask b = Ok (m1, exhausted b) /\
    forall e lem sen ab cd,
      recorded b !! e = Some (lem, sen) -> (ab, cd) ∈ zip lem sen ->
      (1 <= fst cd)%nat /\ (snd cd <= ncols (Batch.src_nums b))%nat /\
      (forall r c, (r < ncols (Batch.src_nums b))%nat ->
                   Batch.in_span c cd = true ->
         entry m1 0 e r c = Some (if Batch.in_span r ab then 0 else 1)) /\
      (forall r c, Batch.in_span r cd = true ->
                   (c < ncols (Batch.src_nums b))%nat ->
         entry m1 1 e r c = Some (if Batch.in_span c cd then 0 else 1)).
Proof.
  intros (Frows & (items & Hdd & Hlen & Fitems) & pad & Hign & Hpad).
  set (Ls := ncols (Batch.src_nums b)) in *.
  set (B := length (Batch.src_nums b)) in *.
  assert (Batch.not_ignore_index b = false) as Hni.
  { unfold Batch.not_ignore_index. rewrite Hign. by apply Z.eqb_neq. }
  pose proof (dict_mask_unfold b Hni) as Hun.
  fold Ls B in Hun. rewrite Hdd in Hun. cbn [Batch.iterate fst snd] in Hun.
  destruct (mark_items_ok Ls items 0 (Batch.zeros B Ls)) as [m1 Hm1].
  { intros k Hk. split; apply has_mat_zeros; simpl; lia. }
  rewrite Hm1 in Hun. cbn [rbind] in Hun.
  exists m1. split; [exact Hun|].
  intros e lem sen ab cd He Hp.
  unfold recorded in He. rewrite Hdd in He. cbn [Batch.iterate fst] in He.
  assert (e < B)%nat as HeB.
  { rewrite <- Hlen. eapply lookup_lt_Some. exact He. }
  rewrite Forall_forall in Fitems.
  destruct (Fitems (lem, sen)) as [Hl (n0 & n1 & Hn0 & Hch & Hn1)].
  { eapply list_elem_of_lookup_2. exact He. }
  cbn [fst snd] in Hl, Hch.
  assert (map snd (zip lem sen) = sen) as Hsnd by (apply snd_zip; lia).
  destruct (chain_bounds n0 sen n1 cd Hch) as (Hc1 & Hc2 & Hc3).
  { rewrite <- Hsnd. apply list_elem_of_fmap. by exists (ab, cd). }
  split; [lia|]. split; [lia|]. split.
  - intros r c Hr Hc.
    pose proof (mark_items_entry_at Ls items 0 _ _ e lem sen 0 r c Hm1 He)
      as Hent.
    cbn [Nat.add] in Hent. rewrite Hent.
    apply in_span_true in Hc as Hc'.
    rewrite entry_zeros by lia. cbn [fmap option_fmap option_map].
    f_equal.
    rewrite (fold_pairs0_in Ls n0 (zip lem sen) n1 (ab, cd)); try done.
    by rewrite Hsnd.
  - intros r c Hr Hc.
    pose proof (mark_items_entry_at Ls items 0 _ _ e lem sen 1 r c Hm1 He)
      as Hent.
    cbn [Nat.add] in Hent. rewrite Hent.
    apply in_span_true in Hr as Hr'.
    rewrite entry_zeros by lia. cbn [fmap option_fmap option_map].
    f_equal.
    rewrite (fold_pairs1_in Ls n0 (zip lem sen) n1 (ab, cd)); try done.
    by rewrite Hsnd.
Qed.

(** Outside the sense columns (layer 0) and the sense rows (layer 1) of
    an example the first read leaves the mask at 0. *)
Lemma dict_mask_first_read_elsewhere b m1 b1 e lem sen r c :
  batch_ok b -> Batch.dict_mask b = Ok (m1, b1) ->
  recorded b !! e = Some (lem, sen) ->
  (r < ncols (Batch.src_nums b))%nat -> (c < ncols (Batch.src_nums b))%nat ->
  ((forall cd, cd ∈ sen -> Batch.in_span c cd = false) ->
   entry m1 0 e r c = Some 0) /\
  ((forall cd, cd ∈ sen -> Batch.in_span r cd = false) ->
   entry m1 1 e r c = Some 0).
Proof.
  intros (Frows & (items & Hdd & Hlen & Fitems) & pad & Hign & Hpad)
         Hread He Hr Hc.
  set (Ls := ncols (Batch.src_nums b)) in *.
  set (B := length (Batch.src_nums b)) in *.
  assert (Batch.not_ignore_index b = false) as Hni.
  { unfold Batch.not_ignore_index. rewrite Hign. by apply Z.eqb_neq. }
  rewrite (dict_mask_unfold b Hni) in Hread.
  fold Ls B in Hread. rewrite Hdd in Hread.
  cbn [Batch.iterate fst snd] in Hread.
  apply rbind_inv in Hread as (m & Hm & E). injection E as <- _.
  unfold recorded in He. rewrite Hdd in He. cbn [Batch.iterate fst] in He.
  assert (e < B)%nat as HeB.
  { rewrite <- Hlen. eapply lookup_lt_Some. exact He. }
  assert (forall k,
             (forall cd, cd ∈ sen -> Batch.in_span k cd = false) ->
             forall p : Batch.span * Batch.span,
               p ∈ zip lem sen -> Batch.in_span k (snd p) = false) as Hout.
  { intros k Hk [ab cd] Hp. apply Hk. simpl.
    eapply elem_of_zip_r. exact Hp. }
  split; intros Hno.
  - pose proof (mark_items_entry_at Ls items 0 _ _ e lem sen 0 r c Hm He)
      as Hent.
    cbn [Nat.add] in Hent. rewrite Hent, entry_zeros by lia.
    cbn [fmap option_fmap option_map]. f_equal.
    apply fold_pairs0_out. by apply (Hout c).
  - pose proof (mark_items_entry_at Ls items 0 _ _ e lem sen 1 r c Hm He)
      as Hent.
    cbn [Nat.add] in Hent. rewrite Hent, entry_zeros by lia.
    cbn [fmap option_fmap option_map]. f_equal.
    apply fold_pairs1_out. by apply (Hout r).
Qed.

(** C7: a batch built by [batch_data] (on a manager whose vocabulary was
    loaded from a file, as the constructor does) keeps its span data in a
    one-shot iterator.  The first read of [dict_mask] carries, for every
    recorded pair of every example, the suppression pattern of that pair
    (and 0 outside the sense columns, resp. sense rows, of the example);
    it leaves the iterator exhausted, so every later read returns the
    all-zero mask, which differs from the first as soon as one recorded
    sense span is non-empty. *)
Theorem C7_dict_mask_one_shot self vocab_file data batches self' b :
  Vocab.init (Some vocab_file) = Ok (Manager.vocab self) ->
  Manager.batch_data data self = Ok (batches, self') ->
  b ∈ batches ->
  exists m1 b1,
    Batch.dict_mask b = Ok (m1, b1) /\
    (forall e lem sen ab cd,
       recorded b !! e = Some (lem, sen) -> (ab, cd) ∈ zip lem sen ->
       (forall r c, (r < ncols (Batch.src_nums b))%nat ->
                    Batch.in_span c cd = true ->
          entry m1 0 e r c = Some (if Batch.in_span r ab then 0 else 1)) /\
       (forall r c, Batch.in_span r cd = true ->
                    (c < ncols (Batch.src_nums b))%nat ->
          entry m1 1 e r c = Some (if Batch.in_span c cd then 0 else 1))) /\
    (forall e lem sen r c,
       recorded b !! e = Some (lem, sen) ->
       (r < ncols (Batch.src_nums b))%nat ->
       (c < ncols (Batch.src_nums b))%nat ->
       ((forall cd, cd ∈ sen -> Batch.in_span c cd = false) ->
        entry m1 0 e r c = Some 0) /\
       ((forall cd, cd ∈ sen -> Batch.in_span r cd = false) ->
        entry m1 1 e r c = Some 0)) /\
    Batch.dict_mask b1 =
      Ok (Batch.zeros (Batch.size b) (ncols (Batch.src_nums b)), b1) /\
    ((exists e lem sen ab cd,
        recorded b !! e = Some (lem, sen) /\ (ab, cd) ∈ zip lem sen /\
        (fst cd < snd cd)%nat) ->
     m1 <> Batch.zeros (Batch.size b) (ncols (Batch.src_nums b))).
Proof.
  intros Hv H Hb.
  pose proof (batch_data_batch_ok _ _ _ _ _ Hv H) as Hok.
  rewrite Forall_forall in Hok. specialize (Hok b Hb).
  destruct (dict_mask_first_read b Hok) as (m1 & Hm1 & Hpat).
  pose proof Hok as (_ & (items & Hdd & Hlen & _) & pad & Hign & Hpad).
  exists m1, (exhausted b). split; [exact Hm1|]. split; [|split; [|split]].
  - intros e lem sen ab cd He Hp.
    destruct (Hpat e lem sen ab cd He Hp) as (_ & _ & H0 & H1). by split.
  - intros e lem sen r c He Hr Hc.
    by eapply dict_mask_first_read_elsewhere.
  - by eapply dict_mask_exhausted.
  - intros (e & lem & sen & ab & cd & He & Hp & Hcd) Heq.
    destruct (Hpat e lem sen ab cd He Hp) as (Hc1 & Hc2 & _ & H1).
    specialize (H1 (fst cd) 0%nat).
    rewrite (proj2 (in_span_true (fst cd) cd)) in H1 by lia.
    rewrite (proj2 (in_span_false 0%nat cd)) in H1 by lia.
    rewrite Heq in H1. rewrite entry_zeros in H1; [| lia | | lia | lia].
    + specialize (H1 eq_refl ltac:(lia)). discriminate.
    + unfold Batch.size. fold (Batch.src_nums b). rewrite <- Hlen.
      unfold recorded in He. rewrite Hdd in He. cbn in He.
      eapply lookup_lt_Some. exact He.
Qed.

Lemma C7_dict_mask_one_shot_witness :
  exists m1 b1,
    Batch.dict_mask demo_batch = Ok (m1, b1) /\
    Batch.dict_mask b1 = Ok (Batch.zeros 2 16, b1) /\
    m1 <> Batch.zeros 2 16.
Proof.
  destruct (C7_dict_mask_one_shot demo_manager demo_vocab_file demo_data
              [demo_batch] demo_manager demo_batch)
    as (m1 & b1 & H1 & _ & _ & H2 & H3).
  - vm_compute. reflexivity.
  - vm_compute. reflexivity.
  - left.
  - exists m1, b1. split; [exact H1|]. split; [exact H2|].
    apply H3. exists 0%nat, [(2, 3); (3, 4)]%nat, [(6, 8); (8, 10)]%nat,
                (2, 3)%nat, (6, 8)%nat.
    split; [vm_compute; reflexivity|]. split; [left|simpl; lia].
Defined.

(** ** Manager.batch_data: the fuel of the model is enough *)

Lemma mbind_finished {S A B} (m : M S A) (k : A -> M S B) s :
  finished (m s) ->
  (forall a s', m s = Ok (a, s') -> finished (k a s')) ->
  finished (mbind m k s).
Proof.
  unfold finished, mbind. intros Hm Hk.
  destruct (m s) as [[a s']| |]; [by apply Hk|done|done].
Qed.

Lemma mlift_finished {S A} (r : result A) (s : S) :
  finished r -> finished (mlift r s).
Proof. unfold finished, mlift. by destruct r. Qed.

Lemma mmap_finished {S A B} (f : A -> M S B) l s :
  (forall x s', finished (f x s')) -> finished (mmap f l s).
Proof.
  intros Hf. revert s. induction l as [|x l IH]; intros s; [done|].
  rewrite mmap_cons. apply mbind_finished; [apply Hf|].
  intros y s' _. apply mbind_finished; [apply IH|]. done.
Qed.

Lemma control_token_finished tok v : finished (Vocab.control_token tok v).
Proof.
  rewrite control_token_spec. by destruct (Vocab.word_to_num v !! tok).
Qed.

Lemma numberize_finished words v : finished (Vocab.numberize words v).
Proof.
  apply mmap_finished. intros w v'.
  unfold Vocab.numberize_word, mtry, dict_getitem.
  destruct (Vocab.word_to_num v' !! w); [done|]. simpl.
  apply control_token_finished.
Qed.

Lemma on_vocab_finished {A} (m : M Vocab.t A) self :
  finished (m (Manager.vocab self)) -> finished (Manager.on_vocab m self).
Proof.
  unfold finished, Manager.on_vocab. by destruct (m (Manager.vocab self)).
Qed.

Lemma padded_row_finished width words self :
  finished (Manager.padded_row width words self).
Proof.
  unfold Manager.padded_row.
  apply mbind_finished; [apply on_vocab_finished, numberize_finished|].
  intros nums s1 _.
  apply mbind_finished; [apply on_vocab_finished, control_token_finished|].
  intros pad s2 _. apply mlift_finished.
  unfold pad_right. by repeat case_match.
Qed.

Lemma stack_finished rows : finished (stack rows).
Proof. unfold stack. by repeat case_match. Qed.

Lemma make_batch_finished chunk ms mt self :
  finished (Manager.make_batch chunk ms mt self).
Proof.
  unfold Manager.make_batch.
  apply mbind_finished;
    [apply mmap_finished; intros; apply padded_row_finished|].
  intros src_rows s1 _.
  apply mbind_finished; [apply mlift_finished, stack_finished|].
  intros src_nums s2 _.
  apply mbind_finished;
    [apply mmap_finished; intros; apply padded_row_finished|].
  intros tgt_rows s3 _.
  apply mbind_finished; [apply mlift_finished, stack_finished|].
  intros tgt_nums s4 _.
  apply mbind_finished; [by case_match|].
  intros limit s5 _.
  apply mbind_finished; [apply on_vocab_finished, control_token_finished|].
  intros unk s6 _.
  apply mbind_finished; [apply on_vocab_finished, control_token_finished|].
  done.
Qed.

Lemma list_max_take_mono {A} (f : A -> nat) (l : list A) n n' :
  (n' <= n)%nat ->
  (list_max (map f (take n' l)) <= list_max (map f (take n l)))%nat.
Proof.
  revert n n'. induction l as [|x l IH]; intros n n' Hle.
  - by rewrite !take_nil.
  - destruct n' as [|n']; [simpl; lia|].
    destruct n as [|n]; [lia|].
    unfold list_max in *. simpl.
    specialize (IH n n' ltac:(lia)). lia.
Qed.

Lemma py_slice_take {A} (l : list A) a b :
  py_slice l a b =
  take (length (py_slice l a b)) (drop (clip_index (length l) a) l).
Proof.
  unfold py_slice, slice. rewrite skipn_firstn_comm.
  set (k := (clip_index (length l) b - clip_index (length l) a)%nat).
  set (X := drop (clip_index (length l) a) l).
  rewrite length_take.
  destruct (decide (k <= length X)%nat).
  - by rewrite Nat.min_l.
  - rewrite Nat.min_r by lia. by rewrite !take_ge by lia.
Qed.

(** The sizing loop ends: each further round measures a strictly longer
    slice from the same start. *)
Lemma measure_finished fuel self l i s t n :
  (1 <= n)%nat ->
  (list_max (map (fun x => length (Manager.src_words x))
                 (take n (drop (clip_index (length l) i) l))) <= s)%nat ->
  (list_max (map (fun x => length (Manager.tgt_words x))
                 (take n (drop (clip_index (length l) i) l))) <= t)%nat ->
  (length l - n < fuel)%nat ->
  finished (Manager.measure fuel self l i s t).
Proof.
  revert s t n. induction fuel as [|fuel IH]; intros s t n Hn Hs Ht Hfuel;
    [lia|].
  cbn [Manager.measure]. destruct (_ =? 0); [done|].
  set (bs := Manager.batch_size self / _ * 8).
  destruct (py_slice l i (i + bs)) as [|e chunk] eqn:Hchunk; [done|].
  rewrite <- Hchunk.
  destruct (_ && _) eqn:Hcond; [done|].
  pose proof (py_slice_take l i (i + bs)) as Hpre.
  set (n' := length (py_slice l i (i + bs))) in *.
  assert (n' <= length l)%nat as Hn'.
  { subst n'. unfold py_slice, slice. rewrite length_drop, length_take. lia. }
  assert (n < n')%nat as Hlt.
  { destruct (decide (n < n')%nat) as [|Hge]; [done|]. exfalso.
    apply andb_false_iff in Hcond. rewrite !Nat.leb_gt in Hcond.
    rewrite Hpre in Hcond.
    pose proof (list_max_take_mono
                  (fun x => length (Manager.src_words x))
                  (drop (clip_index (length l) i) l) n n' ltac:(lia)).
    pose proof (list_max_take_mono
                  (fun x => length (Manager.tgt_words x))
                  (drop (clip_index (length l) i) l) n n' ltac:(lia)).
    lia. }
  apply (IH _ _ n'); [lia| | |lia]; rewrite Hpre at 1; done.
Qed.

Lemma measure_batch_size fuel self l i s t bs chunk ms mt :
  Manager.measure fuel self l i s t = Ok (bs, chunk, ms, mt) ->
  exists d, 0 < d /\ bs = Manager.batch_size self / d * 8.
Proof.
  revert s t. induction fuel as [|fuel IH]; intros s t H; [discriminate|].
  cbn [Manager.measure] in H.
  destruct (Z.eqb_spec (Z.of_nat (Nat.max s t) * 8) 0) as [|Hd];
    [discriminate|].
  destruct (py_slice l i _) as [|e chunk'] eqn:Hchunk; [discriminate|].
  destruct (_ && _) in H.
  - injection H as <- _ _ _. eexists. split; [|reflexivity]. lia.
  - by apply IH in H.
Qed.

Lemma list_getitem_finished {A} (l : list A) i : finished (list_getitem l i).
Proof. unfold list_getitem. by repeat case_match. Qed.

Lemma list_getitem_clip {A} (l : list A) i x :
  list_getitem l i = Ok x -> l !! clip_index (length l) i = Some x.
Proof.
  unfold list_getitem, clip_index.
  set (j := if i <? 0 then i + Z.of_nat (length l) else i).
  destruct (Z.ltb_spec j 0); [discriminate|].
  destruct (Z.leb_spec (Z.of_nat (length l)) j); [discriminate|]. simpl.
  replace (Z.to_nat (Z.min (Z.max j 0) (Z.of_nat (length l))))
    with (Z.to_nat j) by lia.
  destruct (l !! Z.to_nat j); [|discriminate]. by intros [= ->].
Qed.

Lemma measure_first_finished self l i first :
  list_getitem l i = Ok first ->
  finished (Manager.measure (S (length l)) self l i
              (length (Manager.src_words first))
              (length (Manager.tgt_words first))).
Proof.
  intros H. apply list_getitem_clip in H.
  apply (measure_finished _ _ _ _ _ _ 1); [lia| | |lia];
    rewrite (drop_S _ _ _ H); unfold list_max; simpl; lia.
Qed.

(** With a negative index the slice that sizes a bucket is empty whenever
    the batch size is negative too. *)
Lemma py_slice_negative {A} (l : list A) i bs :
  i < 0 -> bs < 0 -> py_slice l i (i + bs) = [].
Proof.
  intros Hi Hbs. unfold py_slice, slice. apply drop_ge.
  rewrite length_take. unfold clip_index.
  destruct (Z.ltb_spec i 0); [|lia].
  destruct (Z.ltb_spec (i + bs) 0); lia.
Qed.

Lemma buckets_body_finished fuel l i bs batched self :
  (forall bs' chunk batched',
     chunk <> [] -> chunk = py_slice l (i + bs) (i + bs + bs') ->
     (exists d, 0 < d /\ bs' = Manager.batch_size self / d * 8) ->
     finished (Manager.buckets fuel l (i + bs) bs' batched' self)) ->
  finished (Manager.buckets (S fuel) l i bs batched self).
Proof.
  intros Hrec. cbn [Manager.buckets]. destruct (negb _); [done|].
  apply mbind_finished; [apply mlift_finished, list_getitem_finished|].
  intros first s1 Hfirst. apply mlift_inv in Hfirst as [Hfirst E].
  simpl in Hfirst, E. subst s1.
  apply mbind_finished;
    [by apply mlift_finished, measure_first_finished|].
  intros [[[bs' chunk] ms] mt] s2 Hm.
  apply mlift_inv in Hm as [Hm E]. cbn [fst snd] in Hm, E. subst s2.
  pose proof (measure_batch_size _ _ _ _ _ _ _ _ _ _ Hm) as Hbs.
  apply measure_spec in Hm as (Hne & Hchunk & _ & _).
  apply mbind_finished; [apply make_batch_finished|].
  intros b s3 Hb. apply make_batch_spec in Hb as [-> _].
  exact (Hrec bs' chunk _ Hne Hchunk Hbs).
Qed.

Lemma buckets_finished_nonneg self l :
  0 <= Manager.batch_size self ->
  forall fuel i bs batched,
    (0 < fuel)%nat -> 0 <= i + bs ->
    Z.of_nat (length l) - (i + bs) < Z.of_nat fuel ->
    finished (Manager.buckets fuel l i bs batched self).
Proof.
  intros HB. induction fuel as [|fuel IH]; intros i bs batched Hf Hi Hfuel;
    [lia|].
  destruct (Z.ltb_spec (i + bs) (Z.of_nat (length l))) as [Hlt|Hge].
  - apply buckets_body_finished.
    intros bs' chunk batched' Hne Hchunk (d & Hd & Hbs').
    assert (0 <= bs') as Hpos.
    { subst bs'. pose proof (Z.div_pos _ _ HB Hd). lia. }
    assert (0 < bs') as Hbig.
    { destruct (decide (bs' = 0)) as [E|]; [|lia]. exfalso. apply Hne.
      rewrite Hchunk, E, Z.add_0_r. unfold py_slice, slice.
      apply drop_ge. rewrite length_take. lia. }
    apply IH; lia.
  - cbn [Manager.buckets].
    destruct (Z.ltb_spec (i + bs) (Z.of_nat (length l))); [lia|]. done.
Qed.

Lemma buckets_finished_negative self l :
  Manager.batch_size self < 0 ->
  forall fuel i bs batched,
    (0 < fuel)%nat -> i + bs < 0 ->
    finished (Manager.buckets fuel l i bs batched self).
Proof.
  intros HB fuel i bs batched Hf Hi.
  destruct fuel as [|fuel]; [lia|].
  apply buckets_body_finished.
  intros bs' chunk batched' Hne Hchunk (d & Hd & Hbs').
  exfalso. apply Hne. rewrite Hchunk. apply py_slice_negative; [done|].
  subst bs'.
  pose proof (Z.div_lt_upper_bound (Manager.batch_size self) d 0 Hd
                ltac:(lia)). lia.
Qed.

(** [batch_data] returns or raises: the fuel given to its loops is never
    exhausted. *)
Lemma batch_data_finished data self :
  finished (Manager.batch_data data self).
Proof.
  unfold Manager.batch_data. apply mbind_finished.
  - apply mlift_finished. generalize (@nil Manager.example).
    induction data as [|line data IH]; intros acc; [done|]. simpl.
    destruct (read_line_total self line) as [-> | [r ->]]; [done|].
    simpl. apply IH.
  - intros unbatched s1 Hu. apply mlift_inv in Hu as [_ E].
    simpl in E. subst s1.
    set (l := sort_desc Manager.sort_key unbatched).
    destruct (Z.ltb_spec (Manager.batch_size self) 0) as [Hneg|Hpos].
    + apply buckets_body_finished.
      intros bs' chunk batched' Hne Hchunk (d & Hd & Hbs').
      assert (bs' < 0) as Hbs.
      { subst bs'.
        pose proof (Z.div_lt_upper_bound (Manager.batch_size self) d 0 Hd
                      ltac:(lia)). lia. }
      destruct l as [|e l'] eqn:El.
      * exfalso. apply Hne. rewrite Hchunk. unfold py_slice, slice.
        by rewrite take_nil, drop_nil.
      * apply buckets_finished_negative; [done|simpl; lia|lia].
    + apply buckets_finished_nonneg; [done|lia|lia|lia].
Qed.

(** ** Vocabularies built by [add] *)

Lemma vocab5_by_add :
  mbind (Vocab.add "<PAD>") (fun _ =>
  mbind (Vocab.add "<BOS>") (fun _ =>
  mbind (Vocab.add "<EOS>") (fun _ =>
  mbind (Vocab.add "a") (fun _ => Vocab.add "b")))) Vocab.empty
  = Ok (tt, vocab5).
Proof. vm_compute. reflexivity. Qed.

Lemma add_pads_consistent n off i v u v' :
  consistent v -> Vocab.add_pads off i n v = Ok (u, v') -> consistent v'.
Proof.
  revert i v. induction n as [|n IH]; intros i v Hv H; simpl in H.
  - by injection H as _ <-.
  - apply mbind_inv in H as (a & s' & Ha & H).
    eapply IH; [|exact H]. by eapply add_consistent.
Qed.

(** A vocabulary loaded from a file is consistent. *)
Lemma init_consistent vocab_file v :
  Vocab.init (Some vocab_file) = Ok v -> consistent v.
Proof.
  unfold Vocab.init. intros H.
  apply rbind_inv in H as ([u v'] & H & E). injection E as <-.
  unfold Vocab._from_file in H.
  destruct (split_on _ _) as [|start [|stop [|? ?]]]; try discriminate.
  apply mbind_inv in H as (e & s0 & He & H).
  apply mlift_inv in He as [_ E]; simpl in E; subst s0.
  apply mbind_inv in H as (s & s0 & Hs & H).
  apply mlift_inv in Hs as [_ E]; simpl in E; subst s0.
  apply mbind_inv in H as (? & v1 & H1 & H).
  apply add_pads_consistent in H1; [|exact empty_consistent].
  apply mbind_inv in H as (ys & v2 & H2 & H).
  assert (consistent v2) as Hv2.
  { clear H. revert ys v1 v2 H1 H2.
    induction (tail vocab_file) as [|l ls IH]; intros ys v1 v2 Hv1 H2.
    - by injection H2 as _ <-.
    - rewrite mmap_cons in H2.
      apply mbind_inv in H2 as (? & v3 & H3 & H2).
      apply mbind_inv in H3 as (w & v4 & Hw & H3).
      apply mlift_inv in Hw as [_ E]; simpl in E; subst v4.
      apply mbind_inv in H2 as (? & v5 & H5 & H2).
      injection H2 as _ <-.
      eapply IH; [|exact H5]. by eapply add_consistent. }
  apply mbind_inv in H as (? & v3 & H3 & H).
  injection H as _ <-.
  apply add_pads_consistent in H3; [|done].
  intros w n. apply H3.
Qed.

(* ===================================================================== *)
(** * Part III: further properties of the code                             *)
(* ===================================================================== *)

(** ** Vocab.numberize and Vocab.denumberize *)

(** [numberize] never changes the vocabulary.  With [<UNK>] in the
    vocabulary it returns one id per word, the id of [<UNK>] for every
    unknown word; without [<UNK>] it returns only when every word is known
    and raises [KeyError] otherwise. *)
Theorem numberize_characterised v words :
  Vocab.numberize words v =
  match Vocab.word_to_num v !! "<UNK>" with
  | Some unk =>
      Ok (map (fun w => default unk (Vocab.word_to_num v !! w)) words, v)
  | None =>
      if forallb (fun w => bool_decide (known v w)) words
      then Ok (ids_of v words, v)
      else Raise KeyError
  end.
Proof.
  unfold Vocab.numberize.
  induction words as [|w ws IH].
  - destruct (Vocab.word_to_num v !! "<UNK>"); reflexivity.
  - rewrite mmap_cons.
    assert (Vocab.numberize_word w v =
            match Vocab.word_to_num v !! w with
            | Some n => Ok (n, v)
            | None => match Vocab.word_to_num v !! "<UNK>" with
                      | Some unk => Ok (unk, v)
                      | None => Raise KeyError
                      end
            end) as Hw.
    { unfold Vocab.numberize_word, mtry, dict_getitem.
      destruct (Vocab.word_to_num v !! w); [reflexivity|]. simpl.
      unfold Vocab.UNK. apply control_token_spec. }
    unfold mbind at 1. rewrite Hw.
    destruct (Vocab.word_to_num v !! w) as [n|] eqn:En.
    + unfold mbind. rewrite IH.
      destruct (Vocab.word_to_num v !! "<UNK>") as [unk|].
      * simpl. rewrite En. reflexivity.
      * simpl. rewrite (bool_decide_eq_true_2 (known v w)) by (by exists n).
        simpl. destruct (forallb _ ws); [|reflexivity].
        unfold mret, ids_of. simpl. rewrite En. reflexivity.
    + destruct (Vocab.word_to_num v !! "<UNK>") as [unk|].
      * unfold mbind. rewrite IH. simpl. rewrite En. reflexivity.
      * simpl. rewrite (bool_decide_eq_false_2 (known v w)); [reflexivity|].
        intros [? ?]. congruence.
Qed.

Lemma list_index_app_absent x pre post :
  x ∉ pre ->
  list_index x (pre ++ x :: post) = Ok (length pre).
Proof.
  induction pre as [|y pre IH]; intros H; simpl.
  - rewrite Z.eqb_refl. reflexivity.
  - destruct (Z.eqb_spec y x) as [->|_].
    + exfalso. apply H. left.
    + rewrite IH; [reflexivity|]. intros ?. apply H. by right.
Qed.

Lemma denumberize_wrapped v words bos eos rest :
  consistent v -> Forall (known v) words ->
  Vocab.word_to_num v !! "<BOS>" = Some bos ->
  Vocab.word_to_num v !! "<EOS>" = Some eos ->
  "<BOS>" ∉ words -> "<EOS>" ∉ words ->
  Vocab.denumberize (bos :: ids_of v words ++ eos :: rest) false v
  = Ok (words, v).
Proof.
  intros Hc Hk Hb He Hnb Hne.
  assert (eos <> bos) as Hbe.
  { intros ->. by pose proof (consistent_inj _ _ _ _ Hc Hb He). }
  unfold Vocab.denumberize.
  erewrite mbind_ok.
  2:{ unfold mtry. erewrite mbind_ok by (apply control_token_present, Hb).
      unfold mlift. simpl. rewrite Z.eqb_refl. reflexivity. }
  erewrite mbind_ok.
  2:{ unfold mtry. erewrite mbind_ok by (apply control_token_present, He).
      unfold mlift.
      change (bos :: ids_of v words ++ eos :: rest)
        with ((bos :: ids_of v words) ++ eos :: rest).
      rewrite (list_index_app_absent eos (bos :: ids_of v words) rest).
      - reflexivity.
      - intros Hin. apply elem_of_cons in Hin as [?|Hin]; [done|].
        by eapply id_not_in. }
  unfold slice. simpl. rewrite take_app_length.
  replace (drop 0 (ids_of v words)) with (ids_of v words) by reflexivity.
  rewrite denumber_ids by done. reflexivity.
Qed.

(** [denumberize] undoes the wrapping and padding of a sequence: on a
    vocabulary whose maps agree, the ids of [<BOS>], of known words other
    than [<BOS>] and [<EOS>], of [<EOS>], followed by anything (padding,
    the untouched tail of a decoded path), give back exactly the words. *)
Theorem denumberize_unwraps v words bos eos rest :
  consistent v -> Forall (known v) words ->
  Vocab.word_to_num v !! "<BOS>" = Some bos ->
  Vocab.word_to_num v !! "<EOS>" = Some eos ->
  "<BOS>" ∉ words -> "<EOS>" ∉ words ->
  Vocab.denumberize (bos :: ids_of v words ++ eos :: rest) false v
  = Ok (words, v).
Proof. apply denumberize_wrapped. Qed.

Lemma denumberize_unwraps_witness :
  Vocab.denumberize (1 :: ids_of vocab5 ["a"; "b"] ++ 2 :: [1; 1; 0]) false
                    vocab5
  = Ok (["a"; "b"], vocab5).
Proof.
  apply (denumberize_unwraps vocab5 ["a"; "b"] 1 2 [1; 1; 0]).
  - exact vocab5_consistent.
  - repeat constructor; eexists; vm_compute; reflexivity.
  - reflexivity.
  - reflexivity.
  - intros H. apply list_elem_of_In in H. simpl in H.
    repeat (destruct H as [H|H]; [discriminate|]). done.
  - intros H. apply list_elem_of_In in H. simpl in H.
    repeat (destruct H as [H|H]; [discriminate|]). done.
Defined.

(** ** Vocab.remove *)

Lemma list_remove_first w l n :
  l !! n = Some w ->
  exists k, (k <= n)%nat /\
            Vocab.list_remove w l = Ok (take k l ++ drop (S k) l).
Proof.
  revert n. induction l as [|y l IH]; intros n H; [done|].
  simpl. destruct (String.eqb_spec y w) as [->|Hne].
  - exists 0%nat. split; [lia|]. reflexivity.
  - destruct n as [|n]; [simpl in H; congruence|]. simpl in H.
    destruct (IH n H) as (k & Hk & ->). exists (S k). split; [lia|].
    reflexivity.
Qed.

(** [remove] shortens the token list but does not renumber: after a
    present word is removed, every word with a larger id keeps that id in
    the token map while it now sits one position lower in the token list,
    so its id no longer names it. *)
Theorem remove_leaves_later_ids_stale v w n w' n' :
  consistent v ->
  Vocab.word_to_num v !! w = Some n ->
  Vocab.word_to_num v !! w' = Some n' ->
  n < n' ->
  exists v',
    Vocab.remove w v = Ok (tt, v') /\
    Vocab.size v' = Vocab.size v - 1 /\
    Vocab.word_to_num v' !! w = None /\
    Vocab.word_to_num v' !! w' = Some n' /\
    Vocab.num_to_word v' !! Z.to_nat (n' - 1) = Some w'.
Proof.
  intros Hc Hw Hw' Hlt.
  destruct (Hc _ _ Hw) as [Hn Hl]. destruct (Hc _ _ Hw') as [Hn' Hl'].
  destruct (list_remove_first _ _ _ Hl) as (k & Hk & Hrem).
  assert (w <> w') as Hne by (intros ->; rewrite Hw in Hw'; injection Hw'; lia).
  pose proof (lookup_lt_Some _ _ _ Hl) as Hlen.
  pose proof (lookup_lt_Some _ _ _ Hl') as Hlen'.
  eexists. unfold Vocab.remove, dict_getitem. rewrite Hw, Hrem. simpl.
  split; [reflexivity|]. unfold Vocab.size. simpl.
  split; [|split; [|split]].
  - rewrite length_app, length_take, length_drop. lia.
  - apply lookup_delete_eq.
  - rewrite lookup_delete_ne by done. exact Hw'.
  - rewrite lookup_app_r by (rewrite length_take; lia).
    rewrite length_take, lookup_drop.
    replace (S k + (Z.to_nat (n' - 1) - k `min` length (Vocab.num_to_word v)))%nat
      with (Z.to_nat n') by lia.
    exact Hl'.
Qed.

Lemma remove_leaves_later_ids_stale_witness :
  exists v',
    Vocab.remove "<BOS>" vocab5 = Ok (tt, v') /\
    Vocab.size v' = Vocab.size vocab5 - 1 /\
    Vocab.word_to_num v' !! "<BOS>" = None /\
    Vocab.word_to_num v' !! "a" = Some 3 /\
    Vocab.num_to_word v' !! Z.to_nat (3 - 1) = Some "a".
Proof.
  apply (remove_leaves_later_ids_stale vocab5 "<BOS>" 1 "a" 3).
  - exact vocab5_consistent.
  - reflexivity.
  - reflexivity.
  - lia.
Defined.

(** ** Vocab._from_file *)

Lemma add_pads_size n off i v u v' :
  Vocab.add_pads off i n v = Ok (u, v') ->
  Vocab.size v' = Vocab.size v + Z.of_nat n.
Proof.
  revert i v. induction n as [|n IH]; intros i v H; simpl in H.
  - injection H as _ <-. lia.
  - apply mbind_inv in H as (a & s' & Ha & H).
    rewrite add_spec in Ha. injection Ha as _ <-.
    apply IH in H. rewrite H. unfold Vocab.size. simpl.
    rewrite length_app. simpl. lia.
Qed.

(** However many tokens the file lists, the loaded vocabulary has a size
    that is a positive multiple of 8: the loader pads the end of the token
    list up to the next multiple (by a full 8 when it already is one). *)
Theorem loaded_size_multiple_of_8 vocab_file v :
  Vocab.init (Some vocab_file) = Ok v ->
  Vocab.size v mod 8 = 0 /\ 8 <= Vocab.size v.
Proof.
  unfold Vocab.init. intros H.
  apply rbind_inv in H as ([u v'] & H & E). injection E as <-.
  unfold Vocab._from_file in H.
  destruct (split_on _ _) as [|start [|stop [|? ?]]]; try discriminate.
  apply mbind_inv in H as (e & s0 & _ & H).
  apply mbind_inv in H as (s & s1 & _ & H).
  apply mbind_inv in H as (? & v1 & _ & H).
  apply mbind_inv in H as (? & v2 & _ & H).
  apply mbind_inv in H as (? & v3 & H3 & H).
  injection H as _ <-. apply add_pads_size in H3.
  change (Vocab.size (Vocab.mk (Vocab.num_to_word v3) (Vocab.word_to_num v3)
                               (Some (e - s +
                                      (if (Z.to_nat (8 - (e - s) mod 8) - 1 =? 0)%nat
                                       then 0
                                       else Z.of_nat (Z.to_nat (8 - (e - s) mod 8) - 1) + 1)))))
    with (Vocab.size v3).
  rewrite H3.
  assert (0 <= Vocab.size v2) as Hpos by (unfold Vocab.size; lia).
  pose proof (Z.mod_pos_bound (Vocab.size v2) 8 ltac:(lia)) as Hm.
  rewrite Z2Nat.id by lia.
  pose proof (Z.div_mod (Vocab.size v2) 8 ltac:(lia)) as Hdm.
  split.
  - replace (Vocab.size v2 + (8 - Vocab.size v2 mod 8))
      with ((Vocab.size v2 / 8 + 1) * 8) by lia.
    apply Z.mod_mul. lia.
  - pose proof (Z.div_pos (Vocab.size v2) 8 Hpos ltac:(lia)). lia.
Qed.

Lemma loaded_size_multiple_of_8_witness :
  Vocab.size demo_vocab mod 8 = 0 /\ 8 <= Vocab.size demo_vocab.
Proof.
  apply (loaded_size_multiple_of_8 demo_vocab_file demo_vocab).
  vm_compute. reflexivity.
Defined.

(** The decoding size depends on the first line of the file only: the
    range [end - start], rounded up to the next multiple of 8 (a full 8 is
    added to a multiple of 8), except that a range that is 7 modulo 8 is
    left as it is. *)
Theorem loaded_decoding_size header rest start stop s e v :
  split_on ":"%char (lstrip is_hash header) = [start; stop] ->
  int_of_str stop = Ok e -> int_of_str start = Ok s ->
  Vocab.init (Some (header :: rest)) = Ok v ->
  Vocab.size_decoding v =
  Some (if (e - s) mod 8 =? 7 then e - s else e - s + 8 - (e - s) mod 8).
Proof.
  intros Hsplit He Hs H. unfold Vocab.init in H.
  apply rbind_inv in H as ([u v'] & H & E). injection E as <-.
  by eapply from_file_decoding_size.
Qed.

Lemma loaded_decoding_size_witness :
  Vocab.size_decoding demo_vocab = Some 16.
Proof.
  apply (loaded_decoding_size ("#0:12" +:+ nl) (tail demo_vocab_file)
           "0" ("12" +:+ nl) 0 12 demo_vocab);
    vm_compute; reflexivity.
Defined.

(** A vocabulary loaded from a file survives the round trip through ids:
    [denumberize(numberize(words), verbatim=True)] gives back any sequence
    of its words, although the loader adds some [<PAD k>] token twice. *)
Theorem loaded_roundtrip_verbatim vocab_file v words :
  Vocab.init (Some vocab_file) = Ok v ->
  Forall (known v) words ->
  roundtrip true words v = Ok (words, v).
Proof.
  intros H Hk. apply roundtrip_verbatim; [|done]. by eapply init_consistent.
Qed.

Lemma loaded_roundtrip_verbatim_witness :
  roundtrip true ["<BOS>"; "cat"; "<PAD 3>"; "<EOS>"] demo_vocab
  = Ok (["<BOS>"; "cat"; "<PAD 3>"; "<EOS>"], demo_vocab).
Proof.
  apply (loaded_roundtrip_verbatim demo_vocab_file).
  - vm_compute. reflexivity.
  - repeat constructor; eexists; vm_compute; reflexivity.
Defined.

(** In a vocabulary loaded from a file, id 0 can only belong to the
    synthetic token [<PAD 0>]: no token of the file, in particular none of
    [<PAD>], [<BOS>], [<EOS>], [<UNK>], ever gets id 0. *)
Theorem loaded_id_zero_is_synthetic vocab_file v w :
  Vocab.init (Some vocab_file) = Ok v ->
  Vocab.word_to_num v !! w = Some 0 -> w = "<PAD 0>".
Proof.
  unfold Vocab.init. intros H Hw.
  apply rbind_inv in H as ([u v'] & H & E). injection E as <-.
  apply from_file_zero_is_pad0 in H as [_ Hz]. by apply Hz.
Qed.

Lemma loaded_id_zero_is_synthetic_witness : "<PAD 0>" = "<PAD 0>".
Proof.
  apply (loaded_id_zero_is_synthetic demo_vocab_file demo_vocab "<PAD 0>").
  - vm_compute. reflexivity.
  - vm_compute. reflexivity.
Defined.

Lemma existsb_lstrip_chars (p q : ascii -> bool) s :
  existsb p s = false -> existsb p (lstrip_chars q s) = false.
Proof.
  induction s as [|c s IH]; [done|]. intros H. simpl.
  destruct (q c); [|exact H].
  simpl in H. apply orb_false_elim in H as [_ H]. by apply IH.
Qed.

(** A vocabulary file whose first line holds no colon, in particular an
    empty file, cannot be loaded: unpacking the split header into [start]
    and [end] raises [ValueError]. *)
Theorem load_header_without_colon vocab_file :
  existsb (Ascii.eqb ":"%char)
          (list_ascii_of_string (default "" (head vocab_file))) = false ->
  Vocab.init (Some vocab_file) = Raise ValueError.
Proof.
  intros H. unfold Vocab.init, Vocab._from_file.
  replace (match vocab_file with [] => "" | l :: _ => l end)
    with (default "" (head vocab_file)) by (by destruct vocab_file).
  unfold split_on, lstrip.
  rewrite list_ascii_of_string_of_list_ascii.
  rewrite split_chars_no_sep by (by apply existsb_lstrip_chars).
  reflexivity.
Qed.

Lemma load_header_without_colon_witness :
  Vocab.init (Some []) = Raise ValueError /\
  Vocab.init (Some ["# 0 7" +:+ nl; "a 1" +:+ nl]) = Raise ValueError.
Proof.
  split.
  - apply (load_header_without_colon []). reflexivity.
  - apply (load_header_without_colon ["# 0 7" +:+ nl; "a 1" +:+ nl]).
    reflexivity.
Defined.

Lemma add_pads_ok n off i v :
  exists v', Vocab.add_pads off i n v = Ok (tt, v').
Proof.
  revert i v. induction n as [|n IH]; intros i v; simpl; [by eexists|].
  unfold mbind at 1. rewrite add_spec. apply IH.
Qed.

Lemma add_tokens_blank_line pre blank post v :
  split_ws blank = [] ->
  mmap (fun line : string =>
          w <~ mlift (list_getitem (split_ws line) 0) ;; Vocab.add w)
       (pre ++ blank :: post) v = Raise IndexError.
Proof.
  intros Hb. revert v. induction pre as [|l pre IH]; intros v.
  - change ([] ++ blank :: post) with (blank :: post). rewrite mmap_cons.
    cbv beta. apply mbind_raise. apply mbind_raise. rewrite Hb. reflexivity.
  - change ((l :: pre) ++ blank :: post) with (l :: (pre ++ blank :: post)).
    rewrite mmap_cons. cbv beta.
    destruct (split_ws l) as [|w ws] eqn:El.
    + apply mbind_raise. apply mbind_raise. reflexivity.
    + erewrite mbind_ok.
      2:{ erewrite mbind_ok by reflexivity. apply add_spec. }
      apply mbind_raise. apply IH.
Qed.

(** [int] does not skip the separators U+001C..U+001F that [split] treats
    as whitespace: a header with one of them next to a number does not
    parse, and the load raises [ValueError]. *)
Lemma int_of_str_separator :
  split_ws (String (ascii_of_nat 28) "0") = ["0"] /\
  int_of_str (String (ascii_of_nat 28) "0") = Raise ValueError /\
  Vocab.init (Some [String (ascii_of_nat 28) "0:12" +:+ nl; "a 1" +:+ nl])
  = Raise ValueError.
Proof. repeat split; vm_compute; reflexivity. Qed.

(** A token line that is empty or blank makes the load fail: with a header
    that parses, [line.split()[0]] raises [IndexError] at the first such
    line, whatever the other lines hold. *)
Theorem load_blank_token_line header pre blank post start stop s e :
  split_on ":"%char (lstrip is_hash header) = [start; stop] ->
  int_of_str stop = Ok e -> int_of_str start = Ok s ->
  split_ws blank = [] ->
  Vocab.init (Some (header :: pre ++ blank :: post)) = Raise IndexError.
Proof.
  intros Hsplit He Hs Hb. unfold Vocab.init, Vocab._from_file.
  rewrite Hsplit, He, Hs.
  destruct (add_pads_ok (Z.to_nat (8 - (e - s) mod 8)) 0 0 Vocab.empty)
    as [v1 Hv1].
  erewrite mbind_ok by reflexivity.
  erewrite mbind_ok by reflexivity.
  erewrite mbind_ok by exact Hv1.
  cbn [tail]. erewrite mbind_raise; [reflexivity|].
  by apply add_tokens_blank_line.
Qed.

Lemma load_blank_token_line_witness :
  Vocab.init (Some ["#0:12" +:+ nl; "a 3" +:+ nl; nl; "b 1" +:+ nl])
  = Raise IndexError.
Proof.
  apply (load_blank_token_line ("#0:12" +:+ nl) ["a 3" +:+ nl] nl
           ["b 1" +:+ nl] "0" ("12" +:+ nl) 0 12);
    vm_compute; reflexivity.
Defined.

(** ** Batch: the target mask and the dictionary mask *)

(** With an [ignore_index] that is a non-zero id, position [r] of a target
    may attend to position [c] exactly when [c] is not later than [r] and
    the token at [c] is not the ignored (padding) id; the last target
    position takes no part. *)
Theorem tgt_mask_causal_and_unpadded src tgt dd ign L e row r c x :
  ign <> 0 ->
  Forall (fun row' => length row' = L) tgt ->
  tgt !! e = Some row -> row !! c = Some x ->
  (r < L - 1)%nat -> (c < L - 1)%nat ->
  (rows ← Batch.tgt_mask (Batch.mk src tgt dd (Some ign)) !! e;
   mrow ← rows !! r; mrow !! c)
  = Some (negb (x =? ign) && (c <=? r)%nat).
Proof.
  intros Hign Hlen He Hx Hr Hc.
  unfold Batch.tgt_mask, Batch.not_ignore_index, Batch.ignore_value,
    Batch.tgt_nums. simpl.
  apply Z.eqb_neq in Hign. rewrite Hign.
  assert (ncols (map drop_last tgt) = (L - 1)%nat) as Hn.
  { rewrite ncols_drop_last. destruct tgt as [|r0 tgt']; [done|].
    simpl. inversion Hlen; subst. reflexivity. }
  rewrite Hn. unfold triu_mask.
  assert (length row = L) as HL.
  { rewrite Forall_forall in Hlen. apply Hlen.
    eapply list_elem_of_lookup_2. exact He. }
  rewrite list_lookup_fmap, list_lookup_fmap, He. simpl.
  rewrite list_lookup_fmap, list_lookup_fmap.
  rewrite lookup_seq_lt by lia. simpl.
  rewrite lookup_zip_with, !list_lookup_fmap.
  unfold drop_last. rewrite lookup_take_lt by lia. rewrite Hx. simpl.
  rewrite lookup_seq_lt by lia. reflexivity.
Qed.

Lemma tgt_mask_causal_and_unpadded_witness :
  (rows ← Batch.tgt_mask
            (Batch.mk [[5; 6]] [[5; 6; 7; 9; 9]] (Batch.DictList [])
                      (Some 9)) !! 0%nat;
   mrow ← rows !! 2%nat; mrow !! 1%nat)
  = Some (negb (6 =? 9) && (1 <=? 2)%nat).
Proof.
  apply (tgt_mask_causal_and_unpadded [[5; 6]] [[5; 6; 7; 9; 9]]
           (Batch.DictList []) 9 5 0 [5; 6; 7; 9; 9] 2 1 6).
  - discriminate.
  - repeat constructor.
  - reflexivity.
  - reflexivity.
  - lia.
  - lia.
Defined.

Lemma mark_items_entry_ge Ls items i0 m m' l e r c :
  Batch.mark_items Ls i0 m items = Ok m' -> (i0 + length items <= e)%nat ->
  entry m' l e r c = entry m l e r c.
Proof.
  revert i0 m. induction items as [|[lem sen] items IH]; intros i0 m H He;
    simpl in H.
  - by injection H as <-.
  - apply rbind_inv in H as (m1 & E & H). simpl in He.
    rewrite (IH _ _ H) by lia.
    rewrite (mark_pairs_entry _ _ _ _ _ l e r c E).
    rewrite bool_decide_eq_false_2 by lia. done.
Qed.

Lemma fold_pairs_binary f ps r c y :
  (forall p y', f p r c y' = 0 \/ f p r c y' = 1 \/ f p r c y' = y') ->
  y = 0 \/ y = 1 ->
  fold_pairs f ps r c y = 0 \/ fold_pairs f ps r c y = 1.
Proof.
  intros Hf. revert y. induction ps as [|p ps IH]; intros y Hy; [done|].
  unfold fold_pairs in *. simpl. apply IH.
  destruct (Hf p y) as [->| [->| ->]]; auto.
Qed.

Lemma fold_pairs1_diagonal Ls ps r :
  fold_pairs (pair1 Ls) ps r r 0 = 0.
Proof.
  induction ps as [|p ps IH]; [done|].
  unfold fold_pairs in *. simpl.
  replace (pair1 Ls p r r 0) with 0; [exact IH|].
  unfold pair1. by destruct (Batch.in_span r (snd p)).
Qed.

(** Whatever spans a batch holds, a dictionary mask it returns is binary,
    and its sense layer (layer 1) never blocks a position from itself. *)
Theorem dict_mask_binary_and_reflexive b m b' e r c :
  Batch.dict_mask b = Ok (m, b') ->
  (e < Batch.size b)%nat ->
  (r < ncols (Batch.src_nums b))%nat -> (c < ncols (Batch.src_nums b))%nat ->
  (entry m 0 e r c = Some 0 \/ entry m 0 e r c = Some 1) /\
  (entry m 1 e r c = Some 0 \/ entry m 1 e r c = Some 1) /\
  entry m 1 e r r = Some 0.
Proof.
  intros H He Hr Hc.
  destruct (Batch.not_ignore_index b) eqn:Hni.
  { rewrite dict_mask_none in H by done. discriminate. }
  rewrite (dict_mask_unfold b Hni) in H.
  apply rbind_inv in H as (m1 & Hm & E). injection E as <- _.
  set (Ls := ncols (Batch.src_nums b)) in *.
  set (items := fst (Batch.iterate (Batch._dict_data b))) in *.
  assert (forall l c', (l < 2)%nat -> (c' < Ls)%nat ->
            entry m1 l e r c' =
            match items !! e with
            | Some (lem, sen) =>
                match l with
                | 0%nat => Some (fold_pairs (pair0 Ls) (zip lem sen) r c' 0)
                | _ => Some (fold_pairs (pair1 Ls) (zip lem sen) r c' 0)
                end
            | None => Some 0
            end) as Hent.
  { intros l c' Hl Hc'.
    destruct (items !! e) as [[lem sen]|] eqn:Hit.
    - pose proof (mark_items_entry_at Ls items 0 _ _ e lem sen l r c' Hm Hit)
        as Hat.
      cbn [Nat.add] in Hat. rewrite Hat.
      rewrite entry_zeros by (done || lia).
      destruct l as [|[|l]]; [done|done|lia].
    - rewrite (mark_items_entry_ge _ _ _ _ _ _ _ _ _ Hm).
      + by apply entry_zeros.
      + apply lookup_ge_None in Hit. lia. }
  rewrite !Hent by (done || lia).
  destruct (items !! e) as [[lem sen]|]; [|auto].
  split; [|split].
  - destruct (fold_pairs_binary (pair0 Ls) (zip lem sen) r c 0)
      as [-> | ->]; auto.
    intros p y'. unfold pair0. repeat case_match; auto.
  - destruct (fold_pairs_binary (pair1 Ls) (zip lem sen) r c 0)
      as [-> | ->]; auto.
    intros p y'. unfold pair1. repeat case_match; auto.
  - by rewrite fold_pairs1_diagonal.
Qed.

Lemma dict_mask_binary_and_reflexive_witness :
  exists m b',
    Batch.dict_mask demo_batch = Ok (m, b') /\
    entry m 1 1 5 5 = Some 0.
Proof.
  destruct (Batch.dict_mask demo_batch) as [[m b']| |] eqn:E;
    [|vm_compute in E; discriminate..].
  exists m, b'. split; [reflexivity|].
  apply (dict_mask_binary_and_reflexive demo_batch m b' 1 5 5 E);
    vm_compute; lia.
Defined.

(** ** Manager.batch_data: what an accepted line becomes *)

Lemma list_getitem_nat_inv {A} (l : list A) (n : nat) x :
  list_getitem l (Z.of_nat n) = Ok x -> l !! n = Some x.
Proof.
  intros H. apply list_getitem_clip in H. unfold clip_index in H.
  destruct (Z.ltb_spec (Z.of_nat n) 0); [lia|].
  destruct (decide (n < length l)%nat) as [Hlt|Hge].
  - by replace (Z.to_nat (Z.min (Z.max (Z.of_nat n) 0) (Z.of_nat (length l))))
      with n in H by lia.
  - replace (Z.to_nat (Z.min (Z.max (Z.of_nat n) 0) (Z.of_nat (length l))))
      with (length l) in H by lia.
    rewrite lookup_ge_None_2 in H by lia. discriminate.
Qed.

Lemma slice_app_l {A} (l extra : list A) a b :
  (b <= length l)%nat -> slice (l ++ extra) a b = slice l a b.
Proof. intros H. unfold slice. by rewrite take_app_le. Qed.

Lemma slice_app_r {A} (l extra : list A) :
  slice (l ++ extra) (length l) (length l + length extra) = extra.
Proof.
  unfold slice. rewrite <- length_app, firstn_all.
  by rewrite drop_app_length.
Qed.

Lemma sense_from_dict_app self words extra cd :
  (snd cd <= length words)%nat ->
  sense_from_dict self words cd -> sense_from_dict self (words ++ extra) cd.
Proof.
  intros Hle (lemma & d & f & Hd & Hf & Hlim & Hs).
  exists lemma, d, f. rewrite slice_app_l by done. auto.
Qed.

Lemma scan_state_kept fuel self orig i words lemmas senses r :
  closed words (length orig) ->
  scan_state_ok self orig words lemmas senses ->
  Manager.scan fuel self (length orig) i words lemmas senses = Ok r ->
  scan_state_ok self orig (fst (fst r)) (snd (fst r)) (snd r).
Proof.
  revert i words lemmas senses.
  induction fuel as [|fuel IH]; intros i words lemmas senses Hcl Hok H;
    [discriminate|].
  cbn [Manager.scan] in H.
  destruct (Nat.ltb_spec i (length orig)) as [Hi|]; cbn [negb] in H;
    [|by injection H as <-].
  apply rbind_inv in H as (w & Hw & H).
  apply list_getitem_nat_inv in Hw.
  apply rbind_inv in H as ([i' lemma] & Hr & H). cbn [fst snd] in H.
  assert (i <= i' < length orig)%nat as Hi'.
  { destruct (endswith w "@@") eqn:Hend.
    - apply rbind_inv in Hr as ([i2 lemma2] & Hj & Hr).
      destruct (join_lemma_ok (S (length orig)) words (length orig) i
                  (rstrip is_at w) w) as (i3 & lemma3 & E & Hb);
        try done; try lia.
      rewrite E in Hj. injection Hj as -> ->.
      apply rbind_inv in Hr as (w' & _ & Hr). injection Hr as <- _. lia.
    - injection Hr as <- _. lia. }
  clear Hr.
  destruct Hok as (Htake & Hmax & Hlem & Hch & Hsen).
  pose proof Hcl as [Hlen _].
  destruct (_ && _) in H; [|eapply IH; [done| |exact H]; by repeat split].
  apply rbind_inv in H as (f & Hf & H).
  destruct (Z.leb_spec f (Manager.freq_limit self)) as [Hlim|];
    [|eapply IH; [done| |exact H]; by repeat split].
  apply rbind_inv in H as (d & Hd & H).
  unfold dict_getitem in Hf, Hd.
  destruct (Manager.freq self !! lemma) as [f'|] eqn:Ef; [|discriminate].
  destruct (Manager.dict self !! lemma) as [d'|] eqn:Ed; [|discriminate].
  injection Hf as ->. injection Hd as ->.
  set (sense := slice_to d (Manager.max_senses self)) in *.
  destruct (Z.gtb_spec (Z.of_nat (length words + length sense))
                       (Manager.max_length self)) as [|Hfit].
  - injection H as <-. cbn [fst snd]. rewrite !drop_last_snoc.
    by repeat split.
  - eapply IH; [by apply closed_app| |exact H].
    split; [|split; [|split; [|split]]].
    + rewrite take_app_le by lia. exact Htake.
    + rewrite length_app. lia.
    + apply Forall_app. split; [done|]. constructor; [|constructor].
      simpl. lia.
    + rewrite length_app. apply chain_snoc; [done|lia].
    + apply Forall_app. split.
      * apply Forall_forall. intros cd Hcd.
        apply sense_from_dict_app.
        -- by destruct (chain_bounds _ _ _ cd Hch Hcd) as (_ & _ & ?).
        -- rewrite Forall_forall in Hsen. by apply Hsen.
      * constructor; [|constructor].
        exists lemma, d, f. cbn [fst snd]. rewrite slice_app_r. auto.
Qed.

Lemma read_line_structure self line e :
  Manager.read_line self line = Ok (Some e) ->
  exists src tgt,
    split_on tab line = [src; tgt] /\
    Manager.tgt_words e = ["<BOS>"] ++ split_ws tgt ++ ["<EOS>"] /\
    Z.of_nat (length (Manager.tgt_words e)) <= Manager.max_length self /\
    scan_state_ok self (["<BOS>"] ++ split_ws src ++ ["<EOS>"])
                  (Manager.src_words e) (Manager.lemmas e) (Manager.senses e).
Proof.
  unfold Manager.read_line.
  destruct (split_on tab line) as [|src [|tgt [|? ?]]]; try discriminate.
  destruct (_ || _); [discriminate|].
  destruct (Z.gtb_spec (Z.of_nat (length (["<BOS>"] ++ split_ws src ++ ["<EOS>"])))
                       (Manager.max_length self)) as [|Hs]; [discriminate|].
  destruct (Z.gtb_spec (Z.of_nat (length (["<BOS>"] ++ split_ws tgt ++ ["<EOS>"])))
                       (Manager.max_length self)) as [|Ht]; [discriminate|].
  intros H. apply rbind_inv in H as (r & Hscan & H). injection H as <-.
  exists src, tgt. split; [done|]. split; [done|]. split; [exact Ht|].
  set (orig := ["<BOS>"] ++ split_ws src ++ ["<EOS>"]) in *.
  eapply (scan_state_kept _ _ orig) in Hscan; [exact Hscan| |].
  - split; [subst orig; simpl; lia|].
    exists "<EOS>". split; [|reflexivity]. subst orig.
    simpl. rewrite length_app. simpl.
    replace (length (split_ws src) + 1 - 0)%nat
      with (S (length (split_ws src) + 0))%nat by lia.
    rewrite lookup_cons_ne_0 by lia. simpl.
    rewrite lookup_app_r by lia.
    replace (length (split_ws src) + 0 - length (split_ws src))%nat
      with 0%nat by lia. reflexivity.
  - split; [apply firstn_all|]. split; [exact Hs|].
    split; [constructor|]. split; [reflexivity|constructor].
Qed.

(** Every accepted line becomes an example whose source sequence starts
    with the wrapped sentence, stays within [max_length] also after the
    senses were appended, has its lemma spans inside the sentence and its
    sense spans one after the other behind it, each holding the first
    [max_senses] senses of a lemma that is in the dictionary and whose
    frequency is at most [freq_limit]. *)
Theorem accepted_line_structure self line e :
  Manager.read_line self line = Ok (Some e) ->
  exists src tgt,
    split_on tab line = [src; tgt] /\
    Manager.tgt_words e = ["<BOS>"] ++ split_ws tgt ++ ["<EOS>"] /\
    Z.of_nat (length (Manager.tgt_words e)) <= Manager.max_length self /\
    scan_state_ok self (["<BOS>"] ++ split_ws src ++ ["<EOS>"])
                  (Manager.src_words e) (Manager.lemmas e) (Manager.senses e).
Proof. apply read_line_structure. Qed.

Lemma accepted_line_structure_witness :
  exists e src tgt,
    Manager.read_line demo_manager (demo_data !!! 1%nat) = Ok (Some e) /\
    split_on tab (demo_data !!! 1%nat) = [src; tgt] /\
    scan_state_ok demo_manager (["<BOS>"] ++ split_ws src ++ ["<EOS>"])
                  (Manager.src_words e) (Manager.lemmas e) (Manager.senses e).
Proof.
  destruct (Manager.read_line demo_manager (demo_data !!! 1%nat))
    as [[e|]| |] eqn:E; try (vm_compute in E; discriminate).
  destruct (accepted_line_structure demo_manager (demo_data !!! 1%nat) e E)
    as (src & tgt & H1 & _ & _ & H4).
  by exists e, src, tgt.
Defined.

(** ** Manager.batch_data: the buckets *)

Lemma measure_sizing fuel self l i s t bs chunk ms mt :
  Manager.measure fuel self l i s t = Ok (bs, chunk, ms, mt) ->
  exists s' t',
    (ms <= s')%nat /\ (mt <= t')%nat /\ (0 < Nat.max s' t')%nat /\
    bs = Manager.batch_size self / (Z.of_nat (Nat.max s' t') * 8) * 8.
Proof.
  revert s t. induction fuel as [|fuel IH]; intros s t H; [discriminate|].
  cbn [Manager.measure] in H.
  destruct (Z.eqb_spec (Z.of_nat (Nat.max s t) * 8) 0) as [|Hd];
    [discriminate|].
  destruct (py_slice l i _) as [|e chunk'] eqn:Hchunk; [discriminate|].
  destruct (_ && _) eqn:Hcond in H.
  - injection H as <- _ <- <-.
    apply andb_true_iff in Hcond as [H1 H2].
    apply Nat.leb_le in H1, H2.
    exists s, t. repeat split; try done. lia.
  - by apply IH in H.
Qed.

Lemma py_slice_length_le {A} (l : list A) i bs :
  0 <= i -> 0 <= bs -> Z.of_nat (length (py_slice l i (i + bs))) <= bs.
Proof.
  intros Hi Hbs. unfold py_slice, slice, clip_index.
  rewrite length_drop, length_take.
  destruct (Z.ltb_spec i 0); [lia|].
  destruct (Z.ltb_spec (i + bs) 0); lia.
Qed.

Lemma py_slice_then_rest {A} (l : list A) i bs :
  0 <= i < Z.of_nat (length l) -> 0 <= bs ->
  py_slice l i (i + bs) ++ drop (Z.to_nat (i + bs)) l = drop (Z.to_nat i) l.
Proof.
  intros Hi Hbs. unfold py_slice, slice, clip_index.
  destruct (Z.ltb_spec i 0); [lia|].
  destruct (Z.ltb_spec (i + bs) 0); [lia|].
  replace (Z.to_nat (Z.min (Z.max i 0) (Z.of_nat (length l))))
    with (Z.to_nat i) by lia.
  destruct (Z.ltb_spec (i + bs) (Z.of_nat (length l))).
  - replace (Z.to_nat (Z.min (Z.max (i + bs) 0) (Z.of_nat (length l))))
      with (Z.to_nat (i + bs)) by lia.
    rewrite <- (take_drop (Z.to_nat (i + bs)) l) at 3.
    rewrite drop_app_le by (rewrite length_take; lia). reflexivity.
  - replace (Z.to_nat (Z.min (Z.max (i + bs) 0) (Z.of_nat (length l))))
      with (length l) by lia.
    rewrite firstn_all. rewrite (drop_ge l (Z.to_nat (i + bs))) by lia.
    by rewrite app_nil_r.
Qed.

Lemma budget_of_sizing self chunk s t bs :
  0 <= Manager.batch_size self -> (0 < Nat.max s t)%nat ->
  bs = Manager.batch_size self / (Z.of_nat (Nat.max s t) * 8) * 8 ->
  Z.of_nat (length chunk) <= bs ->
  (list_max (map (fun x => length (Manager.src_words x)) chunk) <= s)%nat ->
  (list_max (map (fun x => length (Manager.tgt_words x)) chunk) <= t)%nat ->
  within_budget self chunk.
Proof.
  intros HB HM Hbs Hlen Hs Ht e He.
  assert (length (Manager.src_words e) <= s)%nat.
  { etrans; [|exact Hs]. apply list_max_ge, list_elem_of_fmap. eauto. }
  assert (length (Manager.tgt_words e) <= t)%nat.
  { etrans; [|exact Ht]. apply list_max_ge, list_elem_of_fmap. eauto. }
  set (M := Z.of_nat (Nat.max s t)) in *.
  assert (0 < M) by lia.
  pose proof (Z.mul_div_le (Manager.batch_size self) (M * 8) ltac:(lia)).
  pose proof (Z.div_pos (Manager.batch_size self) (M * 8) HB ltac:(lia)).
  assert (Z.of_nat (Nat.max (length (Manager.src_words e))
                            (length (Manager.tgt_words e))) <= M) by lia.
  nia.
Qed.

(** The batches of one run of the bucket loop: consecutive non-empty runs
    of the list, each within the budget. *)
Lemma buckets_chunks self l :
  0 <= Manager.batch_size self ->
  forall fuel i bs batched res self',
    0 <= i + bs ->
    Manager.buckets fuel l i bs batched self = Ok (res, self') ->
    exists chunks new,
      res = batched ++ new /\
      Forall2 (fun chunk b => chunk <> [] /\ built_from self chunk b /\
                              within_budget self chunk) chunks new /\
      concat chunks = drop (Z.to_nat (i + bs)) l.
Proof.
  intros HB. induction fuel as [|fuel IH];
    intros i bs batched res self' Hi H; [discriminate|].
  cbn [Manager.buckets] in H.
  destruct (Z.ltb_spec (i + bs) (Z.of_nat (length l))) as [Hlt|Hge];
    cbn [negb] in H.
  2:{ injection H as <- <-. exists [], []. rewrite app_nil_r.
      split; [done|]. split; [constructor|]. simpl.
      by rewrite drop_ge by lia. }
  apply mbind_inv in H as (first & s1 & Hfirst & H).
  apply mlift_inv in Hfirst as [_ E]. simpl in E. subst s1.
  apply mbind_inv in H as ([[[bs' chunk] ms] mt] & s2 & Hm & H).
  apply mlift_inv in Hm as [Hm E]. cbn [fst snd] in Hm, E. subst s2.
  pose proof (measure_sizing _ _ _ _ _ _ _ _ _ _ Hm)
    as (s' & t' & Hs' & Ht' & HM & Hbs').
  apply measure_spec in Hm as (Hne & Hchunk & Hms & Hmt).
  apply mbind_inv in H as (b & s3 & Hb & H).
  pose proof (make_batch_spec _ _ _ _ _ _ Hb) as [E _]. subst s3.
  assert (0 <= bs') as Hpos.
  { subst bs'.
    pose proof (Z.div_pos (Manager.batch_size self)
                  (Z.of_nat (Nat.max s' t') * 8) HB ltac:(lia)). lia. }
  apply IH in H as (chunks & new & -> & HF & Hcat); [|lia].
  exists (chunk :: chunks), (b :: new). split; [by rewrite <- app_assoc|].
  split.
  - constructor; [|done]. split; [done|]. split.
    + unfold built_from. by rewrite <- Hms, <- Hmt.
    + eapply budget_of_sizing; try done.
      * rewrite Hchunk. by apply py_slice_length_le.
      * by rewrite <- Hms.
      * by rewrite <- Hmt.
  - simpl. rewrite Hcat, Hchunk. by apply py_slice_then_rest.
Qed.

Lemma batch_data_chunks self data unbatched batches self' :
  Manager.read_lines self data [] = Ok unbatched ->
  0 <= Manager.batch_size self ->
  Manager.batch_data data self = Ok (batches, self') ->
  exists chunks,
    concat chunks = sort_desc Manager.sort_key unbatched /\
    Forall2 (fun chunk b => chunk <> [] /\ built_from self chunk b /\
                            within_budget self chunk) chunks batches.
Proof.
  intros Hread HB H. unfold Manager.batch_data in H.
  apply mbind_inv in H as (u & s1 & Hu & H).
  rewrite Hread in Hu. injection Hu as <- <-.
  apply (buckets_chunks self _ HB) in H as (chunks & new & -> & HF & Hcat);
    [|lia].
  exists chunks. split; [|done]. by rewrite Hcat.
Qed.

(** With a non-negative token budget, the batches that [batch_data]
    returns are built from non-empty runs of consecutive examples of the
    sorted list of accepted examples, and the runs make up the whole list
    in order: no accepted example is lost and none is batched twice. *)
Theorem batches_partition_accepted self data unbatched batches self' :
  Manager.read_lines self data [] = Ok unbatched ->
  0 <= Manager.batch_size self ->
  Manager.batch_data data self = Ok (batches, self') ->
  exists chunks,
    concat chunks = sort_desc Manager.sort_key unbatched /\
    Forall2 (fun chunk b => chunk <> [] /\ built_from self chunk b /\
                            Batch.size b = length chunk) chunks batches.
Proof.
  intros Hread HB H.
  destruct (batch_data_chunks _ _ _ _ _ Hread HB H) as (chunks & Hcat & HF).
  exists chunks. split; [done|].
  eapply Forall2_impl; [exact HF|]. intros chunk b (Hne & Hb & _).
  split; [done|]. split; [done|].
  by apply make_batch_spec in Hb as (_ & _ & ? & _).
Qed.

Lemma batches_partition_accepted_witness :
  exists chunks unbatched batches,
    Manager.batch_data demo_data demo_manager = Ok (batches, demo_manager) /\
    concat chunks = sort_desc Manager.sort_key unbatched /\
    length unbatched = 2%nat /\
    Forall2 (fun chunk b => chunk <> [] /\ built_from demo_manager chunk b /\
                            Batch.size b = length chunk) chunks batches.
Proof.
  destruct (Manager.read_lines demo_manager demo_data []) as [u| |] eqn:Eu;
    [|vm_compute in Eu; discriminate..].
  destruct (Manager.batch_data demo_data demo_manager) as [[bs s']| |] eqn:Eb;
    [|vm_compute in Eb; discriminate..].
  assert (s' = demo_manager) as ->.
  { vm_compute in Eb. injection Eb as _ <-. reflexivity. }
  destruct (batches_partition_accepted demo_manager demo_data u bs
              demo_manager Eu ltac:(vm_compute; discriminate) Eb)
    as (chunks & H1 & H2).
  exists chunks, u, bs. split; [reflexivity|]. split; [exact H1|].
  split; [|exact H2].
  vm_compute in Eu. injection Eu as <-. reflexivity.
Defined.

(** With a non-negative token budget, every batch respects it: the number
    of its examples times the length of any of their unpadded source or
    target sequences is at most [batch_size]. *)
Theorem batches_within_token_budget self data unbatched batches self' :
  Manager.read_lines self data [] = Ok unbatched ->
  0 <= Manager.batch_size self ->
  Manager.batch_data data self = Ok (batches, self') ->
  exists chunks,
    concat chunks = sort_desc Manager.sort_key unbatched /\
    Forall2 (fun chunk b => Batch.size b = length chunk /\
                            within_budget self chunk) chunks batches.
Proof.
  intros Hread HB H.
  destruct (batch_data_chunks _ _ _ _ _ Hread HB H) as (chunks & Hcat & HF).
  exists chunks. split; [done|].
  eapply Forall2_impl; [exact HF|]. intros chunk b (Hne & Hb & Hbud).
  split; [|done].
  by apply make_batch_spec in Hb as (_ & _ & ? & _).
Qed.

Lemma batches_within_token_budget_witness :
  exists chunks unbatched batches,
    Manager.batch_data demo_data demo_manager = Ok (batches, demo_manager) /\
    concat chunks = sort_desc Manager.sort_key unbatched /\
    Forall2 (fun chunk b => Batch.size b = length chunk /\
                            within_budget demo_manager chunk) chunks batches.
Proof.
  destruct (Manager.read_lines demo_manager demo_data []) as [u| |] eqn:Eu;
    [|vm_compute in Eu; discriminate..].
  destruct (Manager.batch_data demo_data demo_manager) as [[bs s']| |] eqn:Eb;
    [|vm_compute in Eb; discriminate..].
  assert (s' = demo_manager) as ->.
  { vm_compute in Eb. injection Eb as _ <-. reflexivity. }
  destruct (batches_within_token_budget demo_manager demo_data u bs
              demo_manager Eu ltac:(vm_compute; discriminate) Eb)
    as (chunks & H1 & H2).
  exists chunks, u, bs. by repeat split.
Defined.

(** A token budget too small for one row of the longest accepted pair is
    not rounded up: the computed batch size is 0, the slice is empty, and
    unpacking its transposition raises [ValueError]. *)
Theorem budget_below_longest_pair_raises self data unbatched e rest :
  Manager.read_lines self data [] = Ok unbatched ->
  sort_desc Manager.sort_key unbatched = e :: rest ->
  0 <= Manager.batch_size self
    < Z.of_nat (Nat.max (length (Manager.src_words e))
                        (length (Manager.tgt_words e))) * 8 ->
  Manager.batch_data data self = Raise ValueError.
Proof.
  intros Hread Hsort HB. unfold Manager.batch_data.
  erewrite mbind_ok by (rewrite Hread; reflexivity).
  rewrite Hsort. cbn [Manager.buckets].
  change (0 + 0 <? Z.of_nat (length (e :: rest))) with true. cbn [negb].
  erewrite mbind_ok by reflexivity.
  apply mbind_raise. unfold mlift. cbn [Manager.measure].
  destruct (Z.eqb_spec
              (Z.of_nat (Nat.max (length (Manager.src_words e))
                                 (length (Manager.tgt_words e))) * 8) 0);
    [lia|].
  rewrite Z.div_small by lia. reflexivity.
Qed.

Lemma budget_below_longest_pair_raises_witness :
  Manager.batch_data demo_data
    (Manager.mk demo_vocab (Manager.dict demo_manager)
                (Manager.freq demo_manager) 20 64 10 2)
  = Raise ValueError.
Proof.
  destruct (Manager.read_lines
              (Manager.mk demo_vocab (Manager.dict demo_manager)
                          (Manager.freq demo_manager) 20 64 10 2)
              demo_data []) as [u| |] eqn:Eu;
    [|vm_compute in Eu; discriminate..].
  destruct (sort_desc Manager.sort_key u) as [|e rest] eqn:Es.
  { vm_compute in Eu. injection Eu as <-. vm_compute in Es. discriminate. }
  apply (budget_below_longest_pair_raises _ demo_data u e rest Eu Es).
  vm_compute in Eu. injection Eu as <-. vm_compute in Es.
  injection Es as <- _. vm_compute. split; [discriminate|reflexivity].
Defined.

Lemma read_lines_Forall (P : Manager.example -> Prop) self data acc unbatched :
  (forall line e, Manager.read_line self line = Ok (Some e) -> P e) ->
  Forall P acc ->
  Manager.read_lines self data acc = Ok unbatched ->
  Forall P unbatched.
Proof.
  intros HP. revert acc. induction data as [|line data IH]; intros acc Hacc H.
  - by injection H as <-.
  - simpl in H. apply rbind_inv in H as (r & Hr & H).
    eapply IH; [|exact H]. destruct r as [e|]; [|done].
    apply Forall_app. split; [done|]. constructor; [|constructor].
    by eapply HP.
Qed.

Lemma list_max_le (l : list nat) n :
  (forall x, x ∈ l -> (x <= n)%nat) -> (list_max l <= n)%nat.
Proof.
  induction l as [|y l IH]; intros H; unfold list_max in *; simpl; [lia|].
  pose proof (H y ltac:(left)).
  assert (foldr Nat.max 0%nat l <= n)%nat.
  { apply IH. intros x Hx. apply H. by right. }
  lia.
Qed.

Lemma ceil8_Z n : Z.of_nat (ceil8 n) = (Z.of_nat n + 7) / 8 * 8.
Proof.
  unfold ceil8. rewrite Nat2Z.inj_mul, Nat2Z.inj_div, Nat2Z.inj_add.
  reflexivity.
Qed.

(** No batch is wider than [max_length] rounded up to a multiple of 8:
    every source row, senses included, and every target row has at most
    that length. *)
Theorem batch_rows_within_max_length self data batches self' :
  Manager.batch_data data self = Ok (batches, self') ->
  Forall (fun b =>
            Forall (fun row => Z.of_nat (length row)
                               <= (Manager.max_length self + 7) / 8 * 8)
                   (Batch.src_nums b ++ Batch.tgt_nums b))
         batches.
Proof.
  intros H. destruct (batch_data_read _ _ _ _ H) as [unbatched Hread].
  eapply batch_data_Forall in H as [_ H]; [exact H|exact Hread|].
  intros chunk b s' Hne Hsub Hb.
  apply make_batch_spec in Hb as (_ & Fsrc & _ & Ftgt & _).
  assert (Forall (fun e => Z.of_nat (length (Manager.src_words e))
                             <= Manager.max_length self /\
                           Z.of_nat (length (Manager.tgt_words e))
                             <= Manager.max_length self) unbatched) as HF.
  { eapply read_lines_Forall; [|constructor|exact Hread].
    intros line e' Hl.
    apply read_line_structure in Hl
      as (src & tgt & _ & _ & Ht & _ & Hs & _). done. }
  rewrite Forall_forall in HF.
  assert (forall e, e ∈ chunk ->
            Z.of_nat (length (Manager.src_words e)) <= Manager.max_length self /\
            Z.of_nat (length (Manager.tgt_words e)) <= Manager.max_length self)
    as Hex.
  { intros e He. apply HF.
    apply (sort_desc_subseteq Manager.sort_key). by apply Hsub. }
  assert (forall (f : Manager.example -> nat),
            (forall e, e ∈ chunk -> Z.of_nat (f e) <= Manager.max_length self) ->
            Z.of_nat (ceil8 (list_max (map f chunk)))
              <= (Manager.max_length self + 7) / 8 * 8) as Hw.
  { intros f Hf. rewrite ceil8_Z.
    apply Z.mul_le_mono_nonneg_r; [lia|].
    apply Z.div_le_mono; [lia|].
    destruct chunk as [|e0 chunk']; [done|].
    pose proof (Hf e0 ltac:(left)) as H0.
    assert (list_max (map f (e0 :: chunk')) <= Z.to_nat (Manager.max_length self))%nat.
    { apply list_max_le. intros x Hx.
      apply list_elem_of_fmap in Hx as (e & -> & He).
      pose proof (Hf e He). lia. }
    lia. }
  apply Forall_app. split.
  - eapply Forall_impl; [exact Fsrc|]. intros row ->.
    apply Hw. intros e He. by apply Hex.
  - eapply Forall_impl; [exact Ftgt|]. intros row ->.
    apply Hw. intros e He. by apply Hex.
Qed.

Lemma batch_rows_within_max_length_witness :
  exists batches,
    Manager.batch_data demo_data demo_manager = Ok (batches, demo_manager) /\
    Forall (fun b =>
              Forall (fun row => Z.of_nat (length row)
                                 <= (Manager.max_length demo_manager + 7) / 8 * 8)
                     (Batch.src_nums b ++ Batch.tgt_nums b))
           batches.
Proof.
  eexists. split; [vm_compute; reflexivity|].
  apply (batch_rows_within_max_length demo_manager demo_data _ demo_manager).
  vm_compute. reflexivity.
Defined.

Lemma make_batch_targets chunk ms mt self b self' :
  Manager.make_batch chunk ms mt self = Ok (b, self') ->
  exists limit unk rows,
    Vocab.size_decoding (Manager.vocab self) = Some limit /\
    Vocab.word_to_num (Manager.vocab self) !! "<UNK>" = Some unk /\
    Batch.tgt_nums b =
      map (map (fun x => if limit <=? x then unk else x)) rows.
Proof.
  unfold Manager.make_batch. intros H.
  apply mbind_inv in H as (src_rows & s1 & Hsrc & H).
  apply (mmap_state_Forall _ (fun _ => True)) in Hsrc as (E & _ & _);
    [subst s1|intros x y s1' Hx; by apply padded_row_spec in Hx as [-> _]].
  apply mbind_inv in H as (src_nums & s2 & Hst & H).
  apply mlift_inv in Hst as [_ E]. simpl in E. subst s2.
  apply mbind_inv in H as (tgt_rows & s3 & Htgt & H).
  apply (mmap_state_Forall _ (fun _ => True)) in Htgt as (E & _ & _);
    [subst s3|intros x y s1' Hx; by apply padded_row_spec in Hx as [-> _]].
  apply mbind_inv in H as (tgt_nums & s4 & Hst & H).
  apply mlift_inv in Hst as [_ E]. simpl in E. subst s4.
  apply mbind_inv in H as (limit & s5 & Hlim & H).
  destruct (Vocab.size_decoding (Manager.vocab self)) as [lim|] eqn:El;
    [|discriminate].
  injection Hlim as E1 E2. subst limit s5.
  apply mbind_inv in H as (unk & s6 & Hunk & H).
  apply on_vocab_token in Hunk as [E Hunk]. subst s6.
  apply mbind_inv in H as (pad & s7 & Hpad & H).
  apply on_vocab_token in Hpad as [E Hpad]. subst s7.
  injection H as E1 E2. subst b self'. simpl.
  exists lim, unk, tgt_nums. done.
Qed.

(** Every target id of every batch is below the decoding size of the
    vocabulary or is the id of [<UNK>]: an id the model cannot produce is
    replaced, silently. *)
Theorem target_ids_below_decoding_size self data batches self' :
  Manager.batch_data data self = Ok (batches, self') ->
  Forall (fun b =>
            exists limit unk,
              Vocab.size_decoding (Manager.vocab self) = Some limit /\
              Vocab.word_to_num (Manager.vocab self) !! "<UNK>" = Some unk /\
              Forall (Forall (fun y => y < limit \/ y = unk))
                     (Batch.tgt_nums b))
         batches.
Proof.
  intros H. destruct (batch_data_read _ _ _ _ H) as [unbatched Hread].
  eapply batch_data_Forall in H as [_ H]; [exact H|exact Hread|].
  intros chunk b s' _ _ Hb.
  apply make_batch_targets in Hb as (limit & unk & rows & Hl & Hu & ->).
  exists limit, unk. split; [done|]. split; [done|].
  apply Forall_fmap, Forall_forall. intros row _.
  apply Forall_fmap, Forall_forall. intros x _. simpl.
  destruct (Z.leb_spec limit x); auto.
Qed.

Lemma target_ids_below_decoding_size_witness :
  exists batches,
    Manager.batch_data demo_data demo_manager = Ok (batches, demo_manager) /\
    Forall (fun b =>
              exists limit unk,
                Vocab.size_decoding (Manager.vocab demo_manager) = Some limit /\
                Vocab.word_to_num (Manager.vocab demo_manager) !! "<UNK>"
                  = Some unk /\
                Forall (Forall (fun y => y < limit \/ y = unk))
                       (Batch.tgt_nums b))
           batches.
Proof.
  eexists. split; [vm_compute; reflexivity|].
  apply (target_ids_below_decoding_size demo_manager demo_data _ demo_manager).
  vm_compute. reflexivity.
Defined.

(** The loops of [batch_data] always end, for every configuration, a
    negative [batch_size] included: the scan of a sentence within its
    length plus one rounds, the sizing loop [while True] and the loop over
    buckets within the number of accepted examples plus one rounds each.
    So a call returns its batches or raises. *)
Theorem batch_data_loops_end data self :
  finished (Manager.batch_data data self).
Proof. apply batch_data_finished. Qed.

(** ** Manager.batch_data: the rows of a batch *)

Lemma make_batch_target_rows chunk ms mt self b self' :
  Manager.make_batch chunk ms mt self = Ok (b, self') ->
  Forall (fun e => (length (Manager.tgt_words e) <= mt)%nat) chunk ->
  exists limit unk,
    Vocab.size_decoding (Manager.vocab self) = Some limit /\
    Vocab.word_to_num (Manager.vocab self) !! "<UNK>" = Some unk /\
    Forall2 (fun e row =>
               exists nums pad,
                 Vocab.numberize (Manager.tgt_words e) (Manager.vocab self)
                   = Ok (nums, Manager.vocab self) /\
                 Vocab.word_to_num (Manager.vocab self) !! "<PAD>" = Some pad /\
                 row = map (fun x => if limit <=? x then unk else x)
                           (nums ++ replicate
                              (ceil8 mt - length (Manager.tgt_words e)) pad))
            chunk (Batch.tgt_nums b).
Proof.
  unfold Manager.make_batch. intros H Hmt.
  apply mbind_inv in H as (src_rows & s1 & Hsrc & H).
  apply (mmap_state_Forall _ (fun _ => True)) in Hsrc as (E & _ & _);
    [subst s1|intros x y s1' Hx; by apply padded_row_spec in Hx as [-> _]].
  apply mbind_inv in H as (src_nums & s2 & Hst & H).
  apply mlift_inv in Hst as [_ E]. simpl in E. subst s2.
  apply mbind_inv in H as (tgt_rows & s3 & Htgt & H).
  apply (mmap_state_Forall2 _
           (fun e => (length (Manager.tgt_words e) <= mt)%nat)
           (fun e row =>
              exists nums pad,
                Vocab.numberize (Manager.tgt_words e) (Manager.vocab self)
                  = Ok (nums, Manager.vocab self) /\
                Vocab.word_to_num (Manager.vocab self) !! "<PAD>" = Some pad /\
                row = nums ++ replicate
                        (ceil8 mt - length (Manager.tgt_words e)) pad)
           _ _ _ _) in Htgt as [E Hrows]; [subst s3| |exact Hmt].
  2:{ intros x y s1' Hx Hrow.
      split; [by apply padded_row_spec in Hrow as [-> _]|].
      apply padded_row_content in Hrow; [done|].
      etrans; [exact Hx|apply ceil8_ge]. }
  apply mbind_inv in H as (tgt_nums & s4 & Hst & H).
  apply mlift_inv in Hst as [Hst E]. simpl in Hst, E. subst s4.
  apply stack_inv in Hst. subst tgt_nums.
  apply mbind_inv in H as (limit & s5 & Hlim & H).
  destruct (Vocab.size_decoding (Manager.vocab self)) as [lim|] eqn:El;
    [|discriminate].
  injection Hlim as E1 E2. subst limit s5.
  apply mbind_inv in H as (unk & s6 & Hunk & H).
  apply on_vocab_token in Hunk as [E Hunk]. subst s6.
  apply mbind_inv in H as (pad & s7 & Hpad & H).
  apply on_vocab_token in Hpad as [E Hpad]. subst s7.
  injection H as E1 E2. subst b self'. simpl.
  exists lim, unk. split; [done|]. split; [done|].
  apply Forall2_fmap_r.
  eapply Forall2_impl; [exact Hrows|].
  intros e row (nums & pad0 & Hn & Hp & ->). by exists nums, pad0.
Qed.

Lemma ids_of_app v ws1 ws2 : ids_of v (ws1 ++ ws2) = ids_of v ws1 ++ ids_of v ws2.
Proof. unfold ids_of. apply map_app. Qed.

Lemma clamp_ids_of v limit unk words :
  Forall (fun w => forall n, Vocab.word_to_num v !! w = Some n -> n < limit)
         words ->
  Forall (known v) words ->
  map (fun x => if limit <=? x then unk else x) (ids_of v words)
  = ids_of v words.
Proof.
  intros Hlt Hk. induction words as [|w ws IH]; [done|].
  inversion Hlt as [|? ? Hw Hws]; subst.
  inversion Hk as [|? ? [n Hn] Hks]; subst.
  unfold ids_of in *. simpl. rewrite IH by done. rewrite Hn. simpl.
  destruct (Z.leb_spec limit n); [|done]. specialize (Hw n Hn). lia.
Qed.

(** The reference of a batch row is recovered by [denumberize]: for a
    batch built from a run of examples, the target row of an example whose
    words are known, hold neither [<BOS>] nor [<EOS>] and have ids below
    the decoding size denumberizes to exactly those words, the wrapping
    [<BOS>]/[<EOS>] and the padding gone. *)
Theorem target_row_denumberizes self chunk b k e ws limit :
  built_from self chunk b ->
  chunk !! k = Some e ->
  Manager.tgt_words e = ["<BOS>"] ++ ws ++ ["<EOS>"] ->
  consistent (Manager.vocab self) ->
  Forall (known (Manager.vocab self)) (Manager.tgt_words e) ->
  "<BOS>" ∉ ws -> "<EOS>" ∉ ws ->
  Vocab.size_decoding (Manager.vocab self) = Some limit ->
  Forall (fun w => forall n, Vocab.word_to_num (Manager.vocab self) !! w = Some n
                             -> n < limit) (Manager.tgt_words e) ->
  exists row,
    Batch.tgt_nums b !! k = Some row /\
    Vocab.denumberize row false (Manager.vocab self)
    = Ok (ws, Manager.vocab self).
Proof.
  intros Hb Hk Hw Hc Hkn Hnb Hne Hlim Hlt. unfold built_from in Hb.
  apply make_batch_target_rows in Hb
    as (limit' & unk & Hlim' & Hunk & Hrows).
  2:{ apply Forall_forall. intros x Hx.
      apply list_max_ge, list_elem_of_fmap. eauto. }
  rewrite Hlim in Hlim'. injection Hlim' as <-.
  destruct (Forall2_lookup_l _ _ _ _ _ Hrows Hk)
    as (row & Hrow & nums & pad & Hn & Hp & ->).
  exists (map (fun x => if limit <=? x then unk else x)
              (nums ++ replicate
                 (ceil8 (list_max (map (fun x => length (Manager.tgt_words x))
                                       chunk))
                  - length (Manager.tgt_words e)) pad)).
  split; [exact Hrow|].
  rewrite (numberize_known _ _ Hkn) in Hn. injection Hn as <-.
  rewrite map_app, (clamp_ids_of _ _ _ _ Hlt Hkn).
  rewrite Hw in Hkn |- *.
  apply Forall_app in Hkn as [Hb' Hkn]. apply Forall_app in Hkn as [Hws He'].
  inversion Hb' as [|? ? [bos Hbos] _]; subst.
  inversion He' as [|? ? [eos Heos] _]; subst.
  rewrite !ids_of_app. unfold ids_of at 1 3. simpl. rewrite Hbos, Heos. simpl.
  rewrite <- app_assoc. simpl.
  by apply denumberize_wrapped.
Qed.

Lemma target_row_denumberizes_witness :
  exists row,
    built_from demo_manager demo_chunk demo_batch /\
    Batch.tgt_nums demo_batch !! 1%nat = Some row /\
    Vocab.denumberize row false (Manager.vocab demo_manager)
    = Ok (["the"; "cat"], Manager.vocab demo_manager).
Proof.
  assert (built_from demo_manager demo_chunk demo_batch) as Hb
    by (vm_compute; reflexivity).
  eassert (demo_chunk !! 1%nat = Some _) as Ee by (vm_compute; reflexivity).
  destruct (target_row_denumberizes demo_manager demo_chunk demo_batch 1 _
              ["the"; "cat"] 16 Hb Ee) as (row & Hrow & Hden).
  - reflexivity.
  - apply (init_consistent demo_vocab_file). vm_compute. reflexivity.
  - apply Forall_forall. intros w Hw.
    apply list_elem_of_In in Hw. simpl in Hw.
    destruct Hw as [<-|[<-|[<-|[<-|[]]]]]; eexists; vm_compute; reflexivity.
  - intros H. apply list_elem_of_In in H. simpl in H.
    repeat (destruct H as [H|H]; [discriminate|]). done.
  - intros H. apply list_elem_of_In in H. simpl in H.
    repeat (destruct H as [H|H]; [discriminate|]). done.
  - vm_compute. reflexivity.
  - apply Forall_forall. intros w Hw n Hn.
    apply list_elem_of_In in Hw. simpl in Hw.
    destruct Hw as [<-|[<-|[<-|[<-|[]]]]];
      vm_compute in Hn; injection Hn as <-; reflexivity.
  - exists row. split; [exact Hb|]. split; [exact Hrow|exact Hden].
Defined.

(** ** decoder.py: greedy_search *)

Lemma control_token_inv tok v n v' :
  Vocab.control_token tok v = Ok (n, v') ->
  v' = v /\ Vocab.word_to_num v !! tok = Some n.
Proof.
  rewrite control_token_spec.
  destruct (Vocab.word_to_num v !! tok); [|discriminate].
  by intros [= <- <-].
Qed.

Lemma greedy_steps_shape log_probs len : forall a path v path' v',
  greedy_steps log_probs (seq a len) path v = Ok (path', v') ->
  (a + len <= length path)%nat ->
  v' = v /\ length path' = length path /\
  exists n,
    (a <= n <= a + len)%nat /\
    (forall k, (k < a \/ n <= k)%nat -> path' !! k = path !! k) /\
    (forall k eos, (a <= k)%nat -> (S k < n)%nat ->
       Vocab.word_to_num v !! "<EOS>" = Some eos -> path' !! k <> Some eos) /\
    ((n < a + len)%nat ->
       exists eos, Vocab.word_to_num v !! "<EOS>" = Some eos /\
                   (a < n)%nat /\ path' !! (n - 1)%nat = Some eos).
Proof.
  induction len as [|len IH]; intros a path v path' v' H Hlen.
  - injection H as <- <-. split; [done|]. split; [done|].
    exists a. split; [lia|]. split; [done|]. split; intros; lia.
  - cbn [seq greedy_steps] in H.
    apply mbind_inv in H as (tok & v1 & Htok & H).
    apply mlift_inv in Htok as [_ E]. simpl in E. subst v1.
    apply mbind_inv in H as (eos & v1 & Heos & H).
    apply control_token_inv in Heos as [E Ee]. subst v1.
    destruct (Z.eqb_spec (Z.of_nat tok) eos) as [Et|Et].
    + injection H as <- <-. split; [done|].
      split; [by rewrite length_insert|].
      exists (S a). split; [lia|]. split; [|split].
      * intros k Hk. apply list_lookup_insert_ne. lia.
      * intros; lia.
      * intros _. exists eos. split; [done|]. split; [lia|].
        replace (S a - 1)%nat with a by lia. rewrite Et.
        apply list_lookup_insert_eq. lia.
    + apply IH in H as (-> & Hl & n & Hn & Hout & Hin & Hstop);
        [|rewrite length_insert; lia].
      rewrite length_insert in Hl.
      split; [done|]. split; [done|].
      exists n. split; [lia|]. split; [|split].
      * intros k Hk. rewrite Hout by lia. apply list_lookup_insert_ne. lia.
      * intros k eos0 Hk Hkn He0.
        destruct (decide (k = a)) as [->|Hne].
        -- rewrite Hout by lia. rewrite list_lookup_insert_eq by lia.
           intros [= E]. congruence.
        -- apply Hin; [lia|done|done].
      * intros Hlt. destruct Hstop as (eos0 & He0 & Han & Hlast); [lia|].
        exists eos0. split; [done|]. split; [lia|done].
Qed.

(** Whatever the model scores, a greedy search that returns leaves the
    vocabulary as it was and yields a row of exactly [max_length] ids:
    [<BOS>] at position 0, then the chosen tokens at positions [1 .. n-1],
    none of them [<EOS>] except possibly the last, then [<BOS>] again at
    every position from [n] on; when the search stopped before the last
    position, the last chosen token is [<EOS>]. *)
Theorem greedy_search_shape log_probs max_length v path v' :
  greedy_search log_probs max_length v = Ok (path, v') ->
  v' = v /\ length path = max_length /\
  exists bos n,
    Vocab.word_to_num v !! "<BOS>" = Some bos /\
    (1 <= n)%nat /\ (n <= Nat.max 1 max_length)%nat /\
    (forall k, (k < max_length)%nat -> (k = 0 \/ n <= k)%nat ->
       path !! k = Some bos) /\
    (forall k eos, (1 <= k)%nat -> (S k < n)%nat ->
       Vocab.word_to_num v !! "<EOS>" = Some eos -> path !! k <> Some eos) /\
    ((n < max_length)%nat ->
       exists eos, Vocab.word_to_num v !! "<EOS>" = Some eos /\
                   (1 < n)%nat /\ path !! (n - 1)%nat = Some eos).
Proof.
  unfold greedy_search. intros H.
  apply mbind_inv in H as (bos & v1 & Hbos & H).
  apply control_token_inv in Hbos as [E Eb]. subst v1.
  destruct max_length as [|m].
  - injection H as <- <-. split; [done|]. split; [done|].
    exists bos, 1%nat. split; [done|]. do 2 (split; [lia|]).
    split; [|split]; intros; lia.
  - apply greedy_steps_shape in H
      as (-> & Hl & n & Hn & Hout & Hin & Hstop);
      [|rewrite length_replicate; lia].
    rewrite length_replicate in Hl.
    split; [done|]. split; [done|].
    exists bos, n. split; [done|]. do 2 (split; [lia|]).
    split; [|split].
    + intros k Hk Hkn. rewrite Hout by lia.
      by apply lookup_replicate_2.
    + intros k eos Hk Hkn. by apply Hin.
    + intros Hlt. destruct Hstop as (eos & He & Hn1 & Hlast); [lia|].
      exists eos. split; [done|]. split; [lia|done].
Qed.

Lemma greedy_search_shape_witness :
  exists path,
    greedy_search a_b_eos 6 vocab5 = Ok (path, vocab5) /\
    length path = 6%nat /\
    exists bos n,
      Vocab.word_to_num vocab5 !! "<BOS>" = Some bos /\
      (1 <= n)%nat /\ (n <= Nat.max 1 6)%nat /\
      (forall k, (k < 6)%nat -> (k = 0 \/ n <= k)%nat ->
         path !! k = Some bos) /\
      (forall k eos, (1 <= k)%nat -> (S k < n)%nat ->
         Vocab.word_to_num vocab5 !! "<EOS>" = Some eos ->
         path !! k <> Some eos) /\
      ((n < 6)%nat ->
         exists eos, Vocab.word_to_num vocab5 !! "<EOS>" = Some eos /\
                     (1 < n)%nat /\ path !! (n - 1)%nat = Some eos).
Proof.
  assert (greedy_search a_b_eos 6 vocab5 = Ok ([1; 3; 4; 2; 1; 1], vocab5))
    as H by (vm_compute; reflexivity).
  exists [1; 3; 4; 2; 1; 1]. split; [exact H|].
  exact (proj2 (greedy_search_shape a_b_eos 6 vocab5 _ vocab5 H)).
Defined.

(** ** decoder.py: beam_search *)

Lemma assign_go_length {A} mask (x vals : list A) :
  length (assign_go mask x vals) = length x.
Proof.
  revert x vals. induction mask as [|m mask IH]; intros [|a x] vals; try done.
  simpl. destruct m; [destruct vals|]; simpl; by rewrite IH.
Qed.

Lemma assign_go_Forall {A} (P : A -> Prop) mask x vals :
  Forall P x -> Forall P vals -> Forall P (assign_go mask x vals).
Proof.
  revert x vals. induction mask as [|m mask IH]; intros [|a x] vals Hx Hv;
    try done.
  inversion Hx; subst. simpl.
  destruct m; [destruct vals as [|w vals]; [|inversion Hv; subst]|];
    constructor; auto.
Qed.

Lemma assign_inv {A} mask (x vals y : list A) :
  assign mask x vals = Ok y -> y = assign_go mask x vals.
Proof. unfold assign. destruct (_ =? _)%nat; [|discriminate]. by intros [= <-]. Qed.

Lemma select_Forall {A} (P : A -> Prop) mask x :
  Forall P x -> Forall P (select mask x).
Proof.
  revert x. induction mask as [|m mask IH]; intros [|a x] Hx; try done.
  inversion Hx; subst. simpl. destruct m; [constructor|]; auto.
Qed.

Lemma gather_Forall {A} (P : A -> Prop) rows idx rs :
  Forall P rows -> gather rows idx = Ok rs -> Forall P rs.
Proof.
  intros Hrows. revert rs. induction idx as [|j idx IH]; intros rs H.
  - injection H as <-. constructor.
  - cbn [gather] in H. destruct (rows !! j) as [r|] eqn:Ej; [|discriminate].
    apply rbind_inv in H as (rs' & Hrs & H). injection H as <-.
    constructor; [|by apply IH].
    by eapply Forall_lookup_1.
Qed.

Lemma write_tokens_Forall (P : list Z -> Prop) (i : nat) rows toks :
  (forall row tok, P row -> P (<[i := tok]> row)) ->
  Forall P rows ->
  Forall P (zip_with (fun row tok => <[i := tok]> row) rows toks).
Proof.
  intros HP Hrows. revert toks.
  induction Hrows as [|row rows Hrow _ IH]; intros [|tok toks]; simpl;
    try constructor; auto.
Qed.

Lemma reactivate_length thr act pr :
  length act = length pr -> length (reactivate thr act pr) = length act.
Proof. intros H. unfold reactivate. rewrite length_zip_with. lia. Qed.

Lemma widen_shape fdiv topk init_size i flat st st' topv topi :
  widen fdiv topk init_size i flat st = Ok (st', topv, topi) ->
  length (active st) = length (probs st) ->
  paths st' = paths st /\ probs st' = probs st /\
  length (active st') = length (active st).
Proof.
  unfold widen. intros H Hl.
  apply rbind_inv in H as (top & _ & H).
  destruct (_ <? _)%nat.
  - apply rbind_inv in H as (m & _ & H).
    destruct (_ <? _)%nat.
    + apply rbind_inv in H as (top' & _ & H). injection H as <- _ _.
      simpl. by rewrite reactivate_length.
    + injection H as <- _ _. simpl. by rewrite reactivate_length.
  - by injection H as <- _ _.
Qed.

Lemma beam_step_shape log_probs fadd fdiv topk init_size i st v st' v' B
    (P : list Z -> Prop) :
  beam_step log_probs fadd fdiv topk init_size i st v = Ok (st', v') ->
  length (active st) = B -> length (paths st) = B -> length (probs st) = B ->
  (forall row tok, P row -> P (<[i := tok]> row)) ->
  Forall P (paths st) ->
  v' = v /\
  length (active st') = B /\ length (paths st') = B /\
  length (probs st') = B /\
  Forall P (paths st') /\
  beam_size st' = count_true (active st') /\
  (forall k row eos,
     Vocab.word_to_num v !! "<EOS>" = Some eos ->
     paths st' !! k = Some row -> row !! i = Some eos ->
     active st' !! k = Some false).
Proof.
  unfold beam_step. intros H Ha Hp Hq HP Hrows.
  apply mbind_inv in H as (flat & v1 & Hflat & H).
  apply mlift_inv in Hflat as [_ E]. simpl in E. subst v1.
  apply mbind_inv in H as ([[st1 topv] topi] & v1 & Hw & H).
  apply mlift_inv in Hw as [Hw E]. simpl in Hw, E. subst v1.
  apply widen_shape in Hw as (Hp1 & Hq1 & Ha1); [|lia].
  apply mbind_inv in H as (V & v1 & HV & H). injection HV as <- <-.
  apply mbind_inv in H as (parents & v1 & Hpar & H).
  apply mlift_inv in Hpar as [Hpar E]. simpl in Hpar, E. subst v1.
  apply mbind_inv in H as (paths1 & v1 & Hp1' & H).
  apply mlift_inv in Hp1' as [Hpaths1 E]. simpl in Hpaths1, E. subst v1.
  apply assign_inv in Hpaths1.
  apply mbind_inv in H as (toks & v1 & Htoks & H).
  apply mlift_inv in Htoks as [_ E]. simpl in E. subst v1.
  apply mbind_inv in H as (paths2 & v1 & Hp2 & H).
  apply mlift_inv in Hp2 as [Hpaths2 E]. simpl in Hpaths2, E. subst v1.
  destruct (_ =? _)%nat in Hpaths2; [|discriminate].
  apply assign_inv in Hpaths2.
  apply mbind_inv in H as (probs1 & v1 & Hq1' & H).
  apply mlift_inv in Hq1' as [Hprobs1 E]. simpl in Hprobs1, E. subst v1.
  apply assign_inv in Hprobs1.
  apply mbind_inv in H as (eos & v1 & Heos & H).
  apply control_token_inv in Heos as [E Heos]. subst v1.
  injection H as <- <-. cbn [active paths probs beam_size].
  assert (Forall P parents) as Hparents.
  { destruct (_ =? _)%nat in Hpar; [discriminate|].
    eapply gather_Forall; [|exact Hpar].
    apply select_Forall. by rewrite Hp1. }
  assert (Forall P paths1) as HP1.
  { subst paths1. apply assign_go_Forall; [by rewrite Hp1|done]. }
  assert (Forall P paths2) as HP2.
  { subst paths2. apply assign_go_Forall; [done|].
    apply write_tokens_Forall; [done|]. by apply select_Forall. }
  assert (length paths2 = B) as HL2.
  { subst paths2 paths1. rewrite !assign_go_length. congruence. }
  assert (length probs1 = B) as HLq.
  { subst probs1. rewrite assign_go_length. congruence. }
  split; [done|].
  split; [rewrite length_zip_with, length_map; lia|].
  split; [done|].
  split; [rewrite length_zip_with, length_map; lia|].
  split; [done|]. split; [done|].
  intros k row eos' He' Hk Hi.
  rewrite Heos in He'. injection He' as <-.
  rewrite lookup_zip_with, list_lookup_fmap, Hk. simpl.
  rewrite Hi, Z.eqb_refl.
  destruct (active st1 !! k) as [a|] eqn:Ea.
  - simpl. by rewrite andb_false_r.
  - apply lookup_ge_None in Ea. apply lookup_lt_Some in Hk. lia.
Qed.

(** One round of the beam-search loop keeps the beam in shape: the
    vocabulary is untouched, the three per-slot tensors keep their common
    length, every path keeps its length, the new [beam_size] is the number
    of active slots, and no slot whose path holds [<EOS>] at the position
    just written is left active.  This holds whatever the model scores,
    however the score arithmetic rounds and whatever [topk] selects. *)
Theorem beam_step_keeps_shape log_probs fadd fdiv topk init_size i st v st' v'
    B L :
  beam_step log_probs fadd fdiv topk init_size i st v = Ok (st', v') ->
  length (active st) = B -> length (paths st) = B -> length (probs st) = B ->
  Forall (fun row => length row = L) (paths st) ->
  v' = v /\
  length (active st') = B /\ length (paths st') = B /\
  length (probs st') = B /\
  Forall (fun row => length row = L) (paths st') /\
  beam_size st' = count_true (active st') /\
  (forall k row eos,
     Vocab.word_to_num v !! "<EOS>" = Some eos ->
     paths st' !! k = Some row -> row !! i = Some eos ->
     active st' !! k = Some false).
Proof.
  intros H Ha Hp Hq Hrows.
  eapply beam_step_shape in H; [exact H|done..| |done].
  intros row tok Hrow. simpl. by rewrite length_insert.
Qed.

Lemma beam_step_keeps_shape_witness :
  exists st',
    beam_step eos_second f32_add f32_div topk_by_index 2 1
      (init_beam 1 2 6) vocab5 = Ok (st', vocab5) /\
    length (active st') = 2%nat /\ length (paths st') = 2%nat /\
    length (probs st') = 2%nat /\
    Forall (fun row => length row = 6%nat) (paths st') /\
    beam_size st' = count_true (active st') /\
    (forall k row eos,
       Vocab.word_to_num vocab5 !! "<EOS>" = Some eos ->
       paths st' !! k = Some row -> row !! 1%nat = Some eos ->
       active st' !! k = Some false).
Proof.
  assert (beam_step eos_second f32_add f32_div topk_by_index 2 1
            (init_beam 1 2 6) vocab5
          = Ok (beam_eos_second, vocab5)) as H by (vm_compute; reflexivity).
  exists beam_eos_second. split; [exact H|].
  refine (proj2 (beam_step_keeps_shape eos_second f32_add f32_div
                   topk_by_index 2 1 (init_beam 1 2 6)
                   vocab5 _ vocab5 2 6 H _ _ _ _)).
  - reflexivity.
  - reflexivity.
  - reflexivity.
  - repeat constructor.
Defined.

Lemma beam_loop_shape log_probs fadd fdiv topk init_size steps :
  forall i st v st' v' B (P : list Z -> Prop),
  beam_loop log_probs fadd fdiv topk init_size steps i st v = Ok (st', v') ->
  length (active st) = B -> length (paths st) = B -> length (probs st) = B ->
  (forall j row tok, (i <= j)%nat -> P row -> P (<[j := tok]> row)) ->
  Forall P (paths st) ->
  v' = v /\ length (paths st') = B /\ length (probs st') = B /\
  Forall P (paths st').
Proof.
  induction steps as [|steps IH]; intros i st v st' v' B P H Ha Hp Hq HP Hrows.
  - by injection H as <- <-.
  - cbn [beam_loop] in H. destruct (beam_size st =? 0)%nat.
    + by injection H as <- <-.
    + apply mbind_inv in H as (st1 & v1 & Hstep & H).
      eapply beam_step_shape in Hstep
        as (-> & Ha1 & Hp1 & Hq1 & Hrows1 & _); [|done..| |done].
      2:{ intros row tok. by apply HP. }
      eapply IH in H; [exact H|done..| |done].
      intros j row tok Hj. apply HP. lia.
Qed.

(** Whatever the model scores, however the score arithmetic rounds and
    whatever [topk] selects, a beam search that returns leaves the
    vocabulary as it was and yields a row of exactly [max_length] ids that
    starts with [<BOS>]. *)
Theorem beam_search_shape log_probs fadd fdiv topk beam_size max_length v
    path v' :
  beam_search log_probs fadd fdiv topk beam_size max_length v
    = Ok (path, v') ->
  v' = v /\ length path = max_length /\
  exists bos,
    Vocab.word_to_num v !! "<BOS>" = Some bos /\
    ((0 < max_length)%nat -> path !! 0%nat = Some bos).
Proof.
  unfold beam_search. intros H.
  apply mbind_inv in H as (bos & v1 & Hbos & H).
  apply control_token_inv in Hbos as [E Hbos]. subst v1.
  apply mbind_inv in H as (st' & v1 & Hloop & H).
  apply (beam_loop_shape _ _ _ _ _ _ _ _ _ _ _ beam_size
           (fun row => length row = max_length /\
                       ((0 < max_length)%nat -> row !! 0%nat = Some bos)))
    in Hloop as (-> & Hp & Hq & Hrows).
  - apply mbind_inv in H as (best & v1 & Hbest & H).
    apply mlift_inv in Hbest as [_ E]. simpl in E. subst v1.
    apply mlift_inv in H as [H E]. simpl in H, E. subst v'.
    destruct (paths st' !! best) as [p|] eqn:Ep; [|discriminate].
    injection H as <-.
    destruct (Forall_lookup_1 _ _ _ _ Hrows Ep) as [Hl H0].
    split; [done|]. split; [done|]. by exists bos.
  - apply length_replicate.
  - apply length_replicate.
  - apply length_replicate.
  - intros j row tok Hj [Hl H0]. split; [by rewrite length_insert|].
    intros Hm. rewrite list_lookup_insert_ne by lia. auto.
  - apply Forall_replicate. split; [apply length_replicate|].
    intros Hm. by apply lookup_replicate_2.
Qed.

Lemma beam_search_shape_witness :
  exists path,
    beam_search eos_second f32_add f32_div topk_by_index 2 6 vocab5
      = Ok (path, vocab5) /\
    length path = 6%nat /\
    exists bos,
      Vocab.word_to_num vocab5 !! "<BOS>" = Some bos /\
      ((0 < 6)%nat -> path !! 0%nat = Some bos).
Proof.
  destruct (beam_search eos_second f32_add f32_div topk_by_index 2 6 vocab5)
    as [[path v']| |] eqn:E;
    [|vm_compute in E; discriminate|vm_compute in E; discriminate].
  assert (v' = vocab5) as ->
    by exact (proj1 (beam_search_shape eos_second f32_add f32_div
                       topk_by_index 2 6 vocab5 path v' E)).
  exists path. split; [reflexivity|].
  exact (proj2 (beam_search_shape eos_second f32_add f32_div topk_by_index
                  2 6 vocab5 path vocab5 E)).
Defined.
